(** * A reactive spreadsheet: shallow embedding of [src/spreadsheet.js]

    The development embeds the [Cell] and [Spreadsheet] classes and, of the
    DOM glue at the end of the source file, the functions [updateUI] and
    [updateAllUI] and [window.setCell], over the part of the document that
    they read and write.  The event listeners are not embedded.

    Conventions of the embedding:
    - a JavaScript string is a [string] whose characters are the code units
      0..255;
    - a JavaScript number is a binary64 [float];
    - a JavaScript [Set] is a duplicate-free list in insertion order, because
      [for ... of] walks a [Set] in that order;
    - the [cells] object is a [gmap] from identifiers to cells, together with
      the property names every object literal inherits from
      [Object.prototype]. *)

From Stdlib Require Import ZArith NArith Floats Ascii String Lia.
From stdpp Require Import base option list gmap strings.

Local Open Scope string_scope.

(** ** Strings *)

Module JSString.

Definition code (c : ascii) : N := N_of_ascii c.

(** [\d] *)
Definition is_digit (c : ascii) : bool :=
  ((48 <=? code c) && (code c <=? 57))%N.

(** [\s], and the characters [String.prototype.trim] strips: tab, line
    feed, vertical tab, form feed, carriage return, space and the
    no-break space. *)
Definition is_space (c : ascii) : bool :=
  ((9 <=? code c) && (code c <=? 13) || (code c =? 32) || (code c =? 160))%N.

(** The line terminators among them. *)
Definition is_newline (c : ascii) : bool :=
  ((code c =? 10) || (code c =? 13))%N.

Fixpoint trimStart (s : string) : string :=
  match s with
  | String c s' => if is_space c then trimStart s' else s
  | EmptyString => EmptyString
  end.

Definition trimEnd (s : string) : string :=
  String.rev (trimStart (String.rev s)).

(** [s.trim()] *)
Definition trim (s : string) : string := trimEnd (trimStart s).

(** [s.startsWith(p)] *)
Fixpoint startsWith (p s : string) : bool :=
  match p, s with
  | EmptyString, _ => true
  | String a p', String b s' => if decide (a = b) then startsWith p' s' else false
  | String _ _, EmptyString => false
  end.

(** [s.slice(1)] *)
Definition slice1 (s : string) : string :=
  match s with
  | String _ s' => s'
  | EmptyString => EmptyString
  end.

(** The body of [replaceAll] for a pattern that is not empty: [skip]
    counts the characters of a match that are still to be dropped. *)
Fixpoint replace_go (pat rep : string) (skip : nat) (s : string) : string :=
  match s with
  | EmptyString => EmptyString
  | String c s' =>
      match skip with
      | S k => replace_go pat rep k s'
      | O =>
          if startsWith pat s
          then rep ++ replace_go pat rep (String.length pat - 1) s'
          else String c (replace_go pat rep O s')
      end
  end.

(** With the empty pattern the replacement goes between all code units. *)
Fixpoint intersperse (rep s : string) : string :=
  match s with
  | EmptyString => rep
  | String c s' => rep ++ String c (intersperse rep s')
  end.

(** [s.replaceAll(pat, rep)] for a string pattern and a replacement text
    without [$]. *)
Definition replaceAll (pat rep s : string) : string :=
  match pat with
  | EmptyString => intersperse rep s
  | String _ _ => replace_go pat rep O s
  end.

Fixpoint all_chars (p : ascii -> bool) (s : string) : bool :=
  match s with
  | EmptyString => true
  | String c s' => p c && all_chars p s'
  end.

Fixpoint In_string (c : ascii) (s : string) : Prop :=
  match s with
  | EmptyString => False
  | String d s' => c = d \/ In_string c s'
  end.

End JSString.

Import JSString.

(** ** The two regular expressions of [_evaluateCell] *)

(** [[A-E]] *)
Definition is_col_letter (c : ascii) : bool :=
  ((65 <=? code c) && (code c <=? 69))%N.

(** [[1-5]] *)
Definition is_row_digit (c : ascii) : bool :=
  ((49 <=? code c) && (code c <=? 53))%N.

(** [raw.match(/[A-E][1-5]/g) || []]: the matches from left to right, each
    search resuming after the previous match. *)
Fixpoint match_refs_go (skip : bool) (s : string) : list string :=
  match s with
  | EmptyString => []
  | String a s' =>
      if skip then match_refs_go false s'
      else match s' with
           | String b _ =>
               if is_col_letter a && is_row_digit b
               then String a (String b EmptyString) :: match_refs_go true s'
               else match_refs_go false s'
           | EmptyString => []
           end
  end.

Definition match_refs (raw : string) : list string := match_refs_go false raw.

(** The class [[-+*/().\d\s]]. *)
Definition is_expr_char (c : ascii) : bool :=
  is_digit c || is_space c
  || bool_decide (c = "-"%char) || bool_decide (c = "+"%char)
  || bool_decide (c = "*"%char) || bool_decide (c = "/"%char)
  || bool_decide (c = "("%char) || bool_decide (c = ")"%char)
  || bool_decide (c = "."%char).

(** [/^[-+*/().\d\s]+$/.test(expr)] *)
Definition valid_expr (expr : string) : bool :=
  match expr with
  | EmptyString => false
  | String _ _ => all_chars is_expr_char expr
  end.


(** ** Numbers

    [Number(text)] and the conversion of a number to text, on binary64
    floats.  Both go through exact integer arithmetic: a decimal literal
    denotes a rational [n / d], which is rounded to the nearest float, ties
    to even. *)

Module JSNumber.

Local Open Scope Z_scope.

(** The float [q * 2^e], for [0 <= q <= 2^53]. *)
Definition scale2 (q e : Z) : float :=
  Z.ldexp (PrimFloat.of_uint63 (Uint63.of_Z q)) e.

(** Quotient of [n / (d * 2^e)] rounded to the nearest integer, ties to
    even. *)
Definition div_pow2_even (n d e : Z) : Z :=
  let num := if 0 <=? e then n else n * 2 ^ (- e) in
  let den := if 0 <=? e then d * 2 ^ e else d in
  let q := num / den in
  let r := num mod den in
  if (den <? 2 * r) || ((den =? 2 * r) && Z.odd q) then q + 1 else q.

(** The exponent [e] with [2^52 <= n / (d * 2^e) < 2^53], not below the
    exponent of the subnormal numbers. *)
Definition binade (n d : Z) : Z :=
  let e := Z.log2 n - Z.log2 d - 52 in
  let num := if 0 <=? e then n else n * 2 ^ (- e) in
  let den := if 0 <=? e then d * 2 ^ e else d in
  let q := num / den in
  let e' := if q <? 2 ^ 52 then e - 1 else if 2 ^ 53 <=? q then e + 1 else e in
  Z.max e' (-1074).

(** The float nearest to [n / d], for [0 <= n] and [0 < d]. *)
Definition round_ratio (n d : Z) : float :=
  if n =? 0 then PrimFloat.zero
  else let e := binade n d in scale2 (div_pow2_even n d e) e.

(** [m * 10^x] as a float; the two guards only cut the size of the
    integers: beyond them the result is infinite, or zero. *)
Definition round_decimal (m x digits : Z) : float :=
  if m =? 0 then PrimFloat.zero
  else if 310 <=? x then PrimFloat.infinity
  else if x + digits <=? -330 then PrimFloat.zero
  else if 0 <=? x then round_ratio (m * 10 ^ x) 1
  else round_ratio m (10 ^ (- x)).

Definition digit_val (c : ascii) : option Z :=
  let k := Z.of_N (code c) in
  if (48 <=? k) && (k <=? 57) then Some (k - 48)
  else if (97 <=? k) && (k <=? 102) then Some (k - 87)
  else if (65 <=? k) && (k <=? 70) then Some (k - 55)
  else None.

(** Reads the longest prefix of digits in [base]: their value, their
    number, and the rest of the text. *)
Fixpoint read_digits (base acc count : Z) (s : string) : Z * Z * string :=
  match s with
  | String c s' =>
      match digit_val c with
      | Some v => if v <? base then read_digits base (acc * base + v) (count + 1) s'
                  else (acc, count, s)
      | None => (acc, count, s)
      end
  | EmptyString => (acc, count, s)
  end.

(** [ExponentPart], when the text has one; [None] when the text does not
    end there. *)
Definition read_exponent (s : string) : option Z :=
  match s with
  | EmptyString => Some 0
  | String c s' =>
      if bool_decide (c = "e"%char) || bool_decide (c = "E"%char) then
        let '(neg, s'') :=
          match s' with
          | String "-"%char t => (true, t)
          | String "+"%char t => (false, t)
          | _ => (false, s')
          end in
        match read_digits 10 0 0 s'' with
        | (v, n, EmptyString) => if 0 <? n then Some (if neg then - v else v) else None
        | _ => None
        end
      else None
  end.

(** [StrUnsignedDecimalLiteral] *)
Definition unsigned_decimal (s : string) : option float :=
  if String.eqb s "Infinity" then Some PrimFloat.infinity
  else
    let '(ip, ni, s1) := read_digits 10 0 0 s in
    let '(fp, nf, s2) :=
      match s1 with
      | String "."%char t => read_digits 10 0 0 t
      | _ => (0, 0, s1)
      end in
    if (ni =? 0) && (nf =? 0) then None
    else if (ni =? 0) && negb (startsWith "." s1) then None
    else match read_exponent s2 with
         | Some x => Some (round_decimal (ip * 10 ^ nf + fp) (x - nf) (ni + nf))
         | None => None
         end.

(** [NonDecimalIntegerLiteral] after its two-character prefix. *)
Definition radix_literal (base : Z) (s : string) : option float :=
  match read_digits base 0 0 s with
  | (v, n, EmptyString) => if 0 <? n then Some (round_ratio v 1) else None
  | _ => None
  end.

(** [StringToNumber]: the number a text converts to, NaN when it is not a
    numeric literal. *)
Definition Number (text : string) : float :=
  let s := trim text in
  let r :=
    match s with
    | EmptyString => Some PrimFloat.zero
    | String "0"%char (String p t) =>
        if bool_decide (p = "x"%char) || bool_decide (p = "X"%char) then radix_literal 16 t
        else if bool_decide (p = "o"%char) || bool_decide (p = "O"%char) then radix_literal 8 t
        else if bool_decide (p = "b"%char) || bool_decide (p = "B"%char) then radix_literal 2 t
        else unsigned_decimal s
    | String "-"%char t => option_map PrimFloat.opp (unsigned_decimal t)
    | String "+"%char t => unsigned_decimal t
    | _ => unsigned_decimal s
    end in
  match r with Some x => x | None => PrimFloat.nan end.

(** The global [isNaN] on a text. *)
Definition isNaN (text : string) : bool := PrimFloat.is_nan (Number text).

(** Decimal digits of a natural number, most significant first. *)
Fixpoint digits_go (fuel : nat) (z : Z) (acc : string) : string :=
  match fuel with
  | O => acc
  | S f =>
      let acc' := String (ascii_of_N (Z.to_N (48 + z mod 10))) acc in
      if z <? 10 then acc' else digits_go f (z / 10) acc'
  end.

Definition digits (z : Z) : string :=
  digits_go (S (Z.to_nat (Z.log2 z))) z EmptyString.

Fixpoint zeros (n : nat) : string :=
  match n with
  | O => EmptyString
  | S k => String "0"%char (zeros k)
  end.

Fixpoint take (n : nat) (s : string) : string :=
  match n, s with
  | S k, String c s' => String c (take k s')
  | _, _ => EmptyString
  end.

Fixpoint drop (n : nat) (s : string) : string :=
  match n, s with
  | S k, String _ s' => drop k s'
  | _, _ => s
  end.

Section Shortest.
(** A positive finite float [x] and its exact value [vn / vd]. *)
Variables (x : float) (vn vd : Z).

(** The least [n >= lo] with [vn / vd < 10^n]. *)
Fixpoint magnitude (fuel : nat) (n : Z) : Z :=
  match fuel with
  | O => n
  | S f =>
      if (if 0 <=? n then vn <? vd * 10 ^ n else vn * 10 ^ (- n) <? vd)
      then n else magnitude f (n + 1)
  end.

(** The [k]-digit decimals [s * 10^(n-k)] next to the value that convert
    back to [x]: the nearer one, the even one on a tie. *)
Definition candidate (n k : Z) : option (Z * Z) :=
  let num := if 0 <=? k - n then vn * 10 ^ (k - n) else vn in
  let den := if 0 <=? k - n then vd else vd * 10 ^ (n - k) in
  let lo := num / den in
  let r := num mod den in
  let ok s := PrimFloat.eqb (round_decimal s (n - k) k) x in
  let pick :=
    match ok lo, ok (lo + 1) with
    | true, true =>
        if (2 * r <? den) || ((2 * r =? den) && Z.even lo)
        then Some lo else Some (lo + 1)
    | true, false => Some lo
    | false, true => Some (lo + 1)
    | false, false => None
    end in
  match pick with
  | Some s => if s =? 10 ^ k then Some (10 ^ (k - 1), n + 1) else Some (s, n)
  | None => None
  end.

(** The first [k] that has a candidate, from [k] upwards. *)
Fixpoint shortest (fuel : nat) (n k : Z) : Z * Z * Z :=
  match fuel with
  | O => (vn * 10 ^ (k - n) / vd, n, k)
  | S f =>
      match candidate n k with
      | Some (s, n') => (s, n', k)
      | None => shortest f n (k + 1)
      end
  end.
End Shortest.

(** The text of a positive finite number with digits [s], [k] of them,
    and decimal exponent [n]. *)
Definition layout (s n k : Z) : string :=
  let ds := digits s in
  if (k <=? n) && (n <=? 21) then ds ++ zeros (Z.to_nat (n - k))
  else if (0 <? n) && (n <=? 21) then
    take (Z.to_nat n) ds ++ "." ++ drop (Z.to_nat n) ds
  else if (-6 <? n) && (n <=? 0) then
    "0." ++ zeros (Z.to_nat (- n)) ++ ds
  else
    let e := n - 1 in
    let tail := "e" ++ (if e <? 0 then "-" else "+") ++ digits (Z.abs e) in
    if k =? 1 then ds ++ tail
    else take 1 ds ++ "." ++ drop 1 ds ++ tail.

(** [Number::toString(x)] in radix 10: NaN, the zeros, the infinities, and
    then the shortest digits that convert back to [x]. *)
Definition to_string (x : float) : string :=
  if PrimFloat.is_nan x then "NaN"
  else if PrimFloat.is_infinity x then
    (if PrimFloat.ltb x PrimFloat.zero then "-Infinity" else "Infinity")
  else
    match Prim2SF x with
    | S754_finite sign m e =>
        let vn := if 0 <=? e then Zpos m * 2 ^ e else Zpos m in
        let vd := if 0 <=? e then 1 else 2 ^ (- e) in
        let n := magnitude vn vd 700 (-330) in
        let '(s, n', k) := shortest (PrimFloat.abs x) vn vd 17 n 1 in
        (if sign then "-" else "") ++ layout s n' k
    | _ => "0"
    end.

End JSNumber.

(** ** Values and cells *)

(** What a cell's [value] field can hold: a number, a string, [undefined],
    or an object, of which only the text it converts to is kept. *)
Inductive jsval :=
  | VNum (x : float)
  | VStr (s : string)
  | VUndef
  | VObj (text : string).

(** The conversion of a value to a string, as [+] between strings does it. *)
Definition to_text (v : jsval) : string :=
  match v with
  | VNum x => JSNumber.to_string x
  | VStr s => s
  | VUndef => "undefined"
  | VObj t => t
  end.

(** [class Cell]; the identifier is the key under which the cell is stored. *)
Record Cell := mkCell {
  raw : string;
  value : jsval;
  dependencies : list string;
  dependents : list string;
  error : option string
}.

(** [new Cell(id)] *)
Definition new_Cell : Cell := mkCell "" (VStr "") [] [] None.

Definition set_raw (r : string) (c : Cell) : Cell :=
  mkCell r (value c) (dependencies c) (dependents c) (error c).
Definition set_value (v : jsval) (c : Cell) : Cell :=
  mkCell (raw c) v (dependencies c) (dependents c) (error c).
Definition set_error (e : option string) (c : Cell) : Cell :=
  mkCell (raw c) (value c) (dependencies c) (dependents c) e.
Definition set_dependencies (l : list string) (c : Cell) : Cell :=
  mkCell (raw c) (value c) l (dependents c) (error c).
Definition set_dependents (l : list string) (c : Cell) : Cell :=
  mkCell (raw c) (value c) (dependencies c) l (error c).

(** [Set.prototype.add] and [Set.prototype.delete] on insertion-ordered
    sets. *)
Definition set_add (x : string) (l : list string) : list string :=
  if decide (x ∈ l) then l else l ++ [x].
Definition set_delete (x : string) (l : list string) : list string :=
  filter (λ y, y ≠ x) l.

(** The cell table. *)
Abbreviation sheet := (gmap string Cell).

(** The property names that [this.cells = {}] inherits from
    [Object.prototype]; each holds a function or an object. *)
Definition inherited_names : list string :=
  [ "constructor"; "__defineGetter__"; "__defineSetter__"; "hasOwnProperty";
    "__lookupGetter__"; "__lookupSetter__"; "isPrototypeOf";
    "propertyIsEnumerable"; "toString"; "valueOf"; "__proto__";
    "toLocaleString" ].

(** What [this.cells[id]] evaluates to. *)
Inductive slot :=
  | Own (c : Cell)
  | Inherited
  | Absent.

Definition lookup_slot (s : sheet) (id : string) : slot :=
  match s !! id with
  | Some c => Own c
  | None => if bool_decide (id ∈ inherited_names) then Inherited else Absent
  end.

(** [new Spreadsheet(cols, rows)], for at most 191 columns (the column
    letters are the code units from 65 on). *)
Definition colNames (cols : nat) : list string :=
  (λ i, String (ascii_of_nat (65 + i)) EmptyString) <$> seq 0 cols.

Definition cell_ids (cols rows : nat) : list string :=
  c ← colNames cols; r ← seq 1 rows; [c ++ JSNumber.digits (Z.of_nat r)].

Definition Spreadsheet (cols rows : nat) : sheet :=
  list_to_map ((λ id, (id, new_Cell)) <$> cell_ids cols rows).

(** [getCell]: [this.cells[cellId]?.value].  The inherited objects have no
    [value] property. *)
Definition getCell (s : sheet) (cellId : string) : jsval :=
  match lookup_slot s cellId with
  | Own c => value c
  | Inherited | Absent => VUndef
  end.

(** ** Outcomes *)

(** A call returns, throws, or the model runs out of fuel; the state at the
    throw is kept, since mutations made before it stay. *)
Inductive outcome (A : Type) :=
  | Done (a : A)
  | Throws (message : string) (a : A)
  | OutOfFuel.
Arguments Done {A} a.
Arguments Throws {A} message a.
Arguments OutOfFuel {A}.

(** The result of running generated code. *)
Inductive completion :=
  | Normal (v : jsval)
  | Abrupt (message : string).

(** ** The engine *)

Section Engine.

(** [run expr] is what [Function('return ' + expr)()] does for a text
    [expr]. *)
Variable run : string -> completion.

(** The value a reference contributes to the expression text (lines 87 to
    89). *)
Definition ref_value (s : sheet) (ref : string) : jsval :=
  let refVal := getCell s ref in
  let refVal :=
    match refVal with
    | VUndef | VStr EmptyString => VNum PrimFloat.zero
    | _ => refVal
    end in
  match refVal with
  | VStr t => if JSNumber.isNaN t then VNum PrimFloat.zero else refVal
  | _ => refVal
  end.

(** Lines 79 and 80 for one reference. *)
Definition add_edge (cellId : string) (s : sheet) (ref : string) : sheet :=
  let s1 := alter (λ c, set_dependencies (set_add ref (dependencies c)) c) cellId s in
  alter (λ c, set_dependents (set_add cellId (dependents c)) c) ref s1.

(** Stores a result in the cell, as the assignments to [cell.value] and
    [cell.error] do. *)
Definition store (cellId : string) (v : jsval) (e : option string) (s : sheet) : sheet :=
  alter (λ c, set_error e (set_value v c)) cellId s.

(** The state a call of [_evaluateCell] works on: the table and the
    [visited] set, which all calls of one evaluation share. *)
Definition estate : Type := sheet * gset string.

(** The loop of lines 84 to 91, over a function [eval] for the recursive
    call. *)
Fixpoint substitute (eval : string -> estate -> outcome estate)
    (refs : list string) (expr : string) (st : estate) : outcome (string * estate) :=
  match refs with
  | [] => Done (expr, st)
  | ref :: refs' =>
      match eval ref st with
      | Done (s, visited) =>
          let refVal := ref_value s ref in
          let expr := replaceAll ref ("(" ++ to_text refVal ++ ")") expr in
          substitute eval refs' expr (s, visited)
      | Throws m st' => Throws m (expr, st')
      | OutOfFuel => OutOfFuel
      end
  end.

(** The message of the [TypeError] for [cell.raw.trim()] on an object
    without [raw]. *)
Definition no_raw_message : string :=
  "Cannot read properties of undefined (reading 'trim')".

(** The value of a cell that holds no formula (lines 63 to 69). *)
Definition literal (raw : string) : jsval :=
  if decide (raw = "") then VStr ""
  else if negb (JSNumber.isNaN raw) then VNum (JSNumber.Number raw)
  else VStr raw.

(** [_evaluateCell(cellId, visited)] *)
Fixpoint evaluateCell (fuel : nat) (cellId : string) (st : estate) : outcome estate :=
  match fuel with
  | O => OutOfFuel
  | S fuel' =>
      let '(s, visited) := st in
      match lookup_slot s cellId with
      | Absent => Done (s, visited)
      | Inherited =>
          if decide (cellId ∈ visited) then Done (s, visited)
          else Throws no_raw_message (s, visited ∪ {[cellId]})
      | Own cell =>
          if decide (cellId ∈ visited) then
            Done (store cellId (VStr "#CIRC") (Some "Circular reference") s, visited)
          else
            let visited := visited ∪ {[cellId]} in
            let raw := trim (raw cell) in
            if negb (startsWith "=" raw) then
              Done (store cellId (literal raw) None s, visited ∖ {[cellId]})
            else
              let refs := match_refs raw in
              let s := foldl (add_edge cellId) s refs in
              match substitute (evaluateCell fuel') refs (slice1 raw) (s, visited) with
              | Done (expr, (s, visited)) =>
                  let s :=
                    if valid_expr expr then
                      match run expr with
                      | Normal v => store cellId v None s
                      | Abrupt m => store cellId (VStr "#ERR") (Some m) s
                      end
                    else store cellId (VStr "#ERR") (Some "Invalid formula") s in
                  Done (s, visited ∖ {[cellId]})
              | Throws m (_, (s, visited)) =>
                  Done (store cellId (VStr "#ERR") (Some m) s, visited ∖ {[cellId]})
              | OutOfFuel => OutOfFuel
              end
      end
  end.

(** [_updateDependents(cellId, visited)].  The loop of line 109 walks the
    live [dependents] set of the cell: [upd_loop] reads its [i]-th member
    from the current table at every turn. *)
Fixpoint updateDependents (efuel fuel : nat) (cellId : string) (st : estate) : outcome estate :=
  match fuel with
  | O => OutOfFuel
  | S fuel' =>
      let '(s, visited) := st in
      if decide (cellId ∈ visited) then Done (s, visited)
      else
        let visited := visited ∪ {[cellId]} in
        match lookup_slot s cellId with
        | Own _ => upd_loop efuel fuel' cellId 0 (s, visited)
        | Inherited => Throws "cell.dependents is not iterable" (s, visited)
        | Absent =>
            Throws "Cannot read properties of undefined (reading 'dependents')" (s, visited)
        end
  end
with upd_loop (efuel fuel : nat) (cellId : string) (i : nat) (st : estate) : outcome estate :=
  match fuel with
  | O => OutOfFuel
  | S fuel' =>
      let '(s, visited) := st in
      match s !! cellId ≫= (λ c, dependents c !! i) with
      | None => Done (s, visited)
      | Some dep =>
          match evaluateCell efuel dep (s, ∅) with
          | Done (s, _) =>
              match updateDependents efuel fuel' dep (s, visited) with
              | Done st' => upd_loop efuel fuel' cellId (S i) st'
              | other => other
              end
          | Throws m (s, _) => Throws m (s, visited)
          | OutOfFuel => OutOfFuel
          end
      end
  end.

(** Lines 34 to 40: the new raw text, and the cell taken out of the
    [dependents] of the cells it referred to. *)
Definition detach (cellId valueOrFormula : string) (cell : Cell) (s : sheet) : sheet :=
  let s := alter (λ c, set_error None (set_raw valueOrFormula c)) cellId s in
  let s := foldl (λ s dep, alter (λ c, set_dependents (set_delete cellId (dependents c)) c) dep s)
                 s (dependencies cell) in
  alter (set_dependencies []) cellId s.

(** [setCell(cellId, valueOrFormula)].  On an inherited name the two
    assignments land on the inherited object and the loop of line 37
    throws, because that object has no [dependencies]. *)
Definition setCell (efuel fuel : nat) (cellId valueOrFormula : string) (s : sheet) : outcome sheet :=
  match lookup_slot s cellId with
  | Absent => Done s
  | Inherited => Throws "cell.dependencies is not iterable" s
  | Own cell =>
      let s := detach cellId valueOrFormula cell s in
      match evaluateCell efuel cellId (s, ∅) with
      | Done (s, _) =>
          match updateDependents efuel fuel cellId (s, ∅) with
          | Done (s, _) => Done s
          | Throws m (s, _) => Throws m s
          | OutOfFuel => OutOfFuel
          end
      | Throws m (s, _) => Throws m s
      | OutOfFuel => OutOfFuel
      end
  end.

End Engine.

(** ** Arithmetic expressions

    The part of the language of [Function('return ' + expr)()] that the
    formulas of the sheet are written in: decimal literals, parentheses,
    unary and binary [+] and [-], [*] and [/], and blanks.  [js_arith]
    gives the number such a text evaluates to.  It answers [None] on every
    text outside this part, whatever JavaScript does with it: a text that
    does not parse, and also a line break (which can end the [return]
    statement early), [//] and [/*] (comments), [**], [++] and [--], a [/]
    where an operand is expected (a regular expression), an operand followed
    by a parenthesis (a call), and a literal with a leading zero (octal). *)

Module Arith.

Inductive token :=
  | TNum (x : float)
  | TPlus | TMinus | TStar | TSlash
  | TLParen | TRParen.

Inductive binop := Add | Sub | Mul | Div.

Inductive expr :=
  | Lit (x : float)
  | Neg (e : expr)
  | Pos (e : expr)
  | Bin (op : binop) (l r : expr).

(** A decimal literal at the head of [s]: its value and the rest. *)
Definition lex_number (s : string) : option (float * string) :=
  let '(ip, ni, s1) := JSNumber.read_digits 10 0 0 s in
  let '(fp, nf, s2) :=
    match s1 with
    | String "."%char t => JSNumber.read_digits 10 0 0 t
    | _ => (0, 0, s1)%Z
    end in
  if ((ni =? 0) && (nf =? 0))%Z then None
  else if ((1 <? ni)%Z && startsWith "0" s) then None
  else Some (JSNumber.round_decimal (ip * 10 ^ nf + fp) (- nf) (ni + nf), s2).

Definition next_is (c : ascii) (s : string) : bool :=
  match s with
  | String d _ => bool_decide (c = d)
  | EmptyString => false
  end.

Fixpoint lex (fuel : nat) (s : string) : option (list token) :=
  match fuel with
  | O => None
  | S fuel' =>
      match s with
      | EmptyString => Some []
      | String c s' =>
          if is_newline c then None
          else if is_space c then lex fuel' s'
          else if is_digit c || bool_decide (c = "."%char) then
            match lex_number s with
            | Some (x, rest) =>
                if (String.length rest <? String.length s)%nat
                then cons (TNum x) <$> lex fuel' rest
                else None
            | None => None
            end
          else if bool_decide (c = "+"%char) then
            if next_is "+" s' then None else cons TPlus <$> lex fuel' s'
          else if bool_decide (c = "-"%char) then
            if next_is "-" s' then None else cons TMinus <$> lex fuel' s'
          else if bool_decide (c = "*"%char) then
            if next_is "*" s' then None else cons TStar <$> lex fuel' s'
          else if bool_decide (c = "/"%char) then
            if next_is "/" s' || next_is "*" s' then None
            else cons TSlash <$> lex fuel' s'
          else if bool_decide (c = "("%char) then cons TLParen <$> lex fuel' s'
          else if bool_decide (c = ")"%char) then cons TRParen <$> lex fuel' s'
          else None
      end
  end.

(** Recursive descent; the two [_rest] functions fold the operators of
    one level to the left. *)
Fixpoint parse_unary (fuel : nat) (ts : list token) : option (expr * list token) :=
  match fuel with
  | O => None
  | S fuel' =>
      match ts with
      | TNum x :: ts' => Some (Lit x, ts')
      | TMinus :: ts' =>
          '(e, r) ← parse_unary fuel' ts'; Some (Neg e, r)
      | TPlus :: ts' =>
          '(e, r) ← parse_unary fuel' ts'; Some (Pos e, r)
      | TLParen :: ts' =>
          '(e, r) ← parse_additive fuel' ts';
          match r with
          | TRParen :: r' => Some (e, r')
          | _ => None
          end
      | _ => None
      end
  end
with parse_mult_rest (fuel : nat) (acc : expr) (ts : list token) : option (expr * list token) :=
  match fuel with
  | O => None
  | S fuel' =>
      match ts with
      | TStar :: ts' =>
          '(e, r) ← parse_unary fuel' ts'; parse_mult_rest fuel' (Bin Mul acc e) r
      | TSlash :: ts' =>
          '(e, r) ← parse_unary fuel' ts'; parse_mult_rest fuel' (Bin Div acc e) r
      | _ => Some (acc, ts)
      end
  end
with parse_add_rest (fuel : nat) (acc : expr) (ts : list token) : option (expr * list token) :=
  match fuel with
  | O => None
  | S fuel' =>
      match ts with
      | TPlus :: ts' =>
          '(e, r) ← parse_unary fuel' ts';
          '(e', r') ← parse_mult_rest fuel' e r;
          parse_add_rest fuel' (Bin Add acc e') r'
      | TMinus :: ts' =>
          '(e, r) ← parse_unary fuel' ts';
          '(e', r') ← parse_mult_rest fuel' e r;
          parse_add_rest fuel' (Bin Sub acc e') r'
      | _ => Some (acc, ts)
      end
  end
with parse_additive (fuel : nat) (ts : list token) : option (expr * list token) :=
  match fuel with
  | O => None
  | S fuel' =>
      '(e, r) ← parse_unary fuel' ts;
      '(e', r') ← parse_mult_rest fuel' e r;
      parse_add_rest fuel' e' r'
  end.

(** The whole token list as one expression. *)
Definition parse (ts : list token) : option expr :=
  match parse_additive (2 * length ts + 2) ts with
  | Some (e, []) => Some e
  | _ => None
  end.

Fixpoint eval (e : expr) : float :=
  match e with
  | Lit x => x
  | Neg e => PrimFloat.opp (eval e)
  | Pos e => eval e
  | Bin Add l r => PrimFloat.add (eval l) (eval r)
  | Bin Sub l r => PrimFloat.sub (eval l) (eval r)
  | Bin Mul l r => PrimFloat.mul (eval l) (eval r)
  | Bin Div l r => PrimFloat.div (eval l) (eval r)
  end.

Definition js_arith (text : string) : option float :=
  ts ← lex (S (String.length text)) text;
  e ← parse ts;
  Some (eval e).

(** The token of a binary operator and its binding strength. *)
Definition tok (op : binop) : token :=
  match op with
  | Add => TPlus
  | Sub => TMinus
  | Mul => TStar
  | Div => TSlash
  end.

Definition level (op : binop) : nat :=
  match op with
  | Add | Sub => 1
  | Mul | Div => 2
  end.

End Arith.

(** ** Engines and fuel *)

(** An engine that evaluates the texts of the arithmetic part as
    [Arith.js_arith] does; on the other texts it is free. *)
Definition arithmetic_engine (run : string -> completion) : Prop :=
  ∀ e x, Arith.js_arith e = Some x -> run e = Normal (VNum x).

(** The engine that throws outside the arithmetic part. *)
Definition reference_engine (e : string) : completion :=
  match Arith.js_arith e with
  | Some x => Normal (VNum x)
  | None => Abrupt "SyntaxError"
  end.

(** [run], with the arithmetic part computed. *)
Definition computed (run : string -> completion) (e : string) : completion :=
  match Arith.js_arith e with
  | Some x => Normal (VNum x)
  | None => run e
  end.

(** Fuel for the calls on the 5 by 5 grid of the source. *)
Definition efuel5 : nat := 30.
Definition fuel5 : nat := 800.

(** A sequence of [setCell] calls from the left, each with the fuel above;
    the first call that does not return ends it. *)
Definition setCells (run : string -> completion) (calls : list (string * string))
    (s : sheet) : outcome sheet :=
  foldl (λ o call,
           match o with
           | Done s => setCell run efuel5 fuel5 call.1 call.2 s
           | other => other
           end) (Done s) calls.

(** The grid of the source: [new Spreadsheet(COLS, ROWS)]. *)
Definition grid5 : sheet := Spreadsheet 5 5.

(** What the display reads of a cell: its value and its error. *)
Definition shown (s : sheet) (id : string) : jsval * option (option string) :=
  (getCell s id, error <$> s !! id).

(** The same for several cells after a call that returned. *)
Definition observe (o : outcome sheet) (ids : list string) :
    option (list (jsval * option (option string))) :=
  match o with
  | Done s => Some (shown s <$> ids)
  | _ => None
  end.

(** The table a call leaves, when it returns or throws. *)
Definition table_of (o : outcome estate) : option sheet :=
  match o with
  | Done (s, _) | Throws _ (s, _) => Some s
  | OutOfFuel => None
  end.

(** The states of a grid: the constructed grids and what completed
    [setCell] calls make of them.  A call that throws leaves the table as it
    was. *)
Inductive reachable (run : string -> completion) : sheet -> Prop :=
  | reachable_new cols rows : reachable run (Spreadsheet cols rows)
  | reachable_set s efuel fuel id text s' :
      reachable run s ->
      setCell run efuel fuel id text s = Done s' ->
      reachable run s'.

(** Whether a raw text is a formula, and the references it then holds. *)
Definition is_formula (text : string) : bool := startsWith "=" (trim text).

Definition formula_refs (text : string) : list string :=
  if is_formula text then match_refs (trim text) else [].

(** The forward and the reverse edges agree on the cells of the table. *)
Definition edges_mutual (s : sheet) : Prop :=
  ∀ a b ca cb, s !! a = Some ca -> s !! b = Some cb ->
    (b ∈ dependencies ca <-> a ∈ dependents cb).

(** The texts the reference pattern matches: a letter from A to E and a
    digit from 1 to 5. *)
Definition is_ref (r : string) : Prop :=
  ∃ a b, r = String a (String b EmptyString) ∧ is_col_letter a = true ∧ is_row_digit b = true.

(** The [dependents] sets hold each member once, and only cells of the
    table. *)
Definition dependents_ok (s : sheet) : Prop :=
  ∀ b cb, s !! b = Some cb ->
    NoDup (dependents cb) ∧ ∀ a, a ∈ dependents cb -> is_Some (s !! a).

(** Fuel that is enough for [_updateDependents] on a table of [n] cells. *)
Definition fuel_for (n : nat) : nat := (n + 2) * (n + 1).

(** A cell shows the value of its raw text taken as a literal, and no
    error. *)
Definition holds_literal (id : string) (s : sheet) : Prop :=
  ∃ c, s !! id = Some c ∧ value c = literal (trim (raw c)) ∧ error c = None.

(** [after o Q]: [Q] holds of what the call leaves, when it returns or
    throws. *)
Definition after {A : Type} (o : outcome A) (Q : A -> Prop) : Prop :=
  match o with
  | Done a | Throws _ a => Q a
  | OutOfFuel => True
  end.



(** [occurs r e]: the text [r] occurs in [e]. *)
Definition occurs (r e : string) : Prop := ∃ a b, e = a ++ r ++ b.

(** The value of the reference [ref] right after the loop of lines 84 to 91,
    run for the cell [id] with raw text [text], has gone through the
    references [pre] and has evaluated [ref]. *)
Definition read_value (run : string -> completion) (fuel : nat) (id text : string)
    (s : sheet) (v : gset string) (pre : list string) (ref : string) : option jsval :=
  let refs := match_refs (trim text) in
  match substitute (evaluateCell run fuel) pre (slice1 (trim text))
          (foldl (add_edge id) s refs, v ∪ {[id]}) with
  | Done (_, st1) =>
      match evaluateCell run fuel ref st1 with
      | Done (s2, _) => Some (getCell s2 ref)
      | _ => None
      end
  | _ => None
  end.

(** The table after a sequence of calls on the 5 by 5 grid, with the
    reference engine. *)
Definition state_after (calls : list (string * string)) : sheet :=
  match setCells reference_engine calls grid5 with
  | Done s => s
  | _ => grid5
  end.

(** The part of a cell that evaluation reads but, once every reference is
    recorded, does not write. *)
Definition frame (c : Cell) : string * list string * list string :=
  (raw c, dependencies c, dependents c).

Definition same_frames (s t : sheet) : Prop :=
  ∀ k, frame <$> t !! k = frame <$> s !! k.

(** Every reference of every formula, except perhaps the formula of the cell
    [x], is recorded in both directions. *)
Definition linked_except (x : option string) (s : sheet) : Prop :=
  ∀ a ca r, s !! a = Some ca -> Some a ≠ x -> r ∈ formula_refs (raw ca) ->
    r ∈ dependencies ca ∧ ∀ cr, s !! r = Some cr -> a ∈ dependents cr.

Definition linked (s : sheet) : Prop := linked_except None s.

(** The edges of the formula of [id], added as lines 78 to 81 add them. *)
Definition link (id : string) (s : sheet) : sheet :=
  match s !! id with
  | Some cell => foldl (add_edge id) s (formula_refs (raw cell))
  | None => s
  end.

(** The recorded dependencies come from the formula. *)
Definition deps_sound (s : sheet) : Prop :=
  ∀ a ca r, s !! a = Some ca -> r ∈ dependencies ca -> r ∈ formula_refs (raw ca).

(** What evaluation writes of a cell. *)
Definition vals (c : Cell) : jsval * option string := (value c, error c).

(** Two runs that went from [s] to [s'] and from [t] to [t'] left the same
    edges, and every cell either with the same value and error, or as it
    was in both. *)
Definition touched_alike (s t s' t' : sheet) : Prop :=
  same_frames s' t'
  ∧ ∀ k, vals <$> s' !! k = vals <$> t' !! k
         ∨ (vals <$> s' !! k = vals <$> s !! k ∧ vals <$> t' !! k = vals <$> t !! k).

(** Two calls end the same way, and [Q] relates the tables they leave. *)
Definition sim_outcome (o1 o2 : outcome estate) (Q : sheet -> sheet -> Prop) : Prop :=
  match o1, o2 with
  | Done (s', v1), Done (t', v2) => v1 = v2 ∧ Q s' t'
  | Throws m1 (s', v1), Throws m2 (t', v2) => m1 = m2 ∧ v1 = v2 ∧ Q s' t'
  | OutOfFuel, OutOfFuel => True
  | _, _ => False
  end.

(** The expression text of a formula over the values that the cells hold
    now: every reference replaced as lines 87 to 90 replace it. *)
Definition substituted (s : sheet) (refs : list string) (body : string) : string :=
  foldl (λ e ref, replaceAll ref ("(" ++ to_text (ref_value s ref) ++ ")") e) body refs.

(** The value and error that the raw text of a cell stands for, given the
    values that the cells it refers to hold now. *)
Definition own_result (run : string -> completion) (s : sheet) (id : string) :
    option (jsval * option string) :=
  match s !! id with
  | Some cell =>
      let text := trim (raw cell) in
      if negb (startsWith "=" text) then Some (literal text, None)
      else
        let expr := substituted s (match_refs text) (slice1 text) in
        Some (if valid_expr expr then
                match run expr with
                | Normal v => (v, None)
                | Abrupt m => (VStr "#ERR", Some m)
                end
              else (VStr "#ERR", Some "Invalid formula"))
  | None => None
  end.

(** A cell holds what its raw text stands for: no stale read. *)
Definition consistent (run : string -> completion) (s : sheet) (id : string) : Prop :=
  vals <$> s !! id = own_result run s id.

(** [downstream s a c]: [c] is reached from [a] along [dependents] edges. *)
Definition downstream (s : sheet) : string -> string -> Prop :=
  rtc (λ x y, ∃ cx, s !! x = Some cx ∧ y ∈ dependents cx).

(** No cell refers to itself through a chain of formulas: [rank] falls along
    every reference. *)
Definition ranked (rank : string -> nat) (s : sheet) : Prop :=
  ∀ id cell r, s !! id = Some cell -> r ∈ formula_refs (raw cell) -> rank r < rank id.

Definition acyclic (s : sheet) : Prop := ∃ rank, ranked rank s.

(** The cells of [W] are consistent, and [W] holds every reference of its
    cells. *)
Definition settled (run : string -> completion) (s : sheet) (W : gset string) : Prop :=
  ∀ c, c ∈ W ->
    consistent run s c
    ∧ ∀ cell r, s !! c = Some cell -> r ∈ formula_refs (raw cell) -> r ∈ W.

(** What one evaluation does on a table whose references are all recorded
    and fall in rank, when the cell ranks below every cell of [visited]: it
    returns with [visited] as it was, leaves the edges, settles the cell, and
    disturbs no settled cell. *)
Definition settles (run : string -> completion) (rank : string -> nat)
    (ev : string -> estate -> outcome estate) : Prop :=
  ∀ r s v W, linked s -> ranked rank s -> settled run s W ->
    (∀ u, u ∈ v -> rank r < rank u) ->
    ∀ s' v', ev r (s, v) = Done (s', v') ->
      v' = v ∧ same_frames s s'
      ∧ ∃ W', W ⊆ W' ∧ r ∈ W' ∧ settled run s' W'
              ∧ ∀ k, k ∈ W -> vals <$> s' !! k = vals <$> s !! k.

(** Propagation has gone through the cells of [V'] that were not in [V]:
    each dependent of such a cell is in [V'] and in [W]. *)
Definition swept (s : sheet) (V V' W : gset string) : Prop :=
  ∀ a ca b, a ∈ V' -> a ∉ V -> s !! a = Some ca -> b ∈ dependents ca -> b ∈ V' ∧ b ∈ W.

(** A decision procedure for [ranked]. *)
Definition ranked_b (rank : string -> nat) (s : sheet) : bool :=
  forallb (λ entry : string * Cell,
             forallb (λ r, rank r <? rank entry.1)%nat (formula_refs (raw entry.2)))
          (map_to_list s).

(** The table on which [setCell] starts its propagation sweep, as far as
    raw texts and edges go: the cell detached and linked again. *)
Definition prepared (id text : string) (s : sheet) : sheet :=
  match s !! id with
  | Some cell => link id (detach id text cell s)
  | None => s
  end.

(** The value and the error that lines 94 to 100 leave in a cell for the
    expression text [expr]. *)
Definition result_of (run : string -> completion) (expr : string) : jsval * option string :=
  if valid_expr expr then
    match run expr with
    | Normal v => (v, None)
    | Abrupt m => (VStr "#ERR", Some m)
    end
  else (VStr "#ERR", Some "Invalid formula").

(** Every cell outside [visited] has a raw text, a value and an error that
    [G] relates. *)
Definition shaped (G : string -> jsval -> option string -> Prop) (st : estate) : Prop :=
  ∀ k c, st.1 !! k = Some c -> k ∉ st.2 -> G (raw c) (value c) (error c).

(** The number that a text of decimal digits stands for. *)
Fixpoint decimal_value (s : string) : Z :=
  match s with
  | EmptyString => 0
  | String c s' => (Z.of_N (code c) - 48) * 10 ^ Z.of_nat (String.length s') + decimal_value s'
  end.

(** The identifier of the cell in column [i], counted from 0, and row [r]. *)
Definition cell_id (i r : nat) : string :=
  String (ascii_of_nat (65 + i)) (JSNumber.digits (Z.of_nat r)).

(** The cells of [U] refer to cells of [U] only, and [rank] falls along their
    references: no chain of references that starts in [U] comes back to a
    cell it went through. *)
Definition ranked_on (U : gset string) (rank : string -> nat) (s : sheet) : Prop :=
  ∀ id cell r, id ∈ U -> s !! id = Some cell -> r ∈ formula_refs (raw cell) ->
    r ∈ U ∧ rank r < rank id.

(** What one evaluation does on a table whose references are all recorded,
    for a set [U] as above, when every cell of [U] in [visited] ranks above
    the cell: it returns with [visited] as it was, leaves the edges, settles
    the cell if it is one of [U], and disturbs no settled cell. *)
Definition settles_on (run : string -> completion) (U : gset string) (rank : string -> nat)
    (ev : string -> estate -> outcome estate) : Prop :=
  ∀ x s v W, linked s -> ranked_on U rank s -> settled run s W -> W ⊆ U ->
    (∀ u, u ∈ v -> u ∈ U -> x ∈ U ∧ rank x < rank u) ->
    ∀ s' v', ev x (s, v) = Done (s', v') ->
      v' = v ∧ same_frames s s'
      ∧ ∃ W', W ⊆ W' ∧ W' ⊆ U ∧ (x ∈ U -> x ∈ W') ∧ settled run s' W'
              ∧ ∀ k, k ∈ W -> vals <$> s' !! k = vals <$> s !! k.

(** Propagation from [id] has gone through the cells of [V'] that were not
    in [V]: they are cells of the table, their dependents are in [V'], and
    those of [U], except perhaps [id], are in [W]. *)
Definition swept_on (U : gset string) (s : sheet) (V V' W : gset string) (id : option string) :
    Prop :=
  ∀ a, a ∈ V' -> a ∉ V ->
    is_Some (s !! a)
    ∧ (Some a ≠ id -> a ∈ U -> a ∈ W)
    ∧ ∀ ca b, s !! a = Some ca -> b ∈ dependents ca -> b ∈ V'.

(** The names of the cells of a table and of the references in their
    formulas. *)
Definition names (s : sheet) : gset string :=
  list_to_set (map_to_list s ≫= λ entry, entry.1 :: formula_refs (raw entry.2)).

(** A decision procedure for [ranked_on]. *)
Definition ranked_on_b (U : gset string) (rank : string -> nat) (s : sheet) : bool :=
  forallb (λ entry : string * Cell,
             negb (bool_decide (entry.1 ∈ U))
             || forallb (λ r, bool_decide (r ∈ U) && (rank r <? rank entry.1)%nat)
                  (formula_refs (raw entry.2)))
          (map_to_list s).

(** ** The page

    The part of the document that the glue code of lines 116 to 176 reads
    and writes: the elements that [document.getElementById] finds, by
    identifier, each with the strings last assigned to its [value], its
    [title] and its [style.background]; and the identifier of
    [document.activeElement], when that element has one. *)
Record Input := mkInput {
  input_value : string;
  input_title : string;
  input_background : string
}.

Definition set_input_value (t : string) (i : Input) : Input :=
  mkInput t (input_title i) (input_background i).
Definition set_input_title (t : string) (i : Input) : Input :=
  mkInput (input_value i) t (input_background i).
Definition set_input_background (t : string) (i : Input) : Input :=
  mkInput (input_value i) (input_title i) t.

Record Document := mkDocument {
  elements : gmap string Input;
  activeElement : option string
}.

Definition COLS : nat := 5.
Definition ROWS : nat := 5.

(** The [value] and [error] properties of [spreadsheet.cells[cellId]]: those
    of the cell; [undefined] and nothing true on an inherited object; and no
    object to read from otherwise. *)
Definition cell_fields (s : sheet) (cellId : string) : option (jsval * option string) :=
  match lookup_slot s cellId with
  | Own c => Some (value c, error c)
  | Inherited => Some (VUndef, None)
  | Absent => None
  end.

(** Whether [cell.error] counts as true: it is a string that is not empty. *)
Definition truthy (e : option string) : bool :=
  match e with
  | Some (String _ _) => true
  | _ => false
  end.

(** The string that line 126 assigns to [input.value]:
    [cell.error ? cell.value : cell.value ?? '']. *)
Definition display (v : jsval) (e : option string) : string :=
  if truthy e then to_text v
  else match v with
       | VUndef => ""
       | _ => to_text v
       end.

(** Lines 125 to 134 on an input that exists, for a cell with the fields
    [v] and [e]. *)
Definition paint (v : jsval) (e : option string) (focused : bool) (input : Input) : Input :=
  let input := if focused then input else set_input_value (display v e) input in
  match e with
  | Some (String a m) => set_input_background "#ffe6e6" (set_input_title (String a m) input)
  | _ => set_input_background "" (set_input_title "" input)
  end.

(** [updateUI(cellId)] *)
Definition updateUI (s : sheet) (cellId : string) (d : Document) : outcome Document :=
  match elements d !! cellId with
  | None => Done d
  | Some input =>
      match cell_fields s cellId with
      | None => Throws "Cannot read properties of undefined (reading 'error')" d
      | Some (v, e) =>
          let focused := bool_decide (activeElement d = Some cellId) in
          Done (mkDocument (<[cellId := paint v e focused input]> (elements d))
                  (activeElement d))
      end
  end.

(** [updateAllUI()]: the two loops of lines 138 to 142; the first call that
    throws ends them. *)
Definition updateAllUI (s : sheet) (d : Document) : outcome Document :=
  foldl (λ o cellId,
           match o with
           | Done d => updateUI s cellId d
           | other => other
           end) (Done d) (cell_ids COLS ROWS).

(** [window.setCell(id, val)] on the table and the document. *)
Definition window_setCell (run : string -> completion) (efuel fuel : nat)
    (id val : string) (p : sheet * Document) : outcome (sheet * Document) :=
  match setCell run efuel fuel id val p.1 with
  | Done s =>
      match updateAllUI s p.2 with
      | Done d => Done (s, d)
      | Throws m d => Throws m (s, d)
      | OutOfFuel => OutOfFuel
      end
  | Throws m s => Throws m (s, p.2)
  | OutOfFuel => OutOfFuel
  end.

(** What [updateUI] makes of the input of [k], when the table has a cell or
    an inherited object under [k]. *)
Definition repaint (s : sheet) (active : option string) (k : string) (input : Input) : Input :=
  match cell_fields s k with
  | Some (v, e) => paint v e (bool_decide (active = Some k)) input
  | None => input
  end.

(** * Theorems *)

#[local] Arguments startsWith : simpl never.
#[local] Arguments trim : simpl never.
#[local] Arguments match_refs : simpl never.
#[local] Arguments slice1 : simpl never.
#[local] Arguments replaceAll : simpl never.
#[local] Arguments valid_expr : simpl never.
#[local] Arguments literal : simpl never.
#[local] Arguments ref_value : simpl never.
#[local] Arguments to_text : simpl never.
#[local] Arguments store : simpl never.
#[local] Arguments add_edge : simpl never.

(** ** The engine only matters through its results *)

Section Ext.
Variables run1 run2 : string -> completion.
Hypothesis same : ∀ e, run1 e = run2 e.

Lemma substitute_ext (ev1 ev2 : string -> estate -> outcome estate) refs :
  (∀ r st, ev1 r st = ev2 r st) ->
  ∀ expr st, substitute ev1 refs expr st = substitute ev2 refs expr st.
Proof.
  intros Hev. induction refs as [|ref refs IH]; intros expr st; simpl; [done|].
  rewrite Hev. destruct (ev2 ref st) as [[s v]|m st'|]; auto.
Qed.

Lemma evaluateCell_ext fuel :
  ∀ id st, evaluateCell run1 fuel id st = evaluateCell run2 fuel id st.
Proof.
  induction fuel as [|fuel IH]; intros id [s v]; simpl; [done|].
  destruct (lookup_slot s id); try done.
  destruct (decide (id ∈ v)); [done|].
  destruct (negb _); [done|].
  rewrite (substitute_ext _ _ _ IH).
  destruct (substitute _ _ _ _) as [[expr [s' v']]|m [expr [s' v']]|]; try done.
  rewrite same. done.
Qed.

Lemma updateDependents_ext efuel fuel :
  (∀ id st, updateDependents run1 efuel fuel id st = updateDependents run2 efuel fuel id st)
  ∧ (∀ id i st, upd_loop run1 efuel fuel id i st = upd_loop run2 efuel fuel id i st).
Proof.
  induction fuel as [|fuel [IH1 IH2]]; split; intros; simpl; try done.
  - destruct st as [s v]. destruct (decide (id ∈ v)); [done|].
    destruct (lookup_slot s id); auto.
  - destruct st as [s v]. destruct (s !! id ≫= _); [|done].
    rewrite evaluateCell_ext. destruct (evaluateCell run2 efuel s0 (s, ∅)) as [[s' v']|m [s' v']|]; try done.
    rewrite IH1. destruct (updateDependents run2 efuel fuel s0 (s', v)); auto.
Qed.

Lemma setCell_ext efuel fuel id raw s :
  setCell run1 efuel fuel id raw s = setCell run2 efuel fuel id raw s.
Proof.
  unfold setCell. destruct (lookup_slot s id); try done.
  rewrite evaluateCell_ext.
  destruct (evaluateCell run2 _ _ _) as [[s' v']|m [s' v']|]; try done.
  rewrite (proj1 (updateDependents_ext efuel fuel)). done.
Qed.

Lemma setCells_ext calls s : setCells run1 calls s = setCells run2 calls s.
Proof.
  unfold setCells. generalize (Done s). induction calls as [|c calls IH]; intros o; simpl; [done|].
  destruct o; rewrite ?setCell_ext; apply IH.
Qed.
End Ext.

Lemma computed_same run : arithmetic_engine run -> ∀ e, run e = computed run e.
Proof.
  intros H e. unfold computed. destruct (Arith.js_arith e) eqn:E; [apply H, E|done].
Qed.

Lemma reference_engine_arithmetic : arithmetic_engine reference_engine.
Proof. intros e x H. unfold reference_engine. rewrite H. done. Qed.

(** ** Runs on the 5 by 5 grid *)

Lemma observe_Done o ids l :
  observe o ids = Some l -> ∃ s, o = Done s ∧ shown s <$> ids = l.
Proof. destruct o as [s| |]; simpl; intros [= <-]; eauto. Qed.

Ltac run_calls H :=
  rewrite (setCells_ext _ _ (computed_same _ H));
  apply observe_Done; vm_compute; reflexivity.

(** C1 (the code against the claim): after [A1 = "=B1"] and then
    [B1 = "=A1"] both calls return, and both cells hold the number 0 with no
    error message: the sentinel that the inner call stores is overwritten
    when the outer calls finish. *)
Theorem cycle_sentinel_overwritten run :
  arithmetic_engine run ->
  ∃ s, setCells run [("A1", "=B1"); ("B1", "=A1")] grid5 = Done s
       ∧ shown s <$> ["A1"; "B1"] = [(VNum 0, Some None); (VNum 0, Some None)].
Proof. intros H. run_calls H. Qed.

Lemma cycle_sentinel_overwritten_witness :
  ∃ s, setCells reference_engine [("A1", "=B1"); ("B1", "=A1")] grid5 = Done s
       ∧ shown s <$> ["A1"; "B1"] = [(VNum 0, Some None); (VNum 0, Some None)].
Proof. exact (cycle_sentinel_overwritten _ reference_engine_arithmetic). Defined.

(** ** What a call can change *)

Lemma set_add_elem x y l : y ∈ set_add x l <-> y = x ∨ y ∈ l.
Proof.
  unfold set_add. destruct (decide (x ∈ l)).
  - split; [auto|]. intros [->|]; auto.
  - rewrite elem_of_app, list_elem_of_singleton. tauto.
Qed.

Lemma set_add_NoDup x l : NoDup l -> NoDup (set_add x l).
Proof.
  unfold set_add. destruct (decide (x ∈ l)); [done|]. intros H.
  apply NoDup_app. split; [done|]. split; [|apply NoDup_singleton].
  intros y Hy Hx. apply list_elem_of_singleton in Hx. congruence.
Qed.

Lemma set_add_present x l : x ∈ l -> set_add x l = l.
Proof. unfold set_add. intros H. by rewrite decide_True. Qed.

Lemma set_delete_elem x y l : y ∈ set_delete x l <-> y ≠ x ∧ y ∈ l.
Proof. unfold set_delete. by rewrite list_elem_of_filter. Qed.

Lemma add_edge_lookup id s ref k :
  add_edge id s ref !! k =
    (λ c, (if decide (k = ref) then set_dependents (set_add id (dependents c)) else λ c, c)
            ((if decide (k = id) then set_dependencies (set_add ref (dependencies c)) else λ c, c) c))
    <$> s !! k.
Proof.
  unfold add_edge.
  destruct (decide (k = ref)) as [Hr|Hr], (decide (k = id)) as [Hi|Hi]; subst;
    rewrite ?lookup_alter_eq, ?lookup_alter_ne by done;
    rewrite ?lookup_alter_eq, ?lookup_alter_ne by done;
    destruct (s !! _); done.
Qed.

Lemma add_edge_raw id s ref k : raw <$> add_edge id s ref !! k = raw <$> s !! k.
Proof.
  rewrite add_edge_lookup. destruct (s !! k) as [c|]; [|done]. simpl.
  by destruct (decide (k = ref)), (decide (k = id)).
Qed.

Lemma store_lookup id v e s k :
  store id v e s !! k =
    (λ c, if decide (k = id) then set_error e (set_value v c) else c) <$> s !! k.
Proof.
  unfold store. destruct (decide (k = id)) as [->|].
  - by rewrite lookup_alter_eq.
  - rewrite lookup_alter_ne by done. by destruct (s !! k).
Qed.

Section Preservation.
Variable run : string -> completion.

(** A property of the table that the two kinds of writes keep is kept by
    every call that returns or throws. *)
Variable P : sheet -> Prop.
Hypothesis P_store : ∀ s id v e, P s -> P (store id v e s).
Hypothesis P_edge : ∀ s id ref cell,
  s !! id = Some cell -> ref ∈ formula_refs (raw cell) -> P s -> P (add_edge id s ref).

Lemma foldl_add_edge_keeps id text refs s :
  (∀ r, r ∈ refs -> r ∈ formula_refs text) ->
  raw <$> s !! id = Some text -> P s -> P (foldl (add_edge id) s refs).
Proof.
  revert s. induction refs as [|ref refs IH]; intros s Hin Hid Hs; simpl; [done|].
  destruct (s !! id) as [cell|] eqn:E; [|done]. injection Hid as <-.
  apply IH.
  - intros r Hr. apply Hin. by right.
  - by rewrite add_edge_raw, E.
  - apply (P_edge _ _ _ cell); auto. apply Hin. by left.
Qed.

Lemma substitute_keeps (ev : string -> estate -> outcome estate) refs :
  (∀ r st s', P st.1 -> table_of (ev r st) = Some s' -> P s') ->
  ∀ expr st, P st.1 ->
    match substitute ev refs expr st with
    | Done (_, (s', _)) | Throws _ (_, (s', _)) => P s'
    | OutOfFuel => True
    end.
Proof.
  intros Hev. induction refs as [|ref refs IH]; intros expr [s v] Hs; simpl; [done|].
  specialize (Hev ref (s, v)).
  destruct (ev ref (s, v)) as [[s1 v1]|m [s1 v1]|]; simpl in *; auto.
  apply IH. simpl. eauto.
Qed.

Lemma evaluateCell_keeps fuel :
  ∀ id st s', P st.1 -> table_of (evaluateCell run fuel id st) = Some s' -> P s'.
Proof.
  induction fuel as [|fuel IH]; intros id [s v] s' Hs; simpl; [done|].
  unfold lookup_slot. destruct (s !! id) as [cell|] eqn:Hid.
  - destruct (decide (id ∈ v)); simpl; [intros [= <-]; auto|].
    destruct (startsWith "=" (trim (raw cell))) eqn:F; simpl; [|intros [= <-]; auto].
    assert (HP : P (foldl (add_edge id) s (match_refs (trim (raw cell))))).
    { apply (foldl_add_edge_keeps id (raw cell)); [|by rewrite Hid|done].
      intros r Hr. unfold formula_refs, is_formula. by rewrite F. }
    pose proof (substitute_keeps _ (match_refs (trim (raw cell))) IH
                  (slice1 (trim (raw cell))) (foldl (add_edge id) s (match_refs (trim (raw cell))), v ∪ {[id]}) HP) as H.
    destruct (substitute _ _ _ _) as [[expr [s1 v1]]|m [expr [s1 v1]]|]; simpl; try done.
    + intros [= <-]. destruct (valid_expr expr); [destruct (run expr)|]; auto.
    + intros [= <-]. auto.
  - destruct (bool_decide _); [destruct (decide _)|]; simpl; intros [= <-]; done.
Qed.

Lemma updateDependents_keeps efuel fuel :
  (∀ id st, P st.1 ->
     match updateDependents run efuel fuel id st with
     | Done (s', _) | Throws _ (s', _) => P s'
     | OutOfFuel => True
     end)
  ∧ (∀ id i st, P st.1 ->
     match upd_loop run efuel fuel id i st with
     | Done (s', _) | Throws _ (s', _) => P s'
     | OutOfFuel => True
     end).
Proof.
  induction fuel as [|fuel [IH1 IH2]]; split; intros; simpl; try done.
  - destruct st as [s v]. destruct (decide (id ∈ v)); [done|].
    destruct (lookup_slot s id); try done. by apply IH2.
  - destruct st as [s v]. destruct (s !! id ≫= _) as [dep|]; [|done].
    pose proof (evaluateCell_keeps efuel dep (s, ∅)) as He.
    destruct (evaluateCell run efuel dep (s, ∅)) as [[s1 v1]|m [s1 v1]|]; simpl in *; auto.
    specialize (IH1 dep (s1, v)).
    destruct (updateDependents run efuel fuel dep (s1, v)) as [[s2 v2]|m [s2 v2]|]; auto.
    apply IH2. simpl. auto.
Qed.
End Preservation.

(** ** The constructed grid and the first lines of [setCell] *)

Lemma Spreadsheet_lookup cols rows k c :
  Spreadsheet cols rows !! k = Some c -> c = new_Cell.
Proof.
  unfold Spreadsheet. intros H. apply elem_of_list_to_map_2 in H.
  apply list_elem_of_fmap in H as (id & [= -> ->] & _). done.
Qed.

Lemma detach_fold_lookup (id : string) (deps : list string) (s : sheet) (k : string) :
  foldl (λ s dep, alter (λ c, set_dependents (set_delete id (dependents c)) c) dep s) s deps !! k
  = (λ c, if decide (k ∈ deps) then set_dependents (set_delete id (dependents c)) c else c)
      <$> s !! k.
Proof.
  revert s. induction deps as [|d deps IH]; intros s; simpl.
  - destruct (s !! k) as [[]|]; done.
  - rewrite IH. destruct (decide (k = d)) as [->|Hd].
    + rewrite lookup_alter_eq. destruct (s !! d) as [c|]; [|done]. simpl. f_equal.
      rewrite (decide_True (P := d ∈ d :: deps)) by left.
      destruct (decide (d ∈ deps)); [|done].
      destruct c; unfold set_dependents, set_delete; simpl. f_equal.
      rewrite list_filter_filter. apply list_filter_iff. tauto.
    + rewrite lookup_alter_ne by done. destruct (s !! k) as [c|]; [|done]. simpl. f_equal.
      destruct (decide (k ∈ deps)) as [Hk|Hk].
      * rewrite decide_True; [done|by right].
      * rewrite decide_False; [done|]. intros [?|?]%elem_of_cons; done.
Qed.

Lemma detach_lookup (id text : string) (cell : Cell) (s : sheet) (k : string) :
  s !! id = Some cell ->
  detach id text cell s !! k =
    (λ c, (if decide (k = id) then λ c, set_dependencies [] (set_error None (set_raw text c)) else λ c, c)
            ((if decide (k ∈ dependencies cell)
              then set_dependents (set_delete id (dependents c)) else λ c, c) c))
    <$> s !! k.
Proof.
  intros Hid. unfold detach. destruct (decide (k = id)) as [->|Hk].
  - rewrite lookup_alter_eq, detach_fold_lookup, lookup_alter_eq, Hid. simpl. f_equal.
    destruct (decide _); destruct cell; done.
  - rewrite lookup_alter_ne, detach_fold_lookup, lookup_alter_ne by done.
    destruct (s !! k) as [c|]; [|done]. simpl. by destruct (decide _).
Qed.

(** ** C3: the mutual-edge invariant *)

Lemma edges_mutual_new cols rows : edges_mutual (Spreadsheet cols rows).
Proof.
  intros a b ca cb Ha Hb.
  apply Spreadsheet_lookup in Ha as ->. apply Spreadsheet_lookup in Hb as ->.
  simpl. rewrite !elem_of_nil. done.
Qed.

Lemma edges_mutual_store s id v e : edges_mutual s -> edges_mutual (store id v e s).
Proof.
  intros H a b ca cb. rewrite !store_lookup.
  destruct (s !! a) as [ca'|] eqn:Ea, (s !! b) as [cb'|] eqn:Eb; simpl; try done.
  intros [= <-] [= <-]. specialize (H a b ca' cb' Ea Eb).
  by destruct (decide (a = id)), (decide (b = id)).
Qed.

Lemma edges_mutual_add_edge s id ref :
  is_Some (s !! id) -> edges_mutual s -> edges_mutual (add_edge id s ref).
Proof.
  intros [cid Hid] H a b ca cb. rewrite !add_edge_lookup.
  destruct (s !! a) as [ca'|] eqn:Ea, (s !! b) as [cb'|] eqn:Eb; simpl; try done.
  intros [= <-] [= <-]. specialize (H a b ca' cb' Ea Eb).
  destruct (decide (a = ref)), (decide (a = id)), (decide (b = ref)), (decide (b = id));
    subst; simpl; rewrite ?set_add_elem; intuition congruence.
Qed.

Lemma edges_mutual_detach s id text cell :
  s !! id = Some cell -> edges_mutual s -> edges_mutual (detach id text cell s).
Proof.
  intros Hid H a b ca cb. rewrite !(detach_lookup _ _ _ _ _ Hid).
  destruct (s !! a) as [ca'|] eqn:Ea, (s !! b) as [cb'|] eqn:Eb; simpl; try done.
  intros [= <-] [= <-].
  pose proof (H a b ca' cb' Ea Eb) as Hab.
  pose proof (H id b cell cb' Hid Eb) as Hib.
  destruct (decide (a ∈ dependencies cell)), (decide (b ∈ dependencies cell));
    destruct (decide (a = id)) as [Ha|Ha], (decide (b = id)) as [Hb|Hb]; subst; simpl;
    rewrite ?set_delete_elem, ?elem_of_nil; try (intuition congruence).
  all: assert (cell = ca') as -> by congruence; intuition congruence.
Qed.

Lemma edges_mutual_setCell run efuel fuel id text s s' :
  edges_mutual s -> setCell run efuel fuel id text s = Done s' -> edges_mutual s'.
Proof.
  intros H. unfold setCell, lookup_slot.
  destruct (s !! id) as [cell|] eqn:Hid;
    [|destruct (bool_decide _); [done|by intros [= <-]]].
  pose proof (edges_mutual_detach s id text cell Hid H) as H1.
  pose proof (evaluateCell_keeps run edges_mutual edges_mutual_store) as He.
  specialize (He (λ s id ref cell Hc _, edges_mutual_add_edge s id ref (mk_is_Some _ _ Hc))).
  specialize (He efuel id (detach id text cell s, ∅)).
  destruct (evaluateCell run efuel id _) as [[s1 v1]|m [s1 v1]|]; try done.
  specialize (He s1 H1 eq_refl).
  pose proof (updateDependents_keeps run edges_mutual edges_mutual_store) as Hu.
  specialize (Hu (λ s id ref cell Hc _, edges_mutual_add_edge s id ref (mk_is_Some _ _ Hc))).
  destruct (Hu efuel fuel) as [Hu1 _]. specialize (Hu1 id (s1, ∅) He).
  destruct (updateDependents run efuel fuel id (s1, ∅)) as [[s2 v2]|m [s2 v2]|]; try done.
  by intros [= <-].
Qed.

Lemma setCells_reachable run calls :
  ∀ s s', reachable run s -> setCells run calls s = Done s' -> reachable run s'.
Proof.
  unfold setCells.
  induction calls as [|[id text] calls IH] using rev_ind; intros s s' Hs; simpl.
  - by intros [= <-].
  - rewrite foldl_app. simpl.
    destruct (foldl _ (Done s) calls) as [s1| |] eqn:E; try done.
    intros H. eapply reachable_set; [|exact H]. eapply IH; eauto.
Qed.

(** C3: in every state of a grid, that is, after its construction and after
    every [setCell] call that has run to completion, a cell [b] is in the
    [dependencies] of a cell [a] exactly when [a] is in the [dependents] of
    [b]. *)
Theorem mutual_edges_invariant run s :
  reachable run s ->
  ∀ a b ca cb, s !! a = Some ca -> s !! b = Some cb ->
    (b ∈ dependencies ca <-> a ∈ dependents cb).
Proof.
  intros H. change (edges_mutual s). induction H as [cols rows|s efuel fuel id text s' _ IH Hset].
  - apply edges_mutual_new.
  - eapply edges_mutual_setCell; eauto.
Qed.

Ltac after_calls run calls s E :=
  let H := fresh in
  assert (H : observe (setCells run calls grid5) [] = Some []) by (vm_compute; reflexivity);
  destruct (observe_Done _ _ _ H) as (s & E & _); clear H.

Lemma mutual_edges_invariant_witness :
  ∃ s, setCells reference_engine
         [("A1", "5"); ("C1", "=A1*B1+2"); ("C1", "=B1"); ("B1", "=C1+A1")] grid5 = Done s
       ∧ ∀ a b ca cb, s !! a = Some ca -> s !! b = Some cb ->
           (b ∈ dependencies ca <-> a ∈ dependents cb).
Proof.
  after_calls reference_engine
    [("A1", "5"); ("C1", "=A1*B1+2"); ("C1", "=B1"); ("B1", "=C1+A1")] s E.
  exists s. split; [done|].
  apply (mutual_edges_invariant reference_engine).
  apply (setCells_reachable _ _ grid5 s (reachable_new _ 5 5) E).
Defined.

(** ** References *)

Lemma match_refs_go_is_ref k text r : r ∈ match_refs_go k text -> is_ref r.
Proof.
  revert k. induction text as [|a text IH]; intros k; simpl; [by rewrite elem_of_nil|].
  destruct k; [apply IH|].
  destruct text as [|b text]; [by rewrite elem_of_nil|].
  destruct (is_col_letter a && is_row_digit b) eqn:E; [|apply IH].
  intros [->|H]%elem_of_cons; [|by eapply IH].
  apply andb_true_iff in E as [? ?]. by exists a, b.
Qed.

Lemma match_refs_is_ref text r : r ∈ match_refs text -> is_ref r.
Proof. apply match_refs_go_is_ref. Qed.

Lemma formula_refs_is_ref text r : r ∈ formula_refs text -> is_ref r.
Proof.
  unfold formula_refs. destruct (is_formula text); [apply match_refs_is_ref|by rewrite elem_of_nil].
Qed.

Lemma is_ref_not_inherited r : is_ref r -> r ∉ inherited_names.
Proof.
  intros (a & b & -> & _). unfold inherited_names.
  repeat (apply not_elem_of_cons; split; [discriminate|]). apply not_elem_of_nil.
Qed.

Lemma lookup_slot_ref s r : is_ref r -> lookup_slot s r ≠ Inherited.
Proof.
  intros H. unfold lookup_slot. destruct (s !! r); [done|].
  rewrite bool_decide_eq_false_2; [done|by apply is_ref_not_inherited].
Qed.

Lemma lookup_slot_Own s id c : lookup_slot s id = Own c <-> s !! id = Some c.
Proof.
  unfold lookup_slot. destruct (s !! id); [|destruct (bool_decide _)]; split; congruence.
Qed.

(** ** The domain of the table never changes *)

Lemma dom_store id v e (s : sheet) : dom (store id v e s) = dom s.
Proof. unfold store. apply dom_alter_L. Qed.

Lemma dom_add_edge id (s : sheet) ref : dom (add_edge id s ref) = dom s.
Proof. unfold add_edge. by rewrite !dom_alter_L. Qed.

Lemma dom_detach_fold (id : string) (l : list string) (t : sheet) :
  dom (foldl (λ s dep, alter (λ c, set_dependents (set_delete id (dependents c)) c) dep s) t l)
  = dom t.
Proof.
  revert t. induction l as [|d l IH]; intros t; simpl; [done|].
  rewrite IH. apply dom_alter_L.
Qed.

Lemma dom_detach id text cell (s : sheet) : dom (detach id text cell s) = dom s.
Proof. unfold detach. by rewrite dom_alter_L, dom_detach_fold, dom_alter_L. Qed.

Lemma evaluateCell_dom run fuel id st s' :
  table_of (evaluateCell run fuel id st) = Some s' -> dom s' = dom st.1.
Proof.
  apply (evaluateCell_keeps run (λ t, dom t = dom st.1)); [| |done].
  - intros. by rewrite dom_store.
  - intros. by rewrite dom_add_edge.
Qed.

(** ** [_evaluateCell] returns *)

Lemma substitute_total (ev : string -> estate -> outcome estate) refs (D w : gset string) :
  (∀ r s, r ∈ refs -> dom s = D -> ∃ s', ev r (s, w) = Done (s', w) ∧ dom s' = D) ->
  ∀ expr s, dom s = D ->
    ∃ expr' s', substitute ev refs expr (s, w) = Done (expr', (s', w)) ∧ dom s' = D.
Proof.
  induction refs as [|ref refs IH]; intros Hev expr s Hs; simpl; [eauto|].
  destruct (Hev ref s) as (s1 & -> & H1); [by left|done|].
  apply IH; [|done]. intros r s2 Hr. apply Hev. by right.
Qed.

Lemma add_remove_visited (v : gset string) id : id ∉ v -> (v ∪ {[id]}) ∖ {[id]} = v.
Proof. set_solver. Qed.

Lemma dom_foldl_add_edge id refs (s : sheet) : dom (foldl (add_edge id) s refs) = dom s.
Proof.
  revert s. induction refs as [|r refs IH]; intros s; simpl; [done|].
  by rewrite IH, dom_add_edge.
Qed.

(** With more fuel than the table has cells outside [visited], a call on
    a cell, or on a name that is not inherited, returns, and [visited] is
    then what it was. *)
Lemma evaluateCell_total run fuel :
  ∀ id s v, lookup_slot s id ≠ Inherited -> size (dom s ∖ v) < fuel ->
    ∃ s', evaluateCell run fuel id (s, v) = Done (s', v) ∧ dom s' = dom s.
Proof.
  induction fuel as [|fuel IH]; intros id s v Hslot Hsize; [lia|]. simpl.
  destruct (lookup_slot s id) as [cell| |] eqn:Hid; [|done|eauto].
  apply lookup_slot_Own in Hid.
  destruct (decide (id ∈ v)) as [Hv|Hv]; [eexists; split; [done|apply dom_store]|].
  destruct (startsWith "=" (trim (raw cell))) eqn:F; simpl.
  2:{ rewrite add_remove_visited by done. eexists; split; [done|apply dom_store]. }
  destruct (substitute_total (evaluateCell run fuel) (match_refs (trim (raw cell)))
              (dom s) (v ∪ {[id]})) with (expr := slice1 (trim (raw cell)))
              (s := foldl (add_edge id) s (match_refs (trim (raw cell))))
    as (expr & s1 & -> & Hd).
  - intros r t Hr Ht. destruct (IH r t (v ∪ {[id]})) as (t' & ? & ?).
    + apply lookup_slot_ref. by eapply match_refs_is_ref.
    + rewrite Ht. assert (dom s ∖ (v ∪ {[id]}) ⊂ dom s ∖ v) as Hsub.
      { apply elem_of_dom_2 in Hid. set_solver. }
      apply subset_size in Hsub. lia.
    + exists t'. split; [done|congruence].
  - apply dom_foldl_add_edge.
  - rewrite add_remove_visited by done.
    eexists; split; [done|].
    destruct (valid_expr expr); [destruct (run expr)|]; by rewrite dom_store.
Qed.

(** ** The [dependents] sets stay duplicate-free and inside the table *)

Lemma dependents_ok_new cols rows : dependents_ok (Spreadsheet cols rows).
Proof.
  intros b cb ->%Spreadsheet_lookup. simpl. split; [constructor|].
  intros a. by rewrite elem_of_nil.
Qed.

Lemma dependents_ok_store s id v e : dependents_ok s -> dependents_ok (store id v e s).
Proof.
  intros H b cb. rewrite store_lookup.
  destruct (s !! b) as [cb'|] eqn:Eb; simpl; [|done]. intros [= <-].
  destruct (H b cb' Eb) as [Hn Hl]. split.
  - by destruct (decide (b = id)).
  - intros a Ha. rewrite store_lookup, fmap_is_Some. apply Hl.
    by destruct (decide (b = id)).
Qed.

Lemma dependents_ok_add_edge s id ref :
  is_Some (s !! id) -> dependents_ok s -> dependents_ok (add_edge id s ref).
Proof.
  intros Hid H b cb. rewrite add_edge_lookup.
  destruct (s !! b) as [cb'|] eqn:Eb; simpl; [|done]. intros [= <-].
  destruct (H b cb' Eb) as [Hn Hl].
  assert (∀ a, is_Some (add_edge id s ref !! a) <-> is_Some (s !! a)) as Hs.
  { intros a. by rewrite add_edge_lookup, fmap_is_Some. }
  destruct (decide (b = ref)), (decide (b = id)); simpl; split;
    auto using set_add_NoDup; intros a; rewrite ?set_add_elem, Hs;
    try (intros [->|?]); auto.
Qed.

Lemma dependents_ok_detach s id text cell :
  s !! id = Some cell -> dependents_ok s -> dependents_ok (detach id text cell s).
Proof.
  intros Hid H b cb. rewrite (detach_lookup _ _ _ _ _ Hid).
  destruct (s !! b) as [cb'|] eqn:Eb; simpl; [|done]. intros [= <-].
  destruct (H b cb' Eb) as [Hn Hl].
  assert (∀ a, is_Some (detach id text cell s !! a) <-> is_Some (s !! a)) as Hs.
  { intros a. by rewrite (detach_lookup _ _ _ _ _ Hid), fmap_is_Some. }
  destruct (decide (b ∈ dependencies cell)), (decide (b = id)); simpl; split;
    try done; try (by apply NoDup_filter);
    intros a; rewrite ?set_delete_elem, Hs; try (intros [_ ?]); auto.
Qed.

Lemma dependents_length (s : sheet) (b : string) cb :
  dependents_ok s -> s !! b = Some cb -> (length (dependents cb) <= size (dom s))%nat.
Proof.
  intros H Hb. destruct (H b cb Hb) as [Hn Hl].
  rewrite <- (size_list_to_set (C := gset string)) by done.
  apply subseteq_size. intros a Ha. apply elem_of_list_to_set in Ha.
  apply elem_of_dom. auto.
Qed.

Lemma evaluateCell_dependents_ok run fuel id st s' :
  dependents_ok st.1 -> table_of (evaluateCell run fuel id st) = Some s' -> dependents_ok s'.
Proof.
  apply (evaluateCell_keeps run dependents_ok dependents_ok_store).
  intros s i ref cell Hc _. apply dependents_ok_add_edge. by rewrite Hc.
Qed.

(** ** [_updateDependents] returns *)

Lemma size_unvisited_mono (D v v' : gset string) :
  v ⊆ v' -> (size (D ∖ v') <= size (D ∖ v))%nat.
Proof. intros H. apply subseteq_size. set_solver. Qed.

Lemma size_unvisited_add (D v : gset string) id :
  id ∈ D -> id ∉ v -> (S (size (D ∖ (v ∪ {[id]}))) <= size (D ∖ v))%nat.
Proof.
  intros HD Hv. assert (D ∖ (v ∪ {[id]}) ⊂ D ∖ v) as H by set_solver.
  apply subset_size in H. lia.
Qed.

Lemma updateDependents_total run efuel fuel :
  (∀ id s v, dependents_ok s -> is_Some (s !! id) ∨ id ∈ v ->
     size (dom s) < efuel ->
     ((size (dom s) + 2) * size (dom s ∖ v) + 1 <= fuel)%nat ->
     ∃ s' v', updateDependents run efuel fuel id (s, v) = Done (s', v')
              ∧ v ⊆ v' ∧ dom s' = dom s ∧ dependents_ok s')
  ∧ (∀ id i s v, dependents_ok s -> is_Some (s !! id) ->
     size (dom s) < efuel -> (i <= size (dom s))%nat ->
     ((size (dom s) + 2) * size (dom s ∖ v) + (size (dom s) - i) + 1 <= fuel)%nat ->
     ∃ s' v', upd_loop run efuel fuel id i (s, v) = Done (s', v')
              ∧ v ⊆ v' ∧ dom s' = dom s ∧ dependents_ok s').
Proof.
  induction fuel as [|fuel [IHu IHl]]; split; intros; try lia; simpl.
  - destruct (decide (id ∈ v)) as [Hv|Hv]; [by exists s, v|].
    destruct H0 as [[c Hc]|]; [|done].
    rewrite (proj2 (lookup_slot_Own s id c) Hc).
    pose proof (size_unvisited_add (dom s) v id (elem_of_dom_2 _ _ _ Hc) Hv).
    destruct (IHl id 0 s (v ∪ {[id]})) as (s' & v' & -> & Hsub & ? & ?); auto; [lia|nia|].
    exists s', v'. split; [done|]. split; [set_solver|done].
  - destruct H0 as [c Hc]. rewrite Hc. simpl.
    destruct (dependents c !! i) as [dep|] eqn:Hi; [|by exists s, v].
    pose proof (dependents_length s id c H Hc).
    apply lookup_lt_Some in Hi as Hlt.
    destruct (H id c Hc) as [_ Hlive].
    pose proof (Hlive dep (list_elem_of_lookup_2 _ _ _ Hi)) as [cd Hd].
    destruct (evaluateCell_total run efuel dep s ∅) as (s1 & He & Hd1).
    { by rewrite (proj2 (lookup_slot_Own s dep cd) Hd). }
    { rewrite difference_empty_L. done. }
    rewrite He.
    assert (dependents_ok s1) as Hok1.
    { eapply (evaluateCell_dependents_ok run efuel dep (s, ∅)); [done|by rewrite He]. }
    destruct (IHu dep s1 v) as (s2 & v2 & -> & Hsub & Hd2 & Hok2); auto.
    { left. apply elem_of_dom. rewrite Hd1. by apply elem_of_dom. }
    { by rewrite Hd1. }
    { rewrite Hd1. nia. }
    destruct (IHl id (S i) s2 v2) as (s3 & v3 & -> & Hsub3 & Hd3 & Hok3); auto.
    { apply elem_of_dom. rewrite Hd2, Hd1. by apply elem_of_dom. }
    { by rewrite Hd2, Hd1. }
    { rewrite Hd2, Hd1. lia. }
    { rewrite Hd2, Hd1. pose proof (size_unvisited_mono (dom s) v v2 Hsub). nia. }
    exists s3, v3. split; [done|]. split; [set_solver|]. split; [congruence|done].
Qed.

(** ** [setCell] returns *)

Lemma setCell_total run efuel fuel id text s :
  dependents_ok s -> lookup_slot s id ≠ Inherited ->
  size (dom s) < efuel -> (fuel_for (size (dom s)) <= fuel)%nat ->
  ∃ s', setCell run efuel fuel id text s = Done s' ∧ dom s' = dom s ∧ dependents_ok s'.
Proof.
  intros Hok Hslot He Hf. unfold setCell.
  destruct (lookup_slot s id) as [cell| |] eqn:Hid; [|done|by exists s].
  apply lookup_slot_Own in Hid.
  pose proof (dependents_ok_detach s id text cell Hid Hok) as Hok0.
  pose proof (dom_detach id text cell s) as Hd0.
  destruct (evaluateCell_total run efuel id (detach id text cell s) ∅) as (s1 & E1 & Hd1).
  { apply elem_of_dom_2 in Hid. rewrite <- Hd0 in Hid. apply elem_of_dom in Hid as [c Hc].
    by rewrite (proj2 (lookup_slot_Own _ id c) Hc). }
  { rewrite Hd0. rewrite difference_empty_L. done. }
  rewrite E1.
  assert (dependents_ok s1) as Hok1.
  { eapply (evaluateCell_dependents_ok run efuel id (_, ∅)); [exact Hok0|by rewrite E1]. }
  destruct (proj1 (updateDependents_total run efuel fuel) id s1 ∅) as (s2 & v2 & -> & _ & Hd2 & Hok2).
  - done.
  - left. apply elem_of_dom. rewrite Hd1, Hd0. by apply elem_of_dom.
  - by rewrite Hd1, Hd0.
  - rewrite Hd1, Hd0. rewrite difference_empty_L.
    unfold fuel_for in Hf. nia.
  - exists s2. split; [done|]. split; [congruence|done].
Qed.

Lemma setCell_dependents_ok run efuel fuel id text s s' :
  dependents_ok s -> setCell run efuel fuel id text s = Done s' -> dependents_ok s'.
Proof.
  intros H. unfold setCell, lookup_slot.
  destruct (s !! id) as [cell|] eqn:Hid;
    [|destruct (bool_decide _); [done|by intros [= <-]]].
  pose proof (dependents_ok_detach s id text cell Hid H) as H1.
  pose proof (evaluateCell_dependents_ok run efuel id (detach id text cell s, ∅)) as He.
  destruct (evaluateCell run efuel id _) as [[s1 v1]|m [s1 v1]|]; try done.
  specialize (He s1 H1 eq_refl).
  pose proof (updateDependents_keeps run dependents_ok dependents_ok_store) as Hu.
  destruct (Hu (λ s i ref cell Hc _, dependents_ok_add_edge s i ref (mk_is_Some _ _ Hc)) efuel fuel)
    as [Hu1 _].
  specialize (Hu1 id (s1, ∅) He).
  destruct (updateDependents run efuel fuel id (s1, ∅)) as [[s2 v2]|m [s2 v2]|]; try done.
  by intros [= <-].
Qed.

Lemma reachable_dependents_ok run s : reachable run s -> dependents_ok s.
Proof.
  induction 1; [apply dependents_ok_new|by eapply setCell_dependents_ok].
Qed.

Lemma setCell_dom run efuel fuel id text s s' :
  setCell run efuel fuel id text s = Done s' -> dom s' = dom s.
Proof.
  unfold setCell, lookup_slot.
  destruct (s !! id) as [cell|] eqn:Hid;
    [|destruct (bool_decide _); [done|by intros [= <-]]].
  pose proof (evaluateCell_dom run efuel id (detach id text cell s, ∅)) as He.
  destruct (evaluateCell run efuel id _) as [[s1 v1]|m [s1 v1]|]; try done.
  specialize (He s1 eq_refl). simpl in He. rewrite dom_detach in He.
  pose proof (updateDependents_keeps run (λ t, dom t = dom s)) as Hu.
  destruct (Hu (λ t i v e H, eq_trans (dom_store i v e t) H)
               (λ t i ref cell _ _ H, eq_trans (dom_add_edge i t ref) H) efuel fuel) as [Hu1 _].
  specialize (Hu1 id (s1, ∅) He).
  destruct (updateDependents run efuel fuel id (s1, ∅)) as [[s2 v2]|m [s2 v2]|]; try done.
  by intros [= <-].
Qed.

(** ** No exception leaves [_evaluateCell] on a cell *)

Lemma substitute_outcome (ev : string -> estate -> outcome estate) refs w :
  (∀ r s, r ∈ refs ->
     match ev r (s, w) with
     | Done (_, w') => w' = w
     | Throws _ _ => False
     | OutOfFuel => True
     end) ->
  ∀ expr s,
    match substitute ev refs expr (s, w) with
    | Done (_, (_, w')) => w' = w
    | Throws _ _ => False
    | OutOfFuel => True
    end.
Proof.
  induction refs as [|ref refs IH]; intros Hev expr s; simpl; [done|].
  pose proof (Hev ref s (list_elem_of_here _ _)) as H.
  destruct (ev ref (s, w)) as [[s1 w1]|m st|]; try done. subst w1.
  apply IH. intros r t Hr. apply Hev. by right.
Qed.

(** A call on a cell, or on a name that is not inherited, does not throw,
    and when it returns [visited] is what it was. *)
Lemma evaluateCell_outcome run fuel :
  ∀ id s v, lookup_slot s id ≠ Inherited ->
    match evaluateCell run fuel id (s, v) with
    | Done (_, v') => v' = v
    | Throws _ _ => False
    | OutOfFuel => True
    end.
Proof.
  induction fuel as [|fuel IH]; intros id s v Hslot; simpl; [done|].
  destruct (lookup_slot s id) as [cell| |] eqn:Hid; [|done|done].
  destruct (decide (id ∈ v)) as [Hv|Hv]; [done|].
  destruct (startsWith "=" (trim (raw cell))) eqn:F; simpl.
  2:{ by apply add_remove_visited. }
  pose proof (substitute_outcome (evaluateCell run fuel) (match_refs (trim (raw cell))) (v ∪ {[id]})) as H.
  specialize (H (λ r s Hr, IH r s _ (lookup_slot_ref s r (match_refs_is_ref _ r Hr)))).
  specialize (H (slice1 (trim (raw cell))) (foldl (add_edge id) s (match_refs (trim (raw cell))))).
  destruct (substitute _ _ _ _) as [[expr [s1 v1]]|m st|]; try done.
  subst v1. by apply add_remove_visited.
Qed.

(** ** Invariants of the substitution loop *)

Lemma substitute_inv (J : estate -> Prop) (ev : string -> estate -> outcome estate) refs :
  (∀ r st, r ∈ refs -> J st -> after (ev r st) J) ->
  ∀ expr st, J st -> after (substitute ev refs expr st) (λ r, J r.2).
Proof.
  induction refs as [|ref refs IH]; intros Hev expr st Hst; simpl; [done|].
  pose proof (Hev ref st (list_elem_of_here _ _) Hst) as H.
  destruct (ev ref st) as [[s1 w1]|m st1|]; try done.
  apply IH; [|done]. intros r t Hr. apply Hev. by right.
Qed.

Lemma evaluateCell_raw run fuel id st s' k :
  table_of (evaluateCell run fuel id st) = Some s' -> raw <$> s' !! k = raw <$> st.1 !! k.
Proof.
  apply (evaluateCell_keeps run (λ t, raw <$> t !! k = raw <$> st.1 !! k)); [| |done].
  - intros s i v e <-. rewrite store_lookup. destruct (s !! k); [|done]. simpl.
    by destruct (decide (k = i)).
  - intros s i ref cell _ _ <-. apply add_edge_raw.
Qed.

Lemma foldl_add_edge_shown id refs (s : sheet) k :
  (λ c, (raw c, value c, error c)) <$> foldl (add_edge id) s refs !! k
  = (λ c, (raw c, value c, error c)) <$> s !! k.
Proof.
  revert s. induction refs as [|r refs IH]; intros s; simpl; [done|].
  rewrite IH, add_edge_lookup. destruct (s !! k); [|done]. simpl.
  by destruct (decide (k = r)), (decide (k = id)).
Qed.

Lemma foldl_add_edge_raw id refs (s : sheet) k :
  raw <$> foldl (add_edge id) s refs !! k = raw <$> s !! k.
Proof.
  revert s. induction refs as [|r refs IH]; intros s; simpl; [done|].
  by rewrite IH, add_edge_raw.
Qed.

(** ** C4: literals *)

Lemma holds_literal_store id s x v e :
  x ≠ id -> holds_literal id s -> holds_literal id (store x v e s).
Proof.
  intros Hx (c & Hc & ? & ?). exists c. rewrite store_lookup, Hc. simpl.
  by rewrite decide_False.
Qed.

Lemma holds_literal_shown id (s t : sheet) :
  (λ c, (raw c, value c, error c)) <$> t !! id = (λ c, (raw c, value c, error c)) <$> s !! id ->
  holds_literal id s -> holds_literal id t.
Proof.
  intros H (c & Hc & Hv & He). rewrite Hc in H. simpl in H.
  destruct (t !! id) as [c'|] eqn:Ht; [|done]. injection H as H1 H2 H3.
  exists c'. split; [done|]. by rewrite H1, H2, H3.
Qed.

Lemma store_raw id v e (s : sheet) k : raw <$> store id v e s !! k = raw <$> s !! k.
Proof.
  rewrite store_lookup. destruct (s !! k); [|done]. simpl. by destruct (decide (k = id)).
Qed.

Lemma evaluateCell_literal run id text :
  is_formula text = false ->
  ∀ fuel x s v,
    raw <$> s !! id = Some text -> id ∉ v -> x = id ∨ holds_literal id s ->
    after (evaluateCell run fuel x (s, v))
      (λ st, raw <$> st.1 !! id = Some text ∧ (id ∉ st.2) ∧ holds_literal id st.1).
Proof.
  intros Hf. induction fuel as [|fuel IH]; intros x s v Hraw Hv Hor; simpl; [done|].
  assert (x ≠ id -> holds_literal id s) as Hne by (intros ?; by destruct Hor).
  unfold lookup_slot. destruct (s !! x) as [cell|] eqn:Hx.
  - destruct (decide (x ∈ v)) as [Hxv|Hxv]; simpl.
    { assert (x ≠ id) by congruence. rewrite store_raw.
      split; [done|]. split; [done|]. by apply holds_literal_store, Hne. }
    destruct (startsWith "=" (trim (raw cell))) eqn:F; simpl.
    2:{ rewrite store_raw. split; [done|]. split; [set_solver|].
        destruct (decide (x = id)) as [->|Hxi]; [|by apply holds_literal_store, Hne].
        exists (set_error None (set_value (literal (trim (raw cell))) cell)).
        rewrite store_lookup, Hx. simpl. by rewrite decide_True. }
    assert (x ≠ id) as Hxi.
    { intros ->. rewrite Hx in Hraw. injection Hraw as <-. unfold is_formula in Hf. congruence. }
    set (J := λ st : estate, raw <$> st.1 !! id = Some text ∧ (id ∉ st.2) ∧ holds_literal id st.1).
    assert (∀ r st, r ∈ match_refs (trim (raw cell)) -> J st ->
              after (evaluateCell run fuel r st) J) as Hstep.
    { intros r [t w] _ (H1 & H2 & H3). apply IH; auto. }
    assert (J (foldl (add_edge x) s (match_refs (trim (raw cell))), v ∪ {[x]})) as HJ0.
    { split; [|split; [set_solver|]]; simpl.
      - by rewrite foldl_add_edge_raw.
      - eapply holds_literal_shown; [apply foldl_add_edge_shown|auto]. }
    pose proof (substitute_inv J _ _ Hstep (slice1 (trim (raw cell))) _ HJ0) as H.
    destruct (substitute _ _ _ _) as [[expr [s1 v1]]|m [expr [s1 v1]]|]; simpl in *; [| |done];
      destruct H as (H1 & H2 & H3); simpl in *.
    + destruct (valid_expr expr); [destruct (run expr)|]; unfold J; simpl; rewrite store_raw;
        (split; [done|split; [set_solver|by apply holds_literal_store]]).
    + unfold J; simpl. rewrite store_raw.
      split; [done|split; [set_solver|by apply holds_literal_store]].
  - assert (x ≠ id) as Hxi by (intros ->; by rewrite Hx in Hraw).
    destruct (bool_decide _); [destruct (decide _)|]; simpl;
      (split; [done|split; [set_solver|auto]]).
Qed.

Lemma updateDependents_inv run (Q : sheet -> Prop) efuel :
  (∀ dep s, Q s -> after (evaluateCell run efuel dep (s, ∅)) (λ st, Q st.1)) ->
  ∀ fuel,
    (∀ id st, Q st.1 -> after (updateDependents run efuel fuel id st) (λ st, Q st.1))
    ∧ (∀ id i st, Q st.1 -> after (upd_loop run efuel fuel id i st) (λ st, Q st.1)).
Proof.
  intros Hev. induction fuel as [|fuel [IH1 IH2]]; split; intros; simpl; try done.
  - destruct st as [s v]. destruct (decide (id ∈ v)); [done|].
    destruct (lookup_slot s id); try done. by apply IH2.
  - destruct st as [s v]. destruct (s !! id ≫= _) as [dep|]; [|done].
    pose proof (Hev dep s H) as He.
    destruct (evaluateCell run efuel dep (s, ∅)) as [[s1 v1]|m [s1 v1]|]; simpl in *; auto.
    specialize (IH1 dep (s1, v) He).
    destruct (updateDependents run efuel fuel dep (s1, v)) as [[s2 v2]|m [s2 v2]|]; auto.
Qed.

Lemma setCell_literal run efuel fuel id text s cell s' :
  s !! id = Some cell -> is_formula text = false ->
  setCell run efuel fuel id text s = Done s' ->
  shown s' id = (literal (trim text), Some None).
Proof.
  intros Hid Hf. unfold setCell. rewrite (proj2 (lookup_slot_Own s id cell) Hid).
  set (Q := λ t : sheet, raw <$> t !! id = Some text ∧ holds_literal id t).
  assert (raw <$> detach id text cell s !! id = Some text) as Hraw.
  { rewrite (detach_lookup _ _ _ _ _ Hid), Hid. simpl. by rewrite decide_True. }
  pose proof (evaluateCell_literal run id text Hf efuel id _ ∅ Hraw (not_elem_of_empty _) (or_introl eq_refl)) as He.
  destruct (evaluateCell run efuel id _) as [[s1 v1]|m [s1 v1]|]; try done.
  simpl in He. destruct He as (H1 & _ & H2).
  assert (∀ dep t, Q t -> after (evaluateCell run efuel dep (t, ∅)) (λ st, Q st.1)) as Hstep.
  { intros dep t [Ht1 Ht2].
    pose proof (evaluateCell_literal run id text Hf efuel dep t ∅ Ht1 (not_elem_of_empty _) (or_intror Ht2)) as H.
    destruct (evaluateCell run efuel dep (t, ∅)) as [[]|? []|]; simpl in *; [| |done]; by destruct H as (? & _ & ?). }
  pose proof (proj1 (updateDependents_inv run Q efuel Hstep fuel) id (s1, ∅) (conj H1 H2)) as Hu.
  destruct (updateDependents run efuel fuel id (s1, ∅)) as [[s2 v2]|m [s2 v2]|]; try done.
  intros [= <-]. destruct Hu as [Hr (c & Hc & Hv & Herr)]. simpl in *.
  unfold shown, getCell. rewrite (proj2 (lookup_slot_Own s2 id c) Hc), Hc. simpl.
  rewrite Hc in Hr. injection Hr as Hr. by rewrite Hv, Herr, Hr.
Qed.

Lemma lookup_slot_cell (s : sheet) id c : s !! id = Some c -> lookup_slot s id ≠ Inherited.
Proof. intros H. by rewrite (proj2 (lookup_slot_Own s id c) H). Qed.

(** C4: [setCell] on an existing cell with a text that is not a formula
    returns, and the cell then shows no error and: the empty string when the
    trimmed text is empty; the number the text converts to, when it converts
    to one; and the trimmed text itself otherwise. *)
Theorem literal_parsing run s id cell text efuel fuel :
  reachable run s -> s !! id = Some cell -> is_formula text = false ->
  size (dom s) < efuel -> (fuel_for (size (dom s)) <= fuel)%nat ->
  ∃ s', setCell run efuel fuel id text s = Done s'
        ∧ error <$> s' !! id = Some None
        ∧ (trim text = "" -> getCell s' id = VStr "")
        ∧ (trim text ≠ "" -> JSNumber.isNaN (trim text) = false ->
             getCell s' id = VNum (JSNumber.Number (trim text)))
        ∧ (trim text ≠ "" -> JSNumber.isNaN (trim text) = true ->
             getCell s' id = VStr (trim text)).
Proof.
  intros Hr Hid Hf He Hfuel.
  destruct (setCell_total run efuel fuel id text s) as (s' & Hs' & _); auto.
  { by apply reachable_dependents_ok in Hr. }
  { by eapply lookup_slot_cell. }
  exists s'. split; [done|].
  pose proof (setCell_literal run efuel fuel id text s cell s' Hid Hf Hs') as H.
  unfold shown in H. injection H as Hv Herr. rewrite Hv, Herr. unfold literal.
  split; [done|]. split; [|split].
  - intros ->. done.
  - intros Hne Hn. rewrite decide_False by done. by rewrite Hn.
  - intros Hne Hn. rewrite decide_False by done. by rewrite Hn.
Qed.

Lemma literal_parsing_witness :
  ∃ s', setCell reference_engine efuel5 fuel5 "A1" "42" grid5 = Done s'
        ∧ error <$> s' !! "A1" = Some None
        ∧ getCell s' "A1" = VNum 42.
Proof.
  destruct (literal_parsing reference_engine grid5 "A1" new_Cell "42" efuel5 fuel5)
    as (s' & H1 & H2 & _ & H3 & _).
  - apply reachable_new.
  - reflexivity.
  - reflexivity.
  - vm_compute. lia.
  - vm_compute. lia.
  - exists s'. split; [exact H1|]. split; [exact H2|].
    apply H3; [discriminate|reflexivity].
Defined.

(** ** C5: arithmetic *)

(** C5: with 5 in [A1] and 3 in [B1], the formula [=A1*B1+2] gives 17; and
    for all numbers [x], [y], [z] and operators [o1], [o2], the tokens
    [x o1 y o2 z] are read as [x o1 (y o2 z)] when [o2] binds tighter than
    [o1], and as [(x o1 y) o2 z] otherwise, so that [*] and [/] bind tighter
    than [+] and [-] and operators of one strength group to the left. *)
Theorem arithmetic_precedence run :
  arithmetic_engine run ->
  (∃ s, setCells run [("A1", "5"); ("B1", "3"); ("C1", "=A1*B1+2")] grid5 = Done s
        ∧ shown s <$> ["C1"] = [(VNum 17, Some None)])
  ∧ (∀ x y z o1 o2,
       Arith.parse [Arith.TNum x; Arith.tok o1; Arith.TNum y; Arith.tok o2; Arith.TNum z]
       = Some (if (Arith.level o1 <? Arith.level o2)%nat
               then Arith.Bin o1 (Arith.Lit x) (Arith.Bin o2 (Arith.Lit y) (Arith.Lit z))
               else Arith.Bin o2 (Arith.Bin o1 (Arith.Lit x) (Arith.Lit y)) (Arith.Lit z)))
  ∧ Arith.js_arith <$> ["1+2*3"; "2*3+4"; "10-4-3"; "100/10/5"; "2*(3+4)"; "8/4*2"; "1-2+3"]
    = Some <$> [7; 10; 3; 2; 14; 4; 2]%float.
Proof.
  intros H. split; [run_calls H|]. split; [|vm_compute; reflexivity].
  intros x y z [] []; reflexivity.
Qed.

Lemma arithmetic_precedence_witness :
  (∃ s, setCells reference_engine [("A1", "5"); ("B1", "3"); ("C1", "=A1*B1+2")] grid5 = Done s
        ∧ shown s <$> ["C1"] = [(VNum 17, Some None)])
  ∧ Arith.parse [Arith.TNum 2; Arith.TPlus; Arith.TNum 3; Arith.TStar; Arith.TNum 4]
    = Some (Arith.Bin Arith.Add (Arith.Lit 2) (Arith.Bin Arith.Mul (Arith.Lit 3) (Arith.Lit 4))).
Proof.
  destruct (arithmetic_precedence reference_engine reference_engine_arithmetic) as (H1 & H2 & _).
  split; [exact H1|]. exact (H2 2%float 3%float 4%float Arith.Add Arith.Mul).
Defined.

(** ** C7: identifiers that name no cell *)

(** C7 (the code against the claim): for an identifier that names no cell,
    [getCell] answers [undefined]; [setCell] returns with the table unchanged
    unless the identifier is a property name that the table object inherits
    (as [constructor] is), and then the call throws a [TypeError], with the
    table unchanged. *)
Theorem unknown_identifier run efuel fuel (s : sheet) (id text : string) :
  s !! id = None ->
  getCell s id = VUndef
  ∧ (id ∉ inherited_names -> setCell run efuel fuel id text s = Done s)
  ∧ (id ∈ inherited_names ->
       setCell run efuel fuel id text s = Throws "cell.dependencies is not iterable" s).
Proof.
  intros H. unfold getCell, setCell, lookup_slot. rewrite H. split; [|split]; intros.
  - by destruct (bool_decide _).
  - by rewrite bool_decide_eq_false_2.
  - by rewrite bool_decide_eq_true_2.
Qed.

Lemma unknown_identifier_witness :
  getCell grid5 "constructor" = VUndef
  ∧ setCell reference_engine efuel5 fuel5 "constructor" "1" grid5
    = Throws "cell.dependencies is not iterable" grid5.
Proof.
  destruct (unknown_identifier reference_engine efuel5 fuel5 grid5 "constructor" "1")
    as (H1 & _ & H2).
  - vm_compute. reflexivity.
  - split; [exact H1|]. apply H2. unfold inherited_names. left.
Defined.

(** ** Facts about [replaceAll] *)

Lemma In_string_app c a b : In_string c (a ++ b) <-> In_string c a ∨ In_string c b.
Proof. induction a as [|d a IH]; simpl; [tauto|]. rewrite IH. tauto. Qed.

Lemma startsWith_cons p pat c s :
  startsWith (String p pat) (String c s) = if decide (p = c) then startsWith pat s else false.
Proof. reflexivity. Qed.

Lemma startsWith_split pat s : startsWith pat s = true -> ∃ rest, s = pat ++ rest.
Proof.
  revert s. induction pat as [|p pat IH]; intros s; [by exists s|].
  destruct s as [|c s]; [done|]. rewrite startsWith_cons.
  destruct (decide (p = c)) as [->|]; [|done].
  intros (rest & ->)%IH. by exists rest.
Qed.

Lemma startsWith_app pat rest : startsWith pat (pat ++ rest) = true.
Proof.
  induction pat as [|p pat IH]; [done|].
  change (String p pat ++ rest) with (String p (pat ++ rest)).
  rewrite startsWith_cons. by rewrite decide_True.
Qed.

Lemma replace_go_skip pat rep q rest :
  replace_go pat rep (String.length q) (q ++ rest) = replace_go pat rep 0 rest.
Proof.
  induction q as [|d q IH]; simpl; [|exact IH].
  destruct rest; reflexivity.
Qed.

Lemma replace_go_match pat rep p pat' rest :
  pat = String p pat' ->
  replace_go pat rep 0 (pat ++ rest) = rep ++ replace_go pat rep 0 rest.
Proof.
  intros ->. change (String p pat' ++ rest) with (String p (pat' ++ rest)).
  cbn [replace_go]. change (String p (pat' ++ rest)) with (String p pat' ++ rest).
  rewrite startsWith_app.
  replace (String.length (String p pat') - 1)%nat with (String.length pat')
    by (simpl; lia).
  by rewrite replace_go_skip.
Qed.

Lemma length_app_string a b : String.length (a ++ b) = (String.length a + String.length b)%nat.
Proof. induction a as [|c a IH]; simpl; [done|]. by rewrite IH. Qed.

(** A character that is not in the pattern stays. *)
Lemma replaceAll_keeps_char pat rep c :
  ¬ In_string c pat -> ∀ s, In_string c s -> In_string c (replaceAll pat rep s).
Proof.
  intros Hpat. destruct pat as [|p pat'].
  { unfold replaceAll. induction s as [|d s IH]; simpl; [done|].
    rewrite In_string_app. simpl. tauto. }
  unfold replaceAll. intros s.
  remember (String.length s) as n eqn:Hn. revert s Hn.
  induction n as [n IH] using lt_wf_ind. intros s Hn.
  destruct s as [|d s']; [done|].
  destruct (startsWith (String p pat') (String d s')) eqn:E.
  - apply startsWith_split in E as (rest & E). rewrite E.
    rewrite (replace_go_match _ rep p pat' rest eq_refl), !In_string_app.
    intros [?|Hr]; [done|]. right. apply (IH (String.length rest)); [|done|done].
    subst n. rewrite E, length_app_string. simpl. lia.
  - cbn [replace_go]. rewrite E. simpl. intros [->|H]; [by left|].
    right. apply (IH (String.length s')); [|done|done]. subst n. simpl. lia.
Qed.

Lemma invalid_char expr c :
  In_string c expr -> is_expr_char c = false -> valid_expr expr = false.
Proof.
  intros Hin Hc. unfold valid_expr. destruct expr as [|d e]; [done|].
  revert Hin. generalize (String d e) as t. intros t.
  induction t as [|x t IH]; simpl; [done|].
  intros [<-|H]; [by rewrite Hc|]. rewrite IH by done. apply andb_false_r.
Qed.

Lemma substitute_keeps_char (ev : string -> estate -> outcome estate) c refs :
  (∀ r, r ∈ refs -> ¬ In_string c r) ->
  ∀ expr st, In_string c expr ->
    match substitute ev refs expr st with
    | Done (expr', _) => In_string c expr'
    | _ => True
    end.
Proof.
  induction refs as [|ref refs IH]; intros Hrefs expr st Hin; simpl; [done|].
  destruct (ev ref st) as [[s1 v1]|m st1|]; try done.
  apply IH; [intros r Hr; apply Hrefs; by right|].
  apply replaceAll_keeps_char; [apply Hrefs; by left|done].
Qed.

Lemma is_ref_chars r c :
  is_ref r -> In_string c r -> is_col_letter c = true ∨ is_expr_char c = true.
Proof.
  intros (a & b & -> & Ha & Hb). simpl. intros [->|[->|[]]]; [by left|right].
  unfold is_expr_char, is_digit. unfold is_row_digit in Hb.
  apply andb_true_iff in Hb as [H1 H2]. apply N.leb_le in H1, H2.
  assert (((48 <=? code b)%N && (code b <=? 57)%N) = true) as ->; [|done].
  apply andb_true_iff. split; apply N.leb_le; lia.
Qed.

(** ** C6: formulas with a character outside the arithmetic class *)






Lemma outcome_bind_inv {A B : Type} (o : outcome A) (f : A -> option B) r :
  match o with Done a => f a | _ => None end = Some r -> ∃ a, o = Done a ∧ f a = Some r.
Proof. destruct o; [eauto|done|done]. Qed.


(** ** Occurrences of references in the expression text *)

Lemma app_assoc_string (a b c : string) : (a ++ b) ++ c = a ++ b ++ c.
Proof.
  induction a as [|x a IH]; [done|].
  change (String x ((a ++ b) ++ c) = String x (a ++ b ++ c)). by rewrite IH.
Qed.

Lemma occurs_prefix r e a : occurs r e -> occurs r (a ++ e).
Proof. intros (x & y & ->). exists (a ++ x), y. by rewrite app_assoc_string. Qed.

Lemma occurs_cons r e c : occurs r e -> occurs r (String c e).
Proof. apply (occurs_prefix r e (String c EmptyString)). Qed.

Lemma col_letter_not_row_digit c : is_col_letter c = true -> is_row_digit c = true -> False.
Proof.
  unfold is_col_letter, is_row_digit.
  intros [H1 _]%andb_true_iff [_ H2]%andb_true_iff.
  apply N.leb_le in H1, H2. lia.
Qed.

(** Replacing another reference keeps the occurrences of a reference. *)
Lemma replaceAll_keeps_occurrence r r' rep :
  is_ref r -> is_ref r' -> r ≠ r' ->
  ∀ e, occurs r e -> occurs r (replaceAll r' rep e).
Proof.
  intros (x & y & -> & Hx & Hy) (p & q & -> & Hp & Hq) Hne e.
  unfold replaceAll.
  remember (String.length e) as n eqn:Hn. revert e Hn.
  induction n as [n IH] using lt_wf_ind. intros e Hn (a & b & He).
  destruct (startsWith (String p (String q "")) e) eqn:E.
  - apply startsWith_split in E as (rest & E).
    rewrite E. rewrite (replace_go_match _ rep p (String q "") rest eq_refl).
    apply occurs_prefix. apply (IH (String.length rest)); [|done|].
    { subst n. rewrite E, length_app_string. simpl. lia. }
    destruct a as [|c [|d a'']]; simpl in He; rewrite He in E; simpl in E.
    + injection E as E1 E2 _. by rewrite E1, E2 in Hne.
    + injection E as _ E2 _. rewrite E2 in Hx.
      destruct (col_letter_not_row_digit q Hx Hq).
    + injection E as _ _ E. by exists a'', b.
  - destruct e as [|c e']; [by destruct a|].
    cbn [replace_go]. rewrite E.
    destruct a as [|c' a']; simpl in He.
    + injection He as E1 E2. rewrite E1, E2.
      change (String y "" ++ b) with (String y b).
      cbn [replace_go].
      assert (startsWith (String p (String q "")) (String y b) = false) as ->.
      { rewrite startsWith_cons. destruct (decide (p = y)) as [->|]; [|done].
        destruct (col_letter_not_row_digit y Hp Hy). }
      by exists "", (replace_go (String p (String q "")) rep 0 b).
    + injection He as E1 E2. rewrite E2. apply occurs_cons.
      apply (IH (String.length (a' ++ String x (String y "") ++ b))); [|done|by exists a', b].
      subst n. rewrite E2. cbn [String.length]. lia.
Qed.

(** Replacing a reference that occurs brings in the replacement. *)
Lemma replaceAll_inserts r rep c :
  r ≠ "" -> In_string c rep -> ∀ e, occurs r e -> In_string c (replaceAll r rep e).
Proof.
  intros Hr Hc. destruct r as [|p r']; [done|]. unfold replaceAll.
  intros e. remember (String.length e) as n eqn:Hn. revert e Hn.
  induction n as [n IH] using lt_wf_ind. intros e Hn (a & b & He).
  destruct (startsWith (String p r') e) eqn:E.
  - apply startsWith_split in E as (rest & ->).
    rewrite (replace_go_match _ rep p r' rest eq_refl), In_string_app. by left.
  - destruct a as [|c' a'].
    + change ("" ++ String p r' ++ b) with (String p r' ++ b) in He.
      rewrite He in E. by rewrite startsWith_app in E.
    + change (String c' a' ++ String p r' ++ b) with (String c' (a' ++ String p r' ++ b)) in He.
      rewrite He. cbn [replace_go]. rewrite <- He, E. simpl. right.
      apply (IH (String.length (a' ++ String p r' ++ b))); [|done|by exists a', b].
      subst n. rewrite He. cbn [String.length]. lia.
Qed.

Lemma match_refs_go_occurs k text r : r ∈ match_refs_go k text -> occurs r text.
Proof.
  revert k. induction text as [|a text IH]; intros k; simpl; [by rewrite elem_of_nil|].
  destruct k; [intros H; apply occurs_cons; by eapply IH|].
  destruct text as [|b text]; [by rewrite elem_of_nil|].
  destruct (is_col_letter a && is_row_digit b).
  - intros [->|H]%elem_of_cons; [by exists "", text|].
    apply occurs_cons. by eapply IH.
  - intros H. apply occurs_cons. by eapply IH.
Qed.

Lemma formula_body_occurs text r :
  is_formula text = true -> r ∈ match_refs (trim text) -> occurs r (slice1 (trim text)).
Proof.
  unfold is_formula, match_refs. intros (body & ->)%startsWith_split. simpl.
  destruct body as [|b body]; [by rewrite elem_of_nil|].
  replace (is_col_letter "=" && is_row_digit b) with false by done.
  apply match_refs_go_occurs.
Qed.

(** ** C10: references to cells that hold an infinite number or NaN *)

Lemma substitute_app (ev : string -> estate -> outcome estate) l1 l2 :
  ∀ expr st,
    substitute ev (l1 ++ l2) expr st =
      match substitute ev l1 expr st with
      | Done (e1, st1) => substitute ev l2 e1 st1
      | Throws m r => Throws m r
      | OutOfFuel => OutOfFuel
      end.
Proof.
  induction l1 as [|r l1 IH]; intros expr st; simpl; [done|].
  destruct (ev r st) as [[s1 v1]|m st1|]; [apply IH|done|done].
Qed.

Lemma substitute_keeps_occurrence (ev : string -> estate -> outcome estate) ref refs :
  is_ref ref -> (∀ r, r ∈ refs -> is_ref r ∧ r ≠ ref) ->
  ∀ expr st, occurs ref expr ->
    match substitute ev refs expr st with
    | Done (expr', _) => occurs ref expr'
    | _ => True
    end.
Proof.
  intros Href. induction refs as [|r refs IH]; intros Hrefs expr st Hin; simpl; [done|].
  destruct (ev r st) as [[s1 v1]|m st1|]; try done.
  apply IH; [intros r' Hr'; apply Hrefs; by right|].
  destruct (Hrefs r (list_elem_of_here _ _)) as [H1 H2].
  by apply replaceAll_keeps_occurrence.
Qed.

Lemma substitute_dom run fuel refs expr st :
  after (substitute (evaluateCell run fuel) refs expr st) (λ r, dom r.2.1 = dom st.1).
Proof.
  apply (substitute_inv (λ t, dom t.1 = dom st.1)); [|done].
  intros r t _ Ht. pose proof (evaluateCell_dom run fuel r t) as H.
  destruct (evaluateCell run fuel r t) as [[]|? []|]; simpl in *; [| |done];
    by rewrite (H _ eq_refl).
Qed.

Lemma to_string_nonfinite x :
  PrimFloat.is_finite x = false ->
  ∃ c, In_string c (JSNumber.to_string x) ∧ is_expr_char c = false ∧ is_col_letter c = false.
Proof.
  unfold PrimFloat.is_finite, JSNumber.to_string. intros H.
  apply negb_false_iff, orb_true_iff in H.
  destruct (PrimFloat.is_nan x).
  - exists "N"%char. simpl. auto.
  - destruct H as [H|H]; [done|]. rewrite H.
    exists "I"%char. destruct (PrimFloat.ltb x PrimFloat.zero); simpl; auto.
Qed.

(** When the loop of lines 84 to 91, run for a formula cell, finds an
    infinite number or NaN as the value of a reference on its first turn for
    that reference, the evaluation of the cell returns and the cell shows
    ['#ERR'] with the message ['Invalid formula']: the text of such a number
    holds a letter, which the test of line 94 refuses.  The number is the
    value read in the loop, right after the reference was evaluated again. *)
Lemma nonfinite_read_rejected run fuel (s : sheet) (v : gset string)
    (id text : string) (pre : list string) (ref : string) (post : list string) x :
  raw <$> s !! id = Some text -> id ∉ v -> is_formula text = true ->
  match_refs (trim text) = (pre ++ ref :: post)%list -> ref ∉ pre ->
  read_value run fuel id text s v pre ref = Some (VNum x) ->
  PrimFloat.is_finite x = false ->
  (size (dom s ∖ v) <= fuel)%nat ->
  ∃ s', evaluateCell run (S fuel) id (s, v) = Done (s', v)
        ∧ shown s' id = (VStr "#ERR", Some (Some "Invalid formula")).
Proof.
  intros Hraw Hv Hf Hrefs Hpre Hread Hx Hfuel.
  destruct (s !! id) as [cell|] eqn:Hid; [|done]. injection Hraw as Hraw.
  assert (∀ r, r ∈ match_refs (trim text) -> is_ref r) as Hisref
    by (intros r; apply match_refs_is_ref).
  assert (is_ref ref) as Href by (apply Hisref; rewrite Hrefs; set_solver).
  simpl. rewrite (proj2 (lookup_slot_Own s id cell) Hid), decide_False by done.
  rewrite Hraw. unfold is_formula in Hf. rewrite Hf. simpl.
  unfold read_value in Hread. rewrite Hrefs in *. rewrite substitute_app.
  set (s0 := foldl (add_edge id) s (pre ++ ref :: post)%list) in *.
  pose proof (substitute_dom run fuel pre (slice1 (trim text)) (s0, v ∪ {[id]})) as Hd1.
  pose proof (substitute_outcome (evaluateCell run fuel) pre (v ∪ {[id]})
    (λ r t Hr, evaluateCell_outcome run fuel r t _
       (lookup_slot_ref t r (Hisref r ltac:(set_solver))))
    (slice1 (trim text)) s0) as Hv1.
  pose proof (substitute_keeps_occurrence (evaluateCell run fuel) ref pre Href) as Ho1.
  specialize (Ho1 (λ r Hr, conj (Hisref r ltac:(set_solver)) (λ E, Hpre (eq_ind _ (λ z, z ∈ pre) Hr _ E)))).
  specialize (Ho1 (slice1 (trim text)) (s0, v ∪ {[id]})).
  destruct (substitute (evaluateCell run fuel) pre (slice1 (trim text)) (s0, v ∪ {[id]}))
    as [[e1 [s1 v1]]|m st1|]; [|done|done].
  simpl in Hd1, Hv1. subst v1. simpl.
  pose proof (evaluateCell_dom run fuel ref (s1, v ∪ {[id]})) as Hd2.
  pose proof (evaluateCell_outcome run fuel ref s1 (v ∪ {[id]}) (lookup_slot_ref _ _ Href)) as Hv2.
  destruct (evaluateCell run fuel ref (s1, v ∪ {[id]})) as [[s2 v2]|m st2|]; [|done|done].
  injection Hread as Hread. subst v2. specialize (Hd2 s2 eq_refl). simpl in Hd2.
  assert (ref_value s2 ref = VNum x) as -> by (unfold ref_value; by rewrite Hread).
  destruct (to_string_nonfinite x Hx) as (c & Hc & Hce & Hcl).
  set (e2 := replaceAll ref _ e1).
  assert (In_string c e2) as He2.
  { apply replaceAll_inserts.
    - destruct Href as (a & b & -> & _). done.
    - unfold to_text.
      change (In_string c (String "(" (JSNumber.to_string x ++ ")"))).
      right. rewrite In_string_app. by left.
    - apply Ho1. apply formula_body_occurs; [done|]. rewrite Hrefs. set_solver. }
  assert (dom s0 = dom s) as Hd0 by apply dom_foldl_add_edge.
  assert (id ∈ dom s) as Hidd by (by apply elem_of_dom_2 in Hid).
  destruct (substitute_total (evaluateCell run fuel) post (dom s) (v ∪ {[id]}))
    with (expr := e2) (s := s2) as (e3 & s3 & E3 & Hd3).
  { intros r t Hr Ht. destruct (evaluateCell_total run fuel r t (v ∪ {[id]})) as (t' & ? & ?).
    - apply lookup_slot_ref, Hisref. set_solver.
    - rewrite Ht. pose proof (size_unvisited_add (dom s) v id Hidd Hv). lia.
    - exists t'. split; [done|congruence]. }
  { congruence. }
  rewrite E3. rewrite add_remove_visited by done.
  pose proof (substitute_keeps_char (evaluateCell run fuel) c post) as Hk.
  specialize (Hk (λ r Hr Hin, ltac:(
    destruct (is_ref_chars r c (Hisref r ltac:(set_solver)) Hin); congruence))).
  specialize (Hk e2 (s2, v ∪ {[id]}) He2). rewrite E3 in Hk.
  rewrite (invalid_char e3 c Hk Hce).
  eexists. split; [done|].
  assert (is_Some (s3 !! id)) as [c3 Hc3] by (apply elem_of_dom; by rewrite Hd3).
  unfold shown, getCell.
  rewrite (proj2 (lookup_slot_Own _ id _)
             (eq_trans (store_lookup id _ _ s3 id) (f_equal _ Hc3))).
  rewrite store_lookup, Hc3. simpl. by rewrite decide_True.
Qed.

(** ** Recorded references *)

Lemma same_frames_refl s : same_frames s s.
Proof. done. Qed.

Lemma same_frames_trans s t u : same_frames s t -> same_frames t u -> same_frames s u.
Proof. intros H1 H2 k. by rewrite H2, H1. Qed.

Lemma same_frames_sym s t : same_frames s t -> same_frames t s.
Proof. intros H k. by rewrite H. Qed.

Lemma same_frames_store id v e s : same_frames s (store id v e s).
Proof.
  intros k. rewrite store_lookup. destruct (s !! k); [|done]. simpl.
  by destruct (decide (k = id)).
Qed.

Lemma same_frames_lookup s t k c :
  same_frames s t -> s !! k = Some c ->
  ∃ c', t !! k = Some c' ∧ raw c' = raw c ∧ dependencies c' = dependencies c
        ∧ dependents c' = dependents c.
Proof.
  intros H Hk. specialize (H k). rewrite Hk in H. simpl in H.
  destruct (t !! k) as [c'|]; [|done]. injection H as H1 H2 H3. by exists c'.
Qed.

Lemma linked_except_frames x s t : same_frames s t -> linked_except x s -> linked_except x t.
Proof.
  intros Hf H a ca r Ha Hx Hr.
  destruct (same_frames_lookup t s a ca (same_frames_sym _ _ Hf) Ha) as (ca' & Ha' & E1 & E2 & E3).
  rewrite <- E1 in Hr. destruct (H a ca' r Ha' Hx Hr) as [H1 H2]. split; [by rewrite <- E2|].
  intros cr Hcr.
  destruct (same_frames_lookup t s r cr (same_frames_sym _ _ Hf) Hcr) as (cr' & Hr' & _ & _ & E6).
  rewrite <- E6. by apply H2.
Qed.

Lemma add_edge_linked s id cell ref :
  linked s -> s !! id = Some cell -> ref ∈ formula_refs (raw cell) -> add_edge id s ref = s.
Proof.
  intros H Hid Hr. destruct (H id cell ref Hid ltac:(done) Hr) as [H1 H2].
  apply map_eq. intros k. rewrite add_edge_lookup.
  destruct (s !! k) as [c|] eqn:Hk; [|done]. simpl. f_equal.
  destruct (decide (k = ref)) as [Hkr|Hkr], (decide (k = id)) as [Hki|Hki]; [| | |done].
  - assert (c = cell) as -> by congruence.
    rewrite (set_add_present ref), (set_add_present id);
      [by destruct cell|apply H2; congruence|done].
  - rewrite (set_add_present id); [by destruct c|apply H2; congruence].
  - assert (c = cell) as -> by congruence.
    rewrite (set_add_present ref); [by destruct cell|done].
Qed.

Lemma evaluateCell_frames run fuel x st s' :
  linked st.1 -> table_of (evaluateCell run fuel x st) = Some s' -> same_frames st.1 s'.
Proof.
  intros Hl.
  apply (evaluateCell_keeps run (λ t, same_frames st.1 t)); [| |done].
  - intros s id v e H. eapply same_frames_trans; [exact H|apply same_frames_store].
  - intros s id ref cell Hid Hr H.
    rewrite (add_edge_linked s id cell ref); [done| |done|done].
    by eapply linked_except_frames.
Qed.

Lemma formula_refs_empty : formula_refs "" = [].
Proof. reflexivity. Qed.

Lemma linked_new cols rows : linked (Spreadsheet cols rows).
Proof.
  intros a ca r ->%Spreadsheet_lookup _. simpl. rewrite formula_refs_empty.
  by rewrite elem_of_nil.
Qed.

Lemma foldl_add_edge_spec id refs :
  ∀ (s : sheet) k c', foldl (add_edge id) s refs !! k = Some c' ->
    ∃ c, s !! k = Some c ∧ raw c' = raw c
         ∧ (∀ r, r ∈ dependencies c' <-> r ∈ dependencies c ∨ (k = id ∧ r ∈ refs))
         ∧ (∀ a, a ∈ dependents c' <-> a ∈ dependents c ∨ (a = id ∧ k ∈ refs)).
Proof.
  induction refs as [|ref refs IH]; intros s k c' H; simpl in H.
  - exists c'. split; [done|]. split; [done|]. split; intros; rewrite elem_of_nil; tauto.
  - destruct (IH _ k c' H) as (c1 & H1 & Hr & Hd & Hp).
    rewrite add_edge_lookup in H1. destruct (s !! k) as [c|] eqn:Hk; [|done].
    injection H1 as <-. exists c. split; [done|]. split.
    { rewrite Hr. by destruct (decide (k = ref)), (decide (k = id)). }
    split.
    + intros r. rewrite Hd, elem_of_cons.
      destruct (decide (k = ref)), (decide (k = id)); simpl; rewrite ?set_add_elem;
        intuition congruence.
    + intros a. rewrite Hp, elem_of_cons.
      destruct (decide (k = ref)), (decide (k = id)); simpl; rewrite ?set_add_elem;
        intuition congruence.
Qed.

Lemma foldl_add_edge_lookup_Some id refs (s : sheet) k c :
  s !! k = Some c -> ∃ c', foldl (add_edge id) s refs !! k = Some c'.
Proof.
  intros H. apply elem_of_dom. rewrite dom_foldl_add_edge. by apply elem_of_dom.
Qed.

Lemma link_lookup id (s : sheet) k c' :
  link id s !! k = Some c' ->
  ∃ c, s !! k = Some c ∧ raw c' = raw c
       ∧ (∀ r, r ∈ dependencies c' <->
               r ∈ dependencies c ∨ (k = id ∧ r ∈ formula_refs (raw c)))
       ∧ (∀ a, a ∈ dependents c' <->
               a ∈ dependents c ∨ (a = id ∧ ∃ cid, s !! id = Some cid ∧ k ∈ formula_refs (raw cid))).
Proof.
  unfold link. destruct (s !! id) as [cid|] eqn:Hid.
  - intros H. destruct (foldl_add_edge_spec id _ s k c' H) as (c & Hk & Hr & Hd & Hp).
    exists c. split; [done|]. split; [done|]. split.
    + intros r. rewrite Hd. split; (intros [?|[-> ?]]; [by left|right]);
        (split; [done|]); assert (c = cid) as -> by congruence; done.
    + intros a. rewrite Hp. split; (intros [?|[-> ?]]; [by left|right]); split; try done.
      * by exists cid.
      * destruct H0 as (? & [= <-] & ?). done.
  - intros H. exists c'. split; [done|]. split; [done|]. split; intros; [|split].
    + split; [by left|]. intros [?|[-> ?]]; [done|]. congruence.
    + by left.
    + intros [?|[_ (? & ? & _)]]; [done|congruence].
Qed.

Lemma link_linked id (s : sheet) : linked_except (Some id) s -> linked (link id s).
Proof.
  intros H a ca r Ha _ Hr.
  destruct (link_lookup id s a ca Ha) as (c & Hc & Hraw & Hd & _).
  rewrite Hraw in Hr. split.
  - apply Hd. destruct (decide (a = id)) as [->|Hne]; [by right|].
    left. apply (H a c r Hc); [congruence|done].
  - intros cr Hcr. destruct (link_lookup id s r cr Hcr) as (c0 & Hc0 & _ & _ & Hp).
    apply Hp. destruct (decide (a = id)) as [->|Hne]; [right; split; [done|by exists c]|].
    left. apply (H a c r Hc); [congruence|done|done].
Qed.

Lemma linked_except_detach s id text cell :
  s !! id = Some cell -> linked s -> linked_except (Some id) (detach id text cell s).
Proof.
  intros Hid H a ca r. rewrite (detach_lookup _ _ _ _ _ Hid).
  destruct (s !! a) as [ca'|] eqn:Ea; simpl; [|done]. intros [= <-] Hne.
  assert (a ≠ id) as Hai by congruence. rewrite decide_False by done.
  assert (raw ((if decide (a ∈ dependencies cell)
               then set_dependents (set_delete id (dependents ca')) else λ c, c) ca')
          = raw ca') as -> by (by destruct (decide _)).
  intros Hr. destruct (H a ca' r Ea ltac:(done) Hr) as [H1 H2]. split.
  - by destruct (decide _).
  - intros cr. rewrite (detach_lookup _ _ _ _ _ Hid).
    destruct (s !! r) as [cr'|] eqn:Er; simpl; [|done]. intros [= <-].
    specialize (H2 cr' eq_refl).
    destruct (decide (r = id)), (decide (r ∈ dependencies cell)); simpl;
      rewrite ?set_delete_elem; auto.
Qed.

Lemma foldl_add_edge_fix id cell refs (s : sheet) :
  linked s -> s !! id = Some cell -> (∀ r, r ∈ refs -> r ∈ formula_refs (raw cell)) ->
  foldl (add_edge id) s refs = s.
Proof.
  intros Hl Hid. induction refs as [|r refs IH]; intros Hrefs; simpl; [done|].
  rewrite (add_edge_linked s id cell r); [|done|done|apply Hrefs; by left].
  apply IH. intros r' Hr'. apply Hrefs. by right.
Qed.

(** On the cell that [setCell] has just detached, evaluation first records
    the references of the new formula; from there on the edges stay. *)
Lemma evaluateCell_link run fuel id (d : sheet) v :
  linked_except (Some id) d -> id ∉ v ->
  evaluateCell run fuel id (d, v) = evaluateCell run fuel id (link id d, v).
Proof.
  intros Hl Hv. destruct fuel as [|fuel]; [done|]. simpl.
  unfold lookup_slot. destruct (d !! id) as [cell|] eqn:Hid.
  2:{ assert (link id d = d) as -> by (unfold link; by rewrite Hid). by rewrite Hid. }
  destruct (foldl_add_edge_lookup_Some id (formula_refs (raw cell)) d id cell Hid) as [cell' Hid'].
  assert (link id d = foldl (add_edge id) d (formula_refs (raw cell))) as Hlink.
  { unfold link. by rewrite Hid. }
  rewrite Hlink, Hid'. rewrite <- Hlink in *.
  destruct (link_lookup id d id cell' Hid') as (c & Hc & Hraw & _).
  assert (c = cell) as -> by congruence.
  rewrite !decide_False by done. rewrite Hraw.
  destruct (startsWith "=" (trim (raw cell))) eqn:F; simpl.
  - assert (formula_refs (raw cell) = match_refs (trim (raw cell))) as Hrefs.
    { unfold formula_refs, is_formula. by rewrite F. }
    rewrite (foldl_add_edge_fix id cell' _ (link id d)).
    + by rewrite Hlink, Hrefs.
    + by apply link_linked.
    + done.
    + intros r Hr. by rewrite Hraw, Hrefs.
  - assert (formula_refs (raw cell) = []) as Hrefs.
    { unfold formula_refs, is_formula. by rewrite F. }
    rewrite Hlink, Hrefs. done.
Qed.

Lemma updateDependents_frames run efuel fuel id s0 st :
  linked s0 -> same_frames s0 st.1 ->
  after (updateDependents run efuel fuel id st) (λ r, same_frames s0 r.1).
Proof.
  intros Hl Hs.
  pose proof (updateDependents_inv run (λ t, same_frames s0 t) efuel) as H.
  apply H; [|done].
  intros dep t Ht. pose proof (evaluateCell_frames run efuel dep (t, ∅)) as He.
  destruct (evaluateCell run efuel dep (t, ∅)) as [[t1 v1]|m [t1 v1]|]; simpl in *; [| |done];
    (eapply same_frames_trans; [exact Ht|]; apply He; [|done];
     by eapply linked_except_frames).
Qed.

Lemma setCell_frames run efuel fuel id text s cell s' :
  linked s -> s !! id = Some cell ->
  setCell run efuel fuel id text s = Done s' ->
  same_frames (link id (detach id text cell s)) s'.
Proof.
  intros Hl Hid. unfold setCell. rewrite (proj2 (lookup_slot_Own s id cell) Hid).
  pose proof (linked_except_detach s id text cell Hid Hl) as Hd.
  rewrite (evaluateCell_link run efuel id _ ∅ Hd (not_elem_of_empty _)).
  pose proof (link_linked id _ Hd) as Hl0.
  pose proof (evaluateCell_frames run efuel id (link id (detach id text cell s), ∅)) as He.
  destruct (evaluateCell run efuel id _) as [[s1 v1]|m [s1 v1]|]; try done.
  specialize (He s1 Hl0 eq_refl). simpl in He.
  pose proof (updateDependents_frames run efuel fuel id _ (s1, ∅) Hl0 He) as Hu.
  destruct (updateDependents run efuel fuel id (s1, ∅)) as [[s2 v2]|m [s2 v2]|]; try done.
  by intros [= <-].
Qed.

Lemma setCell_linked run efuel fuel id text s s' :
  linked s -> setCell run efuel fuel id text s = Done s' -> linked s'.
Proof.
  intros Hl H. destruct (s !! id) as [cell|] eqn:Hid.
  - eapply linked_except_frames; [by eapply setCell_frames|].
    by apply link_linked, linked_except_detach.
  - unfold setCell, lookup_slot in H. rewrite Hid in H.
    destruct (bool_decide _); [done|]. by injection H as <-.
Qed.

Lemma reachable_linked run s : reachable run s -> linked s.
Proof. induction 1; [apply linked_new|by eapply setCell_linked]. Qed.

(** ** C8: the reference pattern *)

Lemma deps_sound_new cols rows : deps_sound (Spreadsheet cols rows).
Proof. intros a ca r ->%Spreadsheet_lookup. simpl. by rewrite elem_of_nil. Qed.

Lemma deps_sound_store s id v e : deps_sound s -> deps_sound (store id v e s).
Proof.
  intros H a ca r. rewrite store_lookup.
  destruct (s !! a) as [ca'|] eqn:Ea; simpl; [|done]. intros [= <-].
  specialize (H a ca' r Ea). by destruct (decide (a = id)).
Qed.

Lemma deps_sound_add_edge s id ref cell :
  s !! id = Some cell -> ref ∈ formula_refs (raw cell) ->
  deps_sound s -> deps_sound (add_edge id s ref).
Proof.
  intros Hid Hr H a ca r. rewrite add_edge_lookup.
  destruct (s !! a) as [ca'|] eqn:Ea; simpl; [|done]. intros [= <-].
  specialize (H a ca' r Ea).
  destruct (decide (a = ref)), (decide (a = id)); simpl; rewrite ?set_add_elem; auto;
    (intros [->|?]; [|by auto]); subst; by assert (ca' = cell) as -> by congruence.
Qed.

Lemma deps_sound_detach s id text cell :
  s !! id = Some cell -> deps_sound s -> deps_sound (detach id text cell s).
Proof.
  intros Hid H a ca r. rewrite (detach_lookup _ _ _ _ _ Hid).
  destruct (s !! a) as [ca'|] eqn:Ea; simpl; [|done]. intros [= <-].
  specialize (H a ca' r Ea).
  destruct (decide (a = id)), (decide (a ∈ dependencies cell)); simpl;
    rewrite ?elem_of_nil; auto; done.
Qed.

Lemma setCell_deps_sound run efuel fuel id text s s' :
  deps_sound s -> setCell run efuel fuel id text s = Done s' -> deps_sound s'.
Proof.
  intros H. unfold setCell, lookup_slot.
  destruct (s !! id) as [cell|] eqn:Hid;
    [|destruct (bool_decide _); [done|by intros [= <-]]].
  pose proof (deps_sound_detach s id text cell Hid H) as H1.
  pose proof (evaluateCell_keeps run deps_sound deps_sound_store
                (λ s i ref cell Hc Hr, deps_sound_add_edge s i ref cell Hc Hr)) as He.
  specialize (He efuel id (detach id text cell s, ∅)).
  destruct (evaluateCell run efuel id _) as [[s1 v1]|m [s1 v1]|]; try done.
  specialize (He s1 H1 eq_refl).
  pose proof (updateDependents_keeps run deps_sound deps_sound_store
                (λ s i ref cell Hc Hr, deps_sound_add_edge s i ref cell Hc Hr) efuel fuel) as [Hu _].
  specialize (Hu id (s1, ∅) He).
  destruct (updateDependents run efuel fuel id (s1, ∅)) as [[s2 v2]|m [s2 v2]|]; try done.
  by intros [= <-].
Qed.

Lemma reachable_deps_sound run s : reachable run s -> deps_sound s.
Proof. induction 1; [apply deps_sound_new|by eapply setCell_deps_sound]. Qed.

Lemma col_letter_cases a :
  is_col_letter a = true ->
  a ∈ ["A"; "B"; "C"; "D"; "E"]%char.
Proof.
  destruct a as [[] [] [] [] [] [] [] []]; vm_compute; intros H; try discriminate H;
    set_solver.
Qed.

Lemma row_digit_cases b :
  is_row_digit b = true ->
  b ∈ ["1"; "2"; "3"; "4"; "5"]%char.
Proof.
  destruct b as [[] [] [] [] [] [] [] []]; vm_compute; intros H; try discriminate H;
    set_solver.
Qed.

Lemma is_ref_grid5 r : is_ref r <-> is_Some (grid5 !! r).
Proof.
  split.
  - intros (a & b & -> & Ha & Hb).
    apply col_letter_cases in Ha. apply row_digit_cases in Hb.
    repeat (apply elem_of_cons in Ha as [->|Ha]);
      try (by apply elem_of_nil in Ha);
      repeat (apply elem_of_cons in Hb as [->|Hb]);
      try (by apply elem_of_nil in Hb);
      (exists new_Cell; vm_compute; reflexivity).
  - unfold grid5, Spreadsheet. intros [c H]. apply elem_of_list_to_map_2 in H.
    apply list_elem_of_fmap in H as (id & [= -> _] & Hin).
    vm_compute in Hin.
    repeat (apply elem_of_cons in Hin as [->|Hin];
            [eexists _, _; split; [reflexivity|split; reflexivity]|]).
    by apply elem_of_nil in Hin.
Qed.

Lemma match_refs_of_ref r : is_ref r -> match_refs r = [r].
Proof.
  intros (a & b & -> & Ha & Hb). unfold match_refs. simpl. by rewrite Ha, Hb.
Qed.

Lemma match_refs_go_complete r :
  is_ref r ->
  ∀ pre k post,
    (k = true -> ∀ c rest, pre ++ r ++ post = String c rest -> is_col_letter c = false) ->
    r ∈ match_refs_go k (pre ++ r ++ post).
Proof.
  intros (a & b & -> & Ha & Hb). induction pre as [|c pre IH]; intros k post Hk.
  - destruct k.
    + specialize (Hk eq_refl a (String b post) eq_refl). congruence.
    + change (String a (String b "") ∈ match_refs_go false (String a (String b post))).
      cbn [match_refs_go]. rewrite Ha, Hb. left.
  - change (String a (String b "") ∈ match_refs_go k (String c (pre ++ String a (String b "") ++ post))).
    cbn [match_refs_go]. destruct k.
    + apply IH. intros [=].
    + destruct (pre ++ String a (String b "") ++ post) as [|d rest] eqn:E.
      { destruct pre; discriminate. }
      destruct (is_col_letter c && is_row_digit d) eqn:M.
      * right. rewrite <- E. apply IH. intros _ c' rest' E'.
        rewrite E in E'. injection E' as <- <-.
        apply andb_true_iff in M as [_ Hd].
        destruct (is_col_letter d) eqn:Hl; [|done].
        destruct (col_letter_not_row_digit d Hl Hd).
      * rewrite <- E. apply IH. intros [=].
Qed.

Lemma match_refs_tokens text r : r ∈ match_refs text <-> is_ref r ∧ occurs r text.
Proof.
  split.
  - intros H. split; [by eapply match_refs_is_ref|by eapply match_refs_go_occurs].
  - intros [Hr (pre & post & ->)]. apply (match_refs_go_complete r Hr pre false post).
    intros [=].
Qed.

Lemma formula_refs_tokens text r :
  r ∈ formula_refs text <-> is_formula text = true ∧ is_ref r ∧ occurs r (trim text).
Proof.
  unfold formula_refs. destruct (is_formula text).
  - rewrite match_refs_tokens. tauto.
  - rewrite elem_of_nil. split; [done|]. by intros [[=] _].
Qed.

(** C8 (as amended): the pattern of line 77 is fixed.  The references it
    finds in a text are exactly the tokens of a letter from A to E and a
    digit from 1 to 5 that occur in the text, every occurrence included; the
    references of a raw text are these tokens of the trimmed text when it is
    a formula, and none otherwise; such a token alone is read as itself; the
    tokens are the identifiers of the 5 by 5 grid; and in the states of every
    grid, whatever its size, the dependencies of a cell are exactly the
    tokens that occur in its formula. *)
Theorem reference_pattern_fixed run :
  (∀ text r, r ∈ match_refs text <-> is_ref r ∧ occurs r text)
  ∧ (∀ text r, r ∈ formula_refs text
               <-> is_formula text = true ∧ is_ref r ∧ occurs r (trim text))
  ∧ (∀ r, is_ref r -> match_refs r = [r])
  ∧ (∀ r, is_ref r <-> is_Some (grid5 !! r))
  ∧ (∀ (s : sheet) a ca r, reachable run s -> s !! a = Some ca ->
       (r ∈ dependencies ca
        <-> is_formula (raw ca) = true ∧ is_ref r ∧ occurs r (trim (raw ca)))).
Proof.
  split; [apply match_refs_tokens|]. split; [apply formula_refs_tokens|].
  split; [apply match_refs_of_ref|]. split; [apply is_ref_grid5|].
  intros s a ca r Hr Ha. rewrite <- formula_refs_tokens. split.
  - by apply (reachable_deps_sound run s Hr a ca r).
  - intros H. by apply (reachable_linked run s Hr a ca r Ha).
Qed.

(** C8 (the claim as stated fails): the 6 by 6 grid has the cell [F6], but
    [F6] is not read as a reference, so that [=F6+1] is an invalid formula
    even when [F6] holds 7; and the 2 by 2 grid has no cell [E5], but [E5]
    is read as a reference. *)
Lemma pattern_ignores_grid_size :
  (∃ s, foldl (λ o call,
                 match o with
                 | Done t => setCell reference_engine 40 2000 call.1 call.2 t
                 | other => other
                 end) (Done (Spreadsheet 6 6)) [("F6", "7"); ("A1", "=F6+1")] = Done s
        ∧ shown s "F6" = (VNum 7, Some None)
        ∧ match_refs "=F6+1" = []
        ∧ shown s "A1" = (VStr "#ERR", Some (Some "Invalid formula")))
  ∧ Spreadsheet 2 2 !! "E5" = None
  ∧ match_refs "=E5" = ["E5"].
Proof.
  split; [|split; vm_compute; reflexivity].
  assert (match foldl (λ o call,
                 match o with
                 | Done t => setCell reference_engine 40 2000 call.1 call.2 t
                 | other => other
                 end) (Done (Spreadsheet 6 6)) [("F6", "7"); ("A1", "=F6+1")] with
          | Done s => Some (shown s "F6", shown s "A1")
          | _ => None
          end = Some ((VNum 7, Some None), (VStr "#ERR", Some (Some "Invalid formula")))) as H
    by (vm_compute; reflexivity).
  apply outcome_bind_inv in H as (s & Hs & H).
  exists s. split; [done|]. split; [congruence|]. split; [reflexivity|congruence].
Qed.

(** ** Two runs on tables with the same edges *)

Lemma touched_alike_refl s t : same_frames s t -> touched_alike s t s t.
Proof. intros H. split; [done|]. intros k. by right. Qed.

Lemma touched_alike_trans s t s1 t1 s2 t2 :
  touched_alike s t s1 t1 -> touched_alike s1 t1 s2 t2 -> touched_alike s t s2 t2.
Proof.
  intros [_ H1] [Hf H2]. split; [done|]. intros k.
  destruct (H2 k) as [E|[E1 E2]]; [by left|].
  destruct (H1 k) as [E|[E3 E4]]; [left; congruence|right; split; congruence].
Qed.

Lemma same_frames_store2 s t id v e :
  same_frames s t -> same_frames (store id v e s) (store id v e t).
Proof.
  intros H k. rewrite !store_lookup. specialize (H k).
  destruct (s !! k) as [c|], (t !! k) as [c'|]; simpl in *; try done.
  injection H as H1 H2 H3. destruct (decide (k = id)); unfold frame; simpl; congruence.
Qed.

Lemma touched_alike_store s t id v e :
  same_frames s t -> touched_alike s t (store id v e s) (store id v e t).
Proof.
  intros H. split; [by apply same_frames_store2|]. intros k. rewrite !store_lookup.
  pose proof (H k) as Hk.
  destruct (s !! k) as [c|], (t !! k) as [c'|]; simpl in *; try done; [|by left].
  destruct (decide (k = id)); [by left|by right].
Qed.

Lemma same_frames_add_edge2 s t id ref :
  same_frames s t -> same_frames (add_edge id s ref) (add_edge id t ref).
Proof.
  intros H k. rewrite !add_edge_lookup. specialize (H k).
  destruct (s !! k) as [c|], (t !! k) as [c'|]; simpl in *; try done.
  injection H as H1 H2 H3.
  destruct (decide (k = ref)), (decide (k = id)); unfold frame; simpl; congruence.
Qed.

Lemma add_edge_vals id (s : sheet) ref k : vals <$> add_edge id s ref !! k = vals <$> s !! k.
Proof.
  rewrite add_edge_lookup. destruct (s !! k); [|done]. simpl.
  by destruct (decide (k = ref)), (decide (k = id)).
Qed.

Lemma touched_alike_foldl_add_edge id refs :
  ∀ s t, same_frames s t ->
    touched_alike s t (foldl (add_edge id) s refs) (foldl (add_edge id) t refs).
Proof.
  induction refs as [|r refs IH]; intros s t H; simpl; [by apply touched_alike_refl|].
  eapply touched_alike_trans; [|apply IH, same_frames_add_edge2, H].
  split; [by apply same_frames_add_edge2|]. intros k. right. by rewrite !add_edge_vals.
Qed.

Lemma same_frames_slot s t k :
  same_frames s t ->
  match lookup_slot s k, lookup_slot t k with
  | Own c, Own c' => raw c = raw c'
  | Inherited, Inherited | Absent, Absent => True
  | _, _ => False
  end.
Proof.
  intros H. specialize (H k). unfold lookup_slot.
  destruct (s !! k) as [c|], (t !! k) as [c'|]; simpl in *; try done.
  - by injection H.
  - by destruct (bool_decide _).
Qed.

Lemma getCell_vals (s t : sheet) k :
  vals <$> s !! k = vals <$> t !! k -> getCell s k = getCell t k.
Proof.
  unfold getCell, lookup_slot. intros H.
  destruct (s !! k) as [c|], (t !! k) as [c'|]; simpl in *; try done.
  by injection H.
Qed.

Lemma ref_value_vals (s t : sheet) k :
  vals <$> s !! k = vals <$> t !! k -> ref_value s k = ref_value t k.
Proof. intros H. unfold ref_value. by rewrite (getCell_vals s t k H). Qed.

Lemma sim_substitute (ev : string -> estate -> outcome estate) refs :
  (∀ r s t v, same_frames s t ->
     sim_outcome (ev r (s, v)) (ev r (t, v))
       (λ s' t', touched_alike s t s' t' ∧ vals <$> s' !! r = vals <$> t' !! r)) ->
  ∀ expr s t v, same_frames s t ->
    match substitute ev refs expr (s, v), substitute ev refs expr (t, v) with
    | Done (e1, (s', v1)), Done (e2, (t', v2)) =>
        e1 = e2 ∧ v1 = v2 ∧ touched_alike s t s' t'
    | Throws m1 (_, (s', v1)), Throws m2 (_, (t', v2)) =>
        m1 = m2 ∧ v1 = v2 ∧ touched_alike s t s' t'
    | OutOfFuel, OutOfFuel => True
    | _, _ => False
    end.
Proof.
  intros Hev. induction refs as [|r refs IH]; intros expr s t v H; simpl.
  { split; [done|]. split; [done|]. by apply touched_alike_refl. }
  specialize (Hev r s t v H). unfold sim_outcome in Hev.
  destruct (ev r (s, v)) as [[s1 v1]|m1 [s1 v1]|], (ev r (t, v)) as [[t1 v2]|m2 [t1 v2]|];
    try done.
  - destruct Hev as (<- & Ht & Hr). rewrite (ref_value_vals s1 t1 r Hr).
    specialize (IH (replaceAll r ("(" ++ to_text (ref_value t1 r) ++ ")") expr) s1 t1 v1 (proj1 Ht)).
    destruct (substitute ev refs _ (s1, v1)) as [[e1 [s2 w1]]|n1 [e1 [s2 w1]]|],
             (substitute ev refs _ (t1, v1)) as [[e2 [t2 w2]]|n2 [e2 [t2 w2]]|]; try done.
    + destruct IH as (? & ? & ?). split; [done|]. split; [done|].
      by eapply touched_alike_trans.
    + destruct IH as (? & ? & ?). split; [done|]. split; [done|].
      by eapply touched_alike_trans.
  - destruct Hev as (<- & <- & Ht & _). done.
Qed.

Lemma store_vals_same (s t : sheet) id v e :
  same_frames s t -> vals <$> store id v e s !! id = vals <$> store id v e t !! id.
Proof.
  intros H. rewrite !store_lookup. specialize (H id).
  destruct (s !! id), (t !! id); simpl in *; try done. by rewrite !decide_True.
Qed.

(** Evaluation of a cell on two tables with the same edges: the two calls
    end the same way, write the same values, and leave the cell itself with
    the same value and error. *)
Lemma sim_evaluateCell run fuel :
  ∀ x s t v, same_frames s t ->
    sim_outcome (evaluateCell run fuel x (s, v)) (evaluateCell run fuel x (t, v))
      (λ s' t', touched_alike s t s' t' ∧ vals <$> s' !! x = vals <$> t' !! x).
Proof.
  induction fuel as [|fuel IH]; intros x s t v H; [done|]. simpl.
  pose proof (same_frames_slot s t x H) as Hslot.
  destruct (lookup_slot s x) as [c| |] eqn:Hs, (lookup_slot t x) as [c'| |] eqn:Ht; try done.
  - rewrite <- Hslot.
    destruct (decide (x ∈ v)); simpl.
    { split; [done|]. split; [by apply touched_alike_store|by apply store_vals_same]. }
    destruct (startsWith "=" (trim (raw c))); simpl.
    2:{ split; [done|]. split; [by apply touched_alike_store|by apply store_vals_same]. }
    pose proof (touched_alike_foldl_add_edge x (match_refs (trim (raw c))) s t H) as H0.
    pose proof (sim_substitute (evaluateCell run fuel) (match_refs (trim (raw c))) IH
                  (slice1 (trim (raw c))) _ _ (v ∪ {[x]}) (proj1 H0)) as Hsub.
    destruct (substitute _ _ _ (foldl (add_edge x) s _, _)) as [[e1 [s1 v1]]|m1 [e1 [s1 v1]]|],
             (substitute _ _ _ (foldl (add_edge x) t _, _)) as [[e2 [t1 v2]]|m2 [e2 [t1 v2]]|];
      try done; simpl.
    + destruct Hsub as (<- & <- & H1). split; [done|].
      pose proof (touched_alike_trans _ _ _ _ _ _ H0 H1) as H2.
      destruct (valid_expr e1); [destruct (run e1)|];
        (split; [eapply touched_alike_trans; [exact H2|apply touched_alike_store, H1]
                |apply store_vals_same, H1]).
    + destruct Hsub as (<- & <- & H1). split; [done|].
      pose proof (touched_alike_trans _ _ _ _ _ _ H0 H1) as H2.
      split; [eapply touched_alike_trans; [exact H2|apply touched_alike_store, H1]
             |apply store_vals_same, H1].
  - destruct (decide (x ∈ v)); simpl.
    + split; [done|]. split; [by apply touched_alike_refl|].
      unfold lookup_slot in Hs, Ht. by destruct (s !! x), (t !! x).
    + split; [done|]. split; [done|]. split; [by apply touched_alike_refl|].
      unfold lookup_slot in Hs, Ht. by destruct (s !! x), (t !! x).
  - split; [done|]. split; [by apply touched_alike_refl|].
    unfold lookup_slot in Hs, Ht.
    destruct (s !! x), (t !! x); try done.
Qed.

Lemma same_frames_dependents (s t : sheet) (id : string) (i : nat) :
  same_frames s t ->
  s !! id ≫= (λ c, dependents c !! i) = t !! id ≫= (λ c, dependents c !! i).
Proof.
  intros H. specialize (H id).
  destruct (s !! id) as [c|], (t !! id) as [c'|]; simpl in *; try done.
  injection H as _ _ H. by rewrite H.
Qed.

Lemma sim_updateDependents run efuel fuel :
  (∀ id s t v, same_frames s t ->
     sim_outcome (updateDependents run efuel fuel id (s, v))
                 (updateDependents run efuel fuel id (t, v)) (touched_alike s t))
  ∧ (∀ id i s t v, same_frames s t ->
     sim_outcome (upd_loop run efuel fuel id i (s, v))
                 (upd_loop run efuel fuel id i (t, v)) (touched_alike s t)).
Proof.
  induction fuel as [|fuel [IHu IHl]]; split; intros; try done; simpl.
  - destruct (decide (id ∈ v)); [split; [done|by apply touched_alike_refl]|].
    pose proof (same_frames_slot s t id H) as Hslot.
    destruct (lookup_slot s id), (lookup_slot t id); try done.
    + by apply IHl.
    + split; [done|]. split; [done|]. by apply touched_alike_refl.
    + split; [done|]. split; [done|]. by apply touched_alike_refl.
  - rewrite <- (same_frames_dependents s t id i H).
    destruct (s !! id ≫= _) as [dep|]; [|split; [done|by apply touched_alike_refl]].
    pose proof (sim_evaluateCell run efuel dep s t ∅ H) as He. unfold sim_outcome in He.
    destruct (evaluateCell run efuel dep (s, ∅)) as [[s1 v1]|m1 [s1 v1]|],
             (evaluateCell run efuel dep (t, ∅)) as [[t1 v2]|m2 [t1 v2]|]; try done.
    + destruct He as (_ & H1 & _).
      pose proof (IHu dep s1 t1 v (proj1 H1)) as Hu. unfold sim_outcome in Hu.
      destruct (updateDependents run efuel fuel dep (s1, v)) as [[s2 w1]|n1 [s2 w1]|],
               (updateDependents run efuel fuel dep (t1, v)) as [[t2 w2]|n2 [t2 w2]|]; try done.
      * destruct Hu as (<- & H2).
        pose proof (IHl id (S i) s2 t2 w1 (proj1 H2)) as Hl. unfold sim_outcome in Hl.
        pose proof (touched_alike_trans _ _ _ _ _ _ H1 H2) as H12.
        destruct (upd_loop run efuel fuel id (S i) (s2, w1)) as [[s3 u1]|k1 [s3 u1]|],
                 (upd_loop run efuel fuel id (S i) (t2, w1)) as [[t3 u2]|k2 [t3 u2]|]; try done.
        -- destruct Hl as (<- & H3). split; [done|]. by eapply touched_alike_trans.
        -- destruct Hl as (<- & <- & H3). split; [done|]. split; [done|].
           by eapply touched_alike_trans.
      * destruct Hu as (<- & <- & H2). split; [done|]. split; [done|].
        by eapply touched_alike_trans.
    + destruct He as (<- & _ & H1 & _). split; [done|]. split; [done|]. done.
Qed.

(** ** Setting the same text again starts from the same edges *)

Lemma foldl_add_edge_lists id refs :
  ∀ (s : sheet) k c', foldl (add_edge id) s refs !! k = Some c' ->
    ∃ c, s !! k = Some c
         ∧ (k ≠ id -> dependencies c' = dependencies c)
         ∧ (dependents c' = dependents c
            ∨ ((id ∉ dependents c) ∧ dependents c' = (dependents c ++ [id])%list)).
Proof.
  induction refs as [|ref refs IH]; intros s k c' H; simpl in H.
  - exists c'. auto.
  - destruct (IH _ k c' H) as (c1 & H1 & Hd & Hp).
    rewrite add_edge_lookup in H1. destruct (s !! k) as [c|] eqn:Hk; [|done].
    injection H1 as <-. exists c. split; [done|]. split.
    + intros Hne. rewrite (Hd Hne). destruct (decide (k = ref)); by rewrite decide_False.
    + destruct (decide (k = ref)), (decide (k = id)); simpl in *; try done;
        unfold set_add in *; destruct (decide (id ∈ dependents c)); try done;
        destruct Hp as [Hp|[Hn Hp]]; auto;
        exfalso; apply Hn; rewrite elem_of_app, list_elem_of_singleton; auto.
Qed.

Lemma detach_no_dependents s id text cell k c :
  edges_mutual s -> s !! id = Some cell ->
  detach id text cell s !! k = Some c -> id ∉ dependents c.
Proof.
  intros Hm Hid. rewrite (detach_lookup _ _ _ _ _ Hid).
  destruct (s !! k) as [ck|] eqn:Hk; simpl; [|done]. intros [= <-].
  pose proof (Hm id k cell ck Hid Hk) as Hmk.
  destruct (decide (k = id)), (decide (k ∈ dependencies cell)); simpl;
    rewrite ?set_delete_elem; tauto.
Qed.

Lemma filter_absent (x : string) (l : list string) : x ∉ l -> set_delete x l = l.
Proof.
  unfold set_delete. induction l as [|y l IH]; intros H; [done|].
  apply not_elem_of_cons in H as [H1 H2].
  rewrite filter_cons_True by congruence. by rewrite IH.
Qed.

Lemma filter_appended (x : string) (l : list string) :
  x ∉ l -> set_delete x (l ++ [x])%list = l.
Proof.
  intros H. unfold set_delete. rewrite filter_app.
  fold (set_delete x l). rewrite (filter_absent x l H).
  rewrite filter_cons_False by (intros ?; done). by rewrite app_nil_r.
Qed.

Lemma detach_link_detach s id text cell s' cell' :
  edges_mutual s -> s !! id = Some cell ->
  same_frames (link id (detach id text cell s)) s' -> s' !! id = Some cell' ->
  same_frames (detach id text cell s) (detach id text cell' s').
Proof.
  intros Hm Hid Hf Hid'. set (d := detach id text cell s) in *.
  assert (∃ cd, d !! id = Some cd ∧ raw cd = text ∧ dependencies cd = []) as (cd & Hcd & Hrd & Hdd).
  { unfold d. rewrite (detach_lookup _ _ _ _ _ Hid), Hid. simpl. rewrite decide_True by done.
    eexists. split; [done|]. by destruct (decide _). }
  assert (∀ r, r ∈ dependencies cell' <-> r ∈ formula_refs text) as Hdeps.
  { intros r. pose proof (Hf id) as E. rewrite Hid' in E. simpl in E.
    destruct (link id d !! id) as [cl|] eqn:Hl; [|done]. injection E as _ E _.
    destruct (link_lookup id d id cl Hl) as (c0 & Hc0 & _ & Hd0 & _).
    assert (c0 = cd) as -> by congruence.
    rewrite E, Hd0, Hdd, Hrd, elem_of_nil. tauto. }
  intros k. rewrite (detach_lookup _ _ _ _ _ Hid').
  pose proof (Hf k) as E.
  destruct (s' !! k) as [c'|] eqn:Hk'; simpl in *.
  2:{ destruct (link id d !! k) as [cl|] eqn:Hl; [done|].
      destruct (d !! k) as [ck|] eqn:Hk; [|done].
      assert (is_Some (link id d !! k)) as [? ?]; [|congruence].
      apply elem_of_dom. unfold link. rewrite Hcd, dom_foldl_add_edge.
      by apply elem_of_dom. }
  destruct (link id d !! k) as [cl|] eqn:Hl; [|done]. injection E as E1 E2 E3.
  unfold link in Hl. rewrite Hcd in Hl.
  destruct (foldl_add_edge_lists id _ d k cl Hl) as (ck & Hk & Hdk & Hpk).
  destruct (foldl_add_edge_spec id _ d k cl Hl) as (ck2 & Hk2 & Hraw & _ & Hmem).
  assert (ck2 = ck) as -> by congruence. rewrite Hk. simpl. f_equal.
  pose proof (detach_no_dependents s id text cell k ck Hm Hid Hk) as Hno.
  unfold frame. destruct (decide (k = id)) as [->|Hne].
  - assert (ck = cd) as -> by congruence. simpl.
    rewrite Hrd, Hdd. f_equal.
    destruct (decide (id ∈ dependencies cell')) as [Hin|Hnin]; simpl; rewrite E3.
    + destruct Hpk as [Hp|[_ Hp]]; rewrite Hp; [by apply filter_absent|by apply filter_appended].
    + destruct Hpk as [Hp|[_ Hp]]; [by rewrite Hp|].
      exfalso. apply Hnin, Hdeps. rewrite <- Hrd.
      assert (id ∈ dependents cl) as Hi by (rewrite Hp; set_solver).
      apply Hmem in Hi as [?|[_ ?]]; done.
  - assert (dependencies c' = dependencies ck) as Hds by (rewrite E2; auto).
    destruct (decide (k ∈ dependencies cell')) as [Hin|Hnin]; simpl; rewrite E1, Hraw, Hds, E3.
    + f_equal. destruct Hpk as [Hp|[_ Hp]]; rewrite Hp;
        [by apply filter_absent|by apply filter_appended].
    + f_equal. destruct Hpk as [Hp|[_ Hp]]; [by rewrite Hp|].
      exfalso. apply Hnin, Hdeps. rewrite <- Hrd.
      assert (id ∈ dependents cl) as Hi by (rewrite Hp; set_solver).
      apply Hmem in Hi as [?|[_ ?]]; done.
Qed.

(** ** C9: setting the same text twice *)

Lemma detach_vals id text cell (s : sheet) k :
  s !! id = Some cell -> k ≠ id -> vals <$> detach id text cell s !! k = vals <$> s !! k.
Proof.
  intros Hid Hk. rewrite (detach_lookup _ _ _ _ _ Hid).
  destruct (s !! k) as [c|]; [|done]. simpl. rewrite decide_False by done.
  by destruct (decide _).
Qed.

Lemma shown_vals (s t : sheet) k : vals <$> s !! k = vals <$> t !! k -> shown s k = shown t k.
Proof.
  intros H. unfold shown. rewrite (getCell_vals s t k H). f_equal.
  destruct (s !! k), (t !! k); simpl in *; try done. by injection H as _ ->.
Qed.

Lemma reachable_mutual run s : reachable run s -> edges_mutual s.
Proof. induction 1; [apply edges_mutual_new|by eapply edges_mutual_setCell]. Qed.

Lemma setCell_again run efuel fuel id text s cell s1 :
  linked s -> edges_mutual s -> s !! id = Some cell ->
  setCell run efuel fuel id text s = Done s1 ->
  ∃ s2, setCell run efuel fuel id text s1 = Done s2 ∧ ∀ k, shown s2 k = shown s1 k.
Proof.
  intros Hl Hm Hid H1.
  pose proof (setCell_frames run efuel fuel id text s cell s1 Hl Hid H1) as Hf.
  assert (is_Some (s1 !! id)) as [cell' Hid'].
  { apply elem_of_dom. rewrite (setCell_dom _ _ _ _ _ _ _ H1). by apply elem_of_dom. }
  pose proof (detach_link_detach s id text cell s1 cell' Hm Hid Hf Hid') as Hd.
  unfold setCell in *.
  rewrite (proj2 (lookup_slot_Own s id cell) Hid) in H1.
  rewrite (proj2 (lookup_slot_Own s1 id cell') Hid').
  pose proof (sim_evaluateCell run efuel id _ _ ∅ Hd) as He. unfold sim_outcome in He.
  destruct (evaluateCell run efuel id (detach id text cell s, ∅)) as [[a1 w1]|? [? ?]|];
    [|done|done].
  destruct (evaluateCell run efuel id (detach id text cell' s1, ∅)) as [[a2 w2]|? [? ?]|];
    [|done|done].
  destruct He as (_ & Ha & Hida).
  pose proof (proj1 (sim_updateDependents run efuel fuel) id a1 a2 ∅ (proj1 Ha)) as Hu.
  unfold sim_outcome in Hu.
  destruct (updateDependents run efuel fuel id (a1, ∅)) as [[b1 u1]|? [? ?]|]; [|done|done].
  injection H1 as ->.
  destruct (updateDependents run efuel fuel id (a2, ∅)) as [[b2 u2]|? [? ?]|]; [|done|done].
  destruct Hu as (_ & Hb). exists b2. split; [done|].
  intros k. apply shown_vals.
  destruct (decide (k = id)) as [->|Hk].
  - destruct (proj2 Hb id) as [E|[E1 E2]]; congruence.
  - destruct (proj2 Hb k) as [E|[E1 E2]]; [done|].
    destruct (proj2 Ha k) as [E|[E3 E4]]; [congruence|].
    rewrite E2, E4. by apply detach_vals.
Qed.

(** C9: in every state of a grid, [setCell] with some identifier and text
    returns (or, on an inherited name, throws and leaves the table as it
    was), and the same call made again at once returns and leaves every cell
    with the value and the error it had after the first call. *)
Theorem set_idempotent run s id text efuel fuel :
  reachable run s -> size (dom s) < efuel -> (fuel_for (size (dom s)) <= fuel)%nat ->
  (lookup_slot s id ≠ Inherited ->
     ∃ s1 s2, setCell run efuel fuel id text s = Done s1
              ∧ setCell run efuel fuel id text s1 = Done s2
              ∧ ∀ k, shown s2 k = shown s1 k)
  ∧ (lookup_slot s id = Inherited ->
     ∃ m, setCell run efuel fuel id text s = Throws m s).
Proof.
  intros Hr He Hf. split.
  - intros Hslot.
    destruct (setCell_total run efuel fuel id text s) as (s1 & H1 & _); auto.
    { by apply reachable_dependents_ok in Hr. }
    destruct (s !! id) as [cell|] eqn:Hid.
    + destruct (setCell_again run efuel fuel id text s cell s1) as (s2 & H2 & H3); auto.
      { by eapply reachable_linked. }
      { by eapply reachable_mutual. }
      by exists s1, s2.
    + assert (id ∉ inherited_names) as Hn.
      { intros Hin. apply Hslot. unfold lookup_slot. rewrite Hid.
        by rewrite bool_decide_eq_true_2. }
      assert (setCell run efuel fuel id text s = Done s) as E.
      { unfold setCell, lookup_slot. rewrite Hid. by rewrite bool_decide_eq_false_2. }
      by exists s, s.
  - intros Hslot. unfold setCell. rewrite Hslot. by eexists.
Qed.

Lemma state_after_reachable calls : reachable reference_engine (state_after calls).
Proof.
  unfold state_after.
  destruct (setCells reference_engine calls grid5) as [s| |] eqn:E;
    [|apply reachable_new..].
  eapply setCells_reachable; [apply reachable_new|exact E].
Qed.

Lemma set_idempotent_witness :
  ∃ s1 s2,
    setCell reference_engine efuel5 fuel5 "B1" "=A1+C1"
      (state_after [("A1", "=B1+1"); ("C1", "=B1*2"); ("D1", "=C1+A1")]) = Done s1
    ∧ setCell reference_engine efuel5 fuel5 "B1" "=A1+C1" s1 = Done s2
    ∧ ∀ k, shown s2 k = shown s1 k.
Proof.
  apply (set_idempotent reference_engine _ "B1" "=A1+C1" efuel5 fuel5).
  - apply state_after_reachable.
  - vm_compute. lia.
  - vm_compute. lia.
  - vm_compute. discriminate.
Defined.

(** ** C2: propagation on sheets without reference cycles *)

#[local] Arguments substituted : simpl never.

Lemma substituted_ext (s t : sheet) refs body :
  (∀ r, r ∈ refs -> vals <$> s !! r = vals <$> t !! r) ->
  substituted s refs body = substituted t refs body.
Proof.
  unfold substituted. revert body.
  induction refs as [|r refs IH]; intros body H; simpl; [done|].
  rewrite (ref_value_vals s t r) by (apply H; by left).
  apply IH. intros r' Hr'. apply H. by right.
Qed.

Lemma substituted_snoc (s : sheet) refs r body :
  substituted s (refs ++ [r]) body
  = replaceAll r ("(" ++ to_text (ref_value s r) ++ ")") (substituted s refs body).
Proof. unfold substituted. by rewrite foldl_app. Qed.

Lemma own_result_ext run (s t : sheet) c :
  raw <$> s !! c = raw <$> t !! c ->
  (∀ cell r, s !! c = Some cell -> r ∈ formula_refs (raw cell) ->
     vals <$> s !! r = vals <$> t !! r) ->
  own_result run s c = own_result run t c.
Proof.
  intros Hraw Hrefs. unfold own_result.
  destruct (s !! c) as [cs|] eqn:Hs, (t !! c) as [ct|] eqn:Ht; simpl in *; try done.
  injection Hraw as Hraw. rewrite <- Hraw.
  destruct (startsWith "=" (trim (raw cs))) eqn:F; simpl; [|done].
  rewrite (substituted_ext s t); [done|].
  intros r Hr. apply (Hrefs cs r eq_refl). unfold formula_refs, is_formula. by rewrite F.
Qed.

Lemma store_vals_other id v e (s : sheet) k :
  k ≠ id -> vals <$> store id v e s !! k = vals <$> s !! k.
Proof.
  intros H. rewrite store_lookup. destruct (s !! k); [|done]. simpl.
  by rewrite decide_False.
Qed.

Lemma store_vals_at id v e (s : sheet) c :
  s !! id = Some c -> vals <$> store id v e s !! id = Some (v, e).
Proof. intros H. rewrite store_lookup, H. simpl. by rewrite decide_True. Qed.

(** Storing in a cell what its raw text stands for, once all its
    references are settled, settles the cell and disturbs no settled cell. *)
Lemma settle_store run s W x cell v e :
  settled run s W -> s !! x = Some cell ->
  (∀ r, r ∈ formula_refs (raw cell) -> r ∈ W) ->
  own_result run s x = Some (v, e) ->
  settled run (store x v e s) (W ∪ {[x]})
  ∧ ∀ k, k ∈ W -> vals <$> store x v e s !! k = vals <$> s !! k.
Proof.
  intros Hs Hx Hrefs Hown.
  assert (∀ k, k ∈ W -> vals <$> store x v e s !! k = vals <$> s !! k) as Hkeep.
  { intros k Hk. destruct (decide (k = x)) as [->|Hne]; [|by apply store_vals_other].
    rewrite (store_vals_at x v e s cell Hx). destruct (Hs x Hk) as [Hc _].
    unfold consistent in Hc. congruence. }
  split; [|done]. intros c Hc.
  assert (∀ cc r, store x v e s !! c = Some cc -> r ∈ formula_refs (raw cc) -> r ∈ W) as Hcl.
  { intros cc r Hcc Hr. pose proof (store_raw x v e s c) as Hraw.
    rewrite Hcc in Hraw. simpl in Hraw.
    destruct (s !! c) as [c0|] eqn:Hc0; [|done]. injection Hraw as Hraw. rewrite Hraw in Hr.
    apply elem_of_union in Hc as [Hc|Hc].
    - by apply (proj2 (Hs c Hc) c0 r).
    - apply elem_of_singleton in Hc. subst c. apply Hrefs. congruence. }
  split; [|intros cc r Hcc Hr; apply elem_of_union; left; by eapply Hcl].
  unfold consistent.
  assert (own_result run (store x v e s) c = own_result run s c) as ->.
  { apply own_result_ext; [apply store_raw|].
    intros cc r Hcc Hr. destruct (decide (r = x)) as [->|Hne]; [|by apply store_vals_other].
    apply Hkeep. by eapply Hcl. }
  destruct (decide (c = x)) as [->|Hne].
  - by rewrite (store_vals_at x v e s cell Hx).
  - rewrite store_vals_other by done. apply elem_of_union in Hc as [Hc|Hc]; [|set_solver].
    apply (Hs c Hc).
Qed.

Lemma ranked_frames rank s t : same_frames s t -> ranked rank s -> ranked rank t.
Proof.
  intros Hf H id cell r Hid Hr.
  destruct (same_frames_lookup t s id cell (same_frames_sym _ _ Hf) Hid) as (c & Hc & E & _).
  apply (H id c r Hc). by rewrite E.
Qed.

Lemma settled_absent run (s : sheet) W x :
  settled run s W -> s !! x = None -> settled run s (W ∪ {[x]}).
Proof.
  intros Hs Hx c [Hc|Hc]%elem_of_union.
  - destruct (Hs c Hc) as [H1 H2]. split; [done|].
    intros cell r Hcell Hr. apply elem_of_union. left. by eapply H2.
  - apply elem_of_singleton in Hc as ->. split.
    + unfold consistent, own_result. by rewrite Hx.
    + intros cell r Hcell. congruence.
Qed.

Lemma substitute_settles run rank ev body w :
  settles run rank ev ->
  ∀ (refs seen : list string) expr s W,
    linked s -> ranked rank s -> settled run s W ->
    (∀ r, r ∈ seen -> r ∈ W) -> expr = substituted s seen body ->
    (∀ r u, r ∈ refs -> u ∈ w -> rank r < rank u) ->
    ∀ expr' s' w', substitute ev refs expr (s, w) = Done (expr', (s', w')) ->
      w' = w ∧ same_frames s s'
      ∧ ∃ W', W ⊆ W' ∧ (∀ r, r ∈ (seen ++ refs)%list -> r ∈ W') ∧ settled run s' W'
              ∧ (∀ k, k ∈ W -> vals <$> s' !! k = vals <$> s !! k)
              ∧ expr' = substituted s' (seen ++ refs)%list body.
Proof.
  intros Hev. induction refs as [|r refs IH];
    intros seen expr s W Hl Hrk Hs Hseen Hexpr Hrank expr' s' w' H; simpl in H.
  - injection H as <- <- <-. split; [done|]. split; [done|]. exists W.
    rewrite app_nil_r. auto.
  - destruct (ev r (s, w)) as [[s1 w1]|m st1|] eqn:E; [|done|done].
    destruct (Hev r s w W Hl Hrk Hs (λ u Hu, Hrank r u (list_elem_of_here _ _) Hu) s1 w1 E)
      as (-> & Hf1 & W1 & Hsub1 & Hr1 & Hs1 & Hk1).
    assert (replaceAll r ("(" ++ to_text (ref_value s1 r) ++ ")") expr
            = substituted s1 (seen ++ [r])%list body) as Hexpr1.
    { rewrite substituted_snoc, Hexpr. f_equal.
      apply substituted_ext. intros r' Hr'. symmetry. apply Hk1. auto. }
    destruct (IH (seen ++ [r])%list
                (replaceAll r ("(" ++ to_text (ref_value s1 r) ++ ")") expr) s1 W1)
      with (expr' := expr') (s' := s') (w' := w')
      as (-> & Hf2 & W2 & Hsub2 & Hr2 & Hs2 & Hk2 & He2).
    + by eapply linked_except_frames.
    + by eapply ranked_frames.
    + done.
    + intros r' [Hr'|Hr']%elem_of_app; [auto|]. apply list_elem_of_singleton in Hr' as ->. done.
    + done.
    + intros r' u Hr' Hu. apply Hrank; [by right|done].
    + done.
    + split; [done|]. split; [by eapply same_frames_trans|]. exists W2.
      rewrite <- app_assoc in Hr2, He2. simpl in Hr2, He2.
      split; [set_solver|]. split; [done|]. split; [done|]. split; [|done].
      intros k Hk. rewrite Hk2 by auto. by apply Hk1.
Qed.

Lemma own_result_formula run (s : sheet) x cell :
  s !! x = Some cell -> startsWith "=" (trim (raw cell)) = true ->
  own_result run s x
  = Some (let expr := substituted s (match_refs (trim (raw cell))) (slice1 (trim (raw cell))) in
          if valid_expr expr then
            match run expr with
            | Normal v => (v, None)
            | Abrupt m => (VStr "#ERR", Some m)
            end
          else (VStr "#ERR", Some "Invalid formula")).
Proof. intros Hx F. unfold own_result. by rewrite Hx, F. Qed.

Lemma evaluateCell_settles run rank fuel : settles run rank (evaluateCell run fuel).
Proof.
  induction fuel as [|fuel IH]; intros x s v W Hl Hrk Hs Hv s' v' H; [done|].
  simpl in H. destruct (lookup_slot s x) as [cell| |] eqn:Hslot.
  - apply lookup_slot_Own in Hslot.
    destruct (decide (x ∈ v)) as [Hxv|Hxv]; [specialize (Hv x Hxv); lia|].
    destruct (startsWith "=" (trim (raw cell))) eqn:F; simpl in H.
    2:{ injection H as <- <-. split; [by apply add_remove_visited|].
        split; [apply same_frames_store|].
        assert (formula_refs (raw cell) = []) as Hrefs.
        { unfold formula_refs, is_formula. by rewrite F. }
        destruct (settle_store run s W x cell (literal (trim (raw cell))) None Hs Hslot) as [H1 H2].
        { intros r. rewrite Hrefs. by rewrite elem_of_nil. }
        { unfold own_result. by rewrite Hslot, F. }
        exists (W ∪ {[x]}). split; [set_solver|]. split; [set_solver|]. done. }
    assert (formula_refs (raw cell) = match_refs (trim (raw cell))) as Hrefs.
    { unfold formula_refs, is_formula. by rewrite F. }
    rewrite (foldl_add_edge_fix x cell _ s Hl Hslot) in H by (intros r; by rewrite Hrefs).
    pose proof (substitute_outcome (evaluateCell run fuel) (match_refs (trim (raw cell)))
      (v ∪ {[x]})
      (λ r t Hr, evaluateCell_outcome run fuel r t _
         (lookup_slot_ref t r (match_refs_is_ref _ r Hr)))
      (slice1 (trim (raw cell))) s) as Hout.
    destruct (substitute (evaluateCell run fuel) (match_refs (trim (raw cell)))
                (slice1 (trim (raw cell))) (s, v ∪ {[x]}))
      as [[expr [s1 v1]]|m st1|] eqn:E; [|done|done].
    destruct (substitute_settles run rank (evaluateCell run fuel) (slice1 (trim (raw cell)))
                (v ∪ {[x]}) IH (match_refs (trim (raw cell))) [] (slice1 (trim (raw cell)))
                s W Hl Hrk Hs) with (expr' := expr) (s' := s1) (w' := v1)
      as (-> & Hf1 & W1 & Hsub1 & Hr1 & Hs1 & Hk1 & He1).
    { intros r. by rewrite elem_of_nil. }
    { done. }
    { intros r u Hr [Hu|Hu]%elem_of_union.
      - specialize (Hv u Hu). rewrite <- Hrefs in Hr. specialize (Hrk x cell r Hslot Hr). lia.
      - apply elem_of_singleton in Hu as ->. rewrite <- Hrefs in Hr.
        apply (Hrk x cell r Hslot Hr). }
    { done. }
    simpl in He1.
    destruct (same_frames_lookup s s1 x cell Hf1 Hslot) as (c1 & Hc1 & Hraw1 & _).
    pose proof (own_result_formula run s1 x c1 Hc1) as Hown.
    rewrite Hraw1 in Hown. specialize (Hown F). simpl in Hown. rewrite <- He1 in Hown.
    assert (∀ r, r ∈ formula_refs (raw c1) -> r ∈ W1) as Hcl.
    { intros r. rewrite Hraw1, Hrefs. apply Hr1. }
    assert (∀ v0 e0, own_result run s1 x = Some (v0, e0) ->
              (v ∪ {[x]}) ∖ {[x]} = v ∧ same_frames s (store x v0 e0 s1)
              ∧ ∃ W', W ⊆ W' ∧ x ∈ W' ∧ settled run (store x v0 e0 s1) W'
                      ∧ ∀ k, k ∈ W -> vals <$> store x v0 e0 s1 !! k = vals <$> s !! k) as Hfin.
    { intros v0 e0 Hv0. split; [by apply add_remove_visited|].
      split; [eapply same_frames_trans; [exact Hf1|apply same_frames_store]|].
      destruct (settle_store run s1 W1 x c1 v0 e0 Hs1 Hc1 Hcl Hv0) as [H1 H2].
      exists (W1 ∪ {[x]}). split; [set_solver|]. split; [set_solver|]. split; [done|].
      intros k Hk. rewrite H2 by auto. by apply Hk1. }
    injection H as <- <-.
    destruct (valid_expr expr); [destruct (run expr)|]; by apply Hfin.
  - destruct (decide (x ∈ v)) as [Hxv|Hxv]; [specialize (Hv x Hxv); lia|done].
  - injection H as <- <-. split; [done|]. split; [done|].
    exists (W ∪ {[x]}). split; [set_solver|]. split; [set_solver|]. split; [|done].
    apply settled_absent; [done|].
    unfold lookup_slot in Hslot. destruct (s !! x); [done|done].
Qed.

Lemma swept_frames s t V V' W : same_frames s t -> swept t V V' W -> swept s V V' W.
Proof.
  intros Hf H a ca b Ha Hna Hca Hb.
  destruct (same_frames_lookup s t a ca Hf Hca) as (c' & Hc' & _ & _ & E).
  apply (H a c' b); auto. by rewrite E.
Qed.

Lemma updateDependents_settles run rank efuel fuel :
  (∀ id s V W, linked s -> ranked rank s -> settled run s W ->
     ∀ s' V', updateDependents run efuel fuel id (s, V) = Done (s', V') ->
       same_frames s s' ∧ V ⊆ V' ∧ id ∈ V'
       ∧ ∃ W', W ⊆ W' ∧ settled run s' W' ∧ swept s V V' W')
  ∧ (∀ id i s V W, linked s -> ranked rank s -> settled run s W ->
     ∀ s' V', upd_loop run efuel fuel id i (s, V) = Done (s', V') ->
       same_frames s s' ∧ V ⊆ V'
       ∧ ∃ W', W ⊆ W' ∧ settled run s' W' ∧ swept s V V' W'
               ∧ ∀ ca j b, s !! id = Some ca -> (i <= j)%nat ->
                   dependents ca !! j = Some b -> b ∈ V' ∧ b ∈ W').
Proof.
  induction fuel as [|fuel [IHu IHl]]; [split; intros; simpl in *; done|].
  split.
  - intros id s V W H0 H1 H2 s' V' H. simpl in H.
    destruct (decide (id ∈ V)) as [Hin|Hin].
    { injection H as <- <-. split; [done|]. split; [done|]. split; [done|].
      exists W. split; [done|]. split; [done|]. intros a ca b Ha Hna. done. }
    destruct (lookup_slot s id) as [cell| |] eqn:Hslot; [|done|done].
    apply lookup_slot_Own in Hslot.
    destruct (IHl id 0 s (V ∪ {[id]}) W H0 H1 H2 s' V' H)
      as (Hf & Hsub & W' & HW & Hs' & Hsw & Hall).
    split; [done|]. split; [set_solver|]. split; [set_solver|].
    exists W'. split; [done|]. split; [done|].
    intros a ca b Ha Hna Hca Hb. destruct (decide (a = id)) as [->|Hne].
    + assert (ca = cell) as -> by congruence.
      apply list_elem_of_lookup in Hb as [j Hj].
      apply (Hall cell j b Hslot); [lia|done].
    + apply (Hsw a ca b); auto. set_solver.
  - intros id i s V W H0 H1 H2 s' V' H. simpl in H.
    destruct (s !! id ≫= (λ c, dependents c !! i)) as [dep|] eqn:Hdep.
    2:{ injection H as <- <-. split; [done|]. split; [done|].
        exists W. split; [done|]. split; [done|]. split; [by intros a ca b Ha Hna|].
        intros ca j b Hca Hij Hj. rewrite Hca in Hdep. simpl in Hdep.
        apply lookup_ge_None in Hdep. apply lookup_lt_Some in Hj. lia. }
    destruct (evaluateCell run efuel dep (s, ∅)) as [[s1 v1]|m [s1 v1]|] eqn:E1; [|done|done].
    destruct (evaluateCell_settles run rank efuel dep s ∅ W H0 H1 H2
                (λ u Hu, False_ind _ (not_elem_of_empty u Hu)) s1 v1 E1)
      as (_ & Hf1 & W1 & HW1 & Hd1 & Hs1 & _).
    destruct (updateDependents run efuel fuel dep (s1, V)) as [[s2 V1]|m [s2 V1]|] eqn:E2;
      [|done|done].
    destruct (IHu dep s1 V W1 (linked_except_frames _ _ _ Hf1 H0)
                (ranked_frames _ _ _ Hf1 H1) Hs1 s2 V1 E2)
      as (Hf2 & HV1 & Hdv & W2 & HW2 & Hs2 & Hsw2).
    pose proof (same_frames_trans _ _ _ Hf1 Hf2) as Hf12.
    destruct (IHl id (S i) s2 V1 W2 (linked_except_frames _ _ _ Hf12 H0)
                (ranked_frames _ _ _ Hf12 H1) Hs2 s' V' H)
      as (Hf3 & HV' & W3 & HW3 & Hs3 & Hsw3 & Hall).
    split; [by eapply same_frames_trans|]. split; [set_solver|].
    exists W3. split; [set_solver|]. split; [done|]. split.
    + intros a ca b Ha Hna Hca Hb. destruct (decide (a ∈ V1)) as [Ha1|Ha1].
      * destruct (swept_frames s s1 V V1 W2 Hf1 Hsw2 a ca b Ha1 Hna Hca Hb). set_solver.
      * apply (swept_frames s s2 V1 V' W3 Hf12 Hsw3 a ca b); auto.
    + intros ca j b Hca Hij Hj. destruct (decide (j = i)) as [->|Hne].
      * rewrite Hca in Hdep. simpl in Hdep. assert (b = dep) as -> by congruence.
        set_solver.
      * destruct (same_frames_lookup s s2 id ca Hf12 Hca) as (c2 & Hc2 & _ & _ & Ed).
        apply (Hall c2 j b Hc2); [lia|by rewrite Ed].
Qed.

Lemma settled_empty run s : settled run s ∅.
Proof. intros c Hc. by apply not_elem_of_empty in Hc. Qed.

Lemma setCell_propagates run rank efuel fuel id text s cell s' :
  linked s -> s !! id = Some cell ->
  setCell run efuel fuel id text s = Done s' -> ranked rank s' ->
  ∀ c, downstream s' id c -> consistent run s' c.
Proof.
  intros Hl Hid H Hrk.
  pose proof (setCell_frames run efuel fuel id text s cell s' Hl Hid H) as Hf.
  pose proof (linked_except_detach s id text cell Hid Hl) as Hd.
  pose proof (link_linked id _ Hd) as HL.
  set (L := link id (detach id text cell s)) in *.
  assert (ranked rank L) as HrL by (eapply ranked_frames; [apply same_frames_sym, Hf|done]).
  unfold setCell in H. rewrite (proj2 (lookup_slot_Own s id cell) Hid) in H.
  rewrite (evaluateCell_link run efuel id _ ∅ Hd (not_elem_of_empty _)) in H. fold L in H.
  destruct (evaluateCell run efuel id (L, ∅)) as [[s1 v1]|m [s1 v1]|] eqn:E1; [|done|done].
  destruct (evaluateCell_settles run rank efuel id L ∅ ∅ HL HrL (settled_empty run L)
              (λ u Hu, False_ind _ (not_elem_of_empty u Hu)) s1 v1 E1)
    as (_ & Hf1 & W1 & _ & Hid1 & Hs1 & _).
  destruct (updateDependents run efuel fuel id (s1, ∅)) as [[s2 V']|m [s2 V']|] eqn:E2;
    [|done|done].
  injection H as ->.
  destruct (proj1 (updateDependents_settles run rank efuel fuel) id s1 ∅ W1
              (linked_except_frames _ _ _ Hf1 HL) (ranked_frames _ _ _ Hf1 HrL) Hs1 s' V' E2)
    as (Hf2 & _ & HidV & W' & HW & Hs' & Hsw).
  pose proof (swept_frames s' s1 ∅ V' W' (same_frames_sym _ _ Hf2) Hsw) as Hsw'.
  assert (∀ a b, downstream s' a b -> a ∈ V' -> a ∈ W' -> b ∈ W') as Hreach.
  { intros a b Hab. induction Hab as [a|a b c (ca & Hca & Hb) _ IH]; [done|].
    intros Ha _. destruct (Hsw' a ca b Ha (not_elem_of_empty _) Hca Hb). by apply IH. }
  intros c Hc. apply (Hs' c). apply (Hreach id c Hc HidV). set_solver.
Qed.

Lemma ranked_b_spec rank s : ranked_b rank s = true -> ranked rank s.
Proof.
  unfold ranked_b. rewrite forallb_forall. intros H id cell r Hid Hr.
  specialize (H (id, cell)). simpl in H. rewrite forallb_forall in H.
  apply Nat.ltb_lt. apply H.
  - apply list_elem_of_In, elem_of_map_to_list. done.
  - by apply list_elem_of_In.
Qed.

(** C2 (as amended): with 1 in [A1] and [=A1+1] in [B1], which then shows
    2, setting [A1] to 10 makes [B1] show 11; and in every state of a grid,
    [setCell] on an existing cell returns, and if no formula then refers to
    itself through a chain of references, every cell reached from the cell
    along [dependents] edges holds the value and error that its raw text
    stands for over the values its references now hold. *)
Theorem propagation_complete run :
  (arithmetic_engine run ->
     (∃ s, setCells run [("A1", "1"); ("B1", "=A1+1")] grid5 = Done s
           ∧ shown s <$> ["A1"; "B1"] = [(VNum 1, Some None); (VNum 2, Some None)])
     ∧ (∃ s, setCells run [("A1", "1"); ("B1", "=A1+1"); ("A1", "10")] grid5 = Done s
             ∧ shown s <$> ["A1"; "B1"] = [(VNum 10, Some None); (VNum 11, Some None)]))
  ∧ (∀ s id text efuel fuel,
       reachable run s -> is_Some (s !! id) ->
       size (dom s) < efuel -> (fuel_for (size (dom s)) <= fuel)%nat ->
       ∃ s', setCell run efuel fuel id text s = Done s'
             ∧ (acyclic s' -> ∀ c, downstream s' id c -> consistent run s' c)).
Proof.
  split.
  - intros H. split; run_calls H.
  - intros s id text efuel fuel Hr [cell Hid] He Hf.
    destruct (setCell_total run efuel fuel id text s) as (s' & Hs' & _); auto.
    { by apply reachable_dependents_ok in Hr. }
    { by eapply lookup_slot_cell. }
    exists s'. split; [done|]. intros [rank Hrk].
    eapply setCell_propagates; eauto. by eapply reachable_linked.
Qed.

Lemma setCell_prepared run efuel fuel id text s s' :
  linked s -> is_Some (s !! id) ->
  setCell run efuel fuel id text s = Done s' -> same_frames (prepared id text s) s'.
Proof.
  intros Hl [cell Hid] H. unfold prepared. rewrite Hid. by eapply setCell_frames.
Qed.

Lemma is_Some_computed {A : Type} (o : option A) :
  (if o then true else false) = true -> is_Some o.
Proof. destruct o; [by eexists|done]. Qed.

Lemma propagation_complete_witness :
  ∃ s', setCell reference_engine efuel5 fuel5 "A1" "10"
          (state_after [("A1", "1"); ("B1", "=A1+1")]) = Done s'
        ∧ acyclic s' ∧ downstream s' "A1" "B1" ∧ consistent reference_engine s' "B1".
Proof.
  pose proof (state_after_reachable [("A1", "1"); ("B1", "=A1+1")]) as Hr.
  assert (is_Some (state_after [("A1", "1"); ("B1", "=A1+1")] !! "A1")) as Hid.
  { apply is_Some_computed. vm_compute. reflexivity. }
  destruct (proj2 (propagation_complete reference_engine) _ "A1" "10" efuel5 fuel5 Hr Hid)
    as (s' & Hs' & Hall).
  - vm_compute. lia.
  - vm_compute. lia.
  - pose proof (setCell_prepared reference_engine efuel5 fuel5 "A1" "10" _ s'
                  (reachable_linked _ _ Hr) Hid Hs') as Hf.
    set (rank := λ r : string, if String.eqb r "B1" then 1%nat else 0%nat).
    assert (ranked rank s') as Hrk.
    { eapply ranked_frames; [exact Hf|]. apply ranked_b_spec. vm_compute. reflexivity. }
    assert (downstream s' "A1" "B1") as Hd.
    { assert (dependents <$> prepared "A1" "10" (state_after [("A1", "1"); ("B1", "=A1+1")])
                !! "A1" = Some ["B1"]) as E by (vm_compute; reflexivity).
      destruct (prepared "A1" "10" _ !! "A1") as [cl|] eqn:El; [|done].
      injection E as E.
      destruct (same_frames_lookup _ _ "A1" cl Hf El) as (c' & Hc' & _ & _ & Ed).
      eapply rtc_l; [|apply rtc_refl]. exists c'. split; [done|].
      rewrite Ed, E. by left. }
    exists s'. split; [done|]. split; [by exists rank|]. split; [done|].
    apply Hall; [by exists rank|done].
Defined.

(** C2 (the claim as stated fails): after [A1 = "=B1+1"] and then
    [B1 = "=A1+1"], the cell [A1] is a dependent of [B1], the cell just set,
    and [B1] shows 2; but [A1] shows 1, where its formula over the value of
    [B1] stands for 3. *)
Lemma stale_value_in_cycle :
  ∃ s, setCells reference_engine [("A1", "=B1+1"); ("B1", "=A1+1")] grid5 = Done s
       ∧ dependents <$> s !! "B1" = Some ["A1"]
       ∧ vals <$> s !! "B1" = Some (VNum 2, None)
       ∧ vals <$> s !! "A1" = Some (VNum 1, None)
       ∧ own_result reference_engine s "A1" = Some (VNum 3, None).
Proof.
  assert (match setCells reference_engine [("A1", "=B1+1"); ("B1", "=A1+1")] grid5 with
          | Done s => Some (dependents <$> s !! "B1", vals <$> s !! "B1",
                            vals <$> s !! "A1", own_result reference_engine s "A1")
          | _ => None
          end = Some (Some ["A1"], Some (VNum 2, None), Some (VNum 1, None),
                      Some (VNum 3, None))) as H
    by (vm_compute; reflexivity).
  apply outcome_bind_inv in H as (s & Hs & H).
  exists s. split; [done|]. repeat split; congruence.
Qed.

(** ** What the cells of a reachable table can hold *)

Lemma substitute_loop (J : sheet -> Prop) (ev : string -> estate -> outcome estate) refs w :
  (∀ r s, r ∈ refs -> J s ->
     match ev r (s, w) with
     | Done (s', w') => w' = w ∧ J s'
     | Throws _ _ => False
     | OutOfFuel => True
     end) ->
  ∀ expr s, J s ->
    match substitute ev refs expr (s, w) with
    | Done (expr', (s', w')) => w' = w ∧ J s' ∧ (refs = [] -> expr' = expr)
    | Throws _ _ => False
    | OutOfFuel => True
    end.
Proof.
  induction refs as [|ref refs IH]; intros Hev expr s Hs; simpl; [done|].
  pose proof (Hev ref s (list_elem_of_here _ _) Hs) as H.
  destruct (ev ref (s, w)) as [[s1 w1]|m st|]; try done. destruct H as [-> H1].
  specialize (IH (λ r t Hr, Hev r t (list_elem_of_further _ _ _ Hr))
                 (replaceAll ref ("(" ++ to_text (ref_value s1 ref) ++ ")") expr) s1 H1).
  destruct (substitute _ _ _ _) as [[e2 [s2 w2]]|m st|]; try done.
  destruct IH as (? & ? & _). done.
Qed.

Section Shape.
Variable run : string -> completion.

(** [G raw value error]: a relation that holds of what the literal branch
    stores and of what the formula branch stores. *)
Variable G : string -> jsval -> option string -> Prop.
Hypothesis G_literal : ∀ text, is_formula text = false -> G text (literal (trim text)) None.
Hypothesis G_formula : ∀ text expr, is_formula text = true ->
  (match_refs (trim text) = [] -> expr = slice1 (trim text)) ->
  G text (result_of run expr).1 (result_of run expr).2.

Lemma shaped_weaken (s : sheet) (v w : gset string) : v ⊆ w -> shaped G (s, v) -> shaped G (s, w).
Proof. intros Hvw H k c Hk Hw. apply (H k c Hk). simpl in *. by intros ?%Hvw. Qed.

Lemma shaped_same (s t : sheet) (v : gset string) :
  (∀ k, k ∉ v -> (λ c, (raw c, value c, error c)) <$> t !! k
                 = (λ c, (raw c, value c, error c)) <$> s !! k) ->
  shaped G (s, v) -> shaped G (t, v).
Proof.
  intros Hst H k c Hk Hv. simpl in *. specialize (Hst k Hv). rewrite Hk in Hst. simpl in Hst.
  destruct (s !! k) as [c'|] eqn:E; [|done]. injection Hst as H1 H2 H3.
  rewrite H1, H2, H3. by apply (H k c').
Qed.

Lemma shaped_store (s : sheet) (v : gset string) id cell val e :
  s !! id = Some cell -> G (raw cell) val e ->
  shaped G (s, v ∪ {[id]}) -> shaped G (store id val e s, v).
Proof.
  intros Hid HG H k c Hk Hv. simpl in *. rewrite store_lookup in Hk.
  destruct (decide (k = id)) as [Hki|Hki].
  - subst k. rewrite Hid in Hk. injection Hk as <-. done.
  - destruct (s !! k) as [c'|] eqn:E; [|done]. injection Hk as <-.
    apply (H k c' E). simpl. clear -Hv Hki. set_solver.
Qed.

Lemma evaluateCell_shaped fuel :
  ∀ id s v, lookup_slot s id ≠ Inherited -> shaped G (s, v ∪ {[id]}) ->
    match evaluateCell run fuel id (s, v) with
    | Done (s', v') => v' = v ∧ shaped G (s', v)
    | Throws _ _ => False
    | OutOfFuel => True
    end.
Proof.
  induction fuel as [|fuel IH]; intros id s v Hslot Hs; simpl; [done|].
  destruct (lookup_slot s id) as [cell| |] eqn:Hid; [|done|].
  2:{ split; [done|]. intros k c Hk Hv. apply (Hs k c Hk). simpl in *.
      assert (k ≠ id) as Hne; [|clear -Hv Hne; set_solver]. intros ->. unfold lookup_slot in Hid. by rewrite Hk in Hid. }
  apply lookup_slot_Own in Hid.
  destruct (decide (id ∈ v)) as [Hv|Hv].
  { split; [done|]. intros k c Hk Hkv. simpl in *. rewrite store_lookup in Hk.
    destruct (s !! k) as [c'|] eqn:E; [|done]. simpl in Hk.
    rewrite decide_False in Hk by congruence. injection Hk as <-.
    apply (Hs k c' E). simpl. assert (k ≠ id) as Hne by congruence.
    clear -Hkv Hne. set_solver. }
  destruct (startsWith "=" (trim (raw cell))) eqn:F; simpl.
  { set (refs := match_refs (trim (raw cell))).
    set (J := λ t : sheet, shaped G (t, v ∪ {[id]}) ∧ raw <$> t !! id = Some (raw cell)).
    pose proof (substitute_loop J (evaluateCell run fuel) refs (v ∪ {[id]})) as H.
    assert (J (foldl (add_edge id) s refs)) as HJ0.
    { split.
      - eapply shaped_same; [|exact Hs]. intros k _. apply foldl_add_edge_shown.
      - by rewrite foldl_add_edge_raw, Hid. }
    assert (∀ r t, r ∈ refs -> J t ->
              match evaluateCell run fuel r (t, v ∪ {[id]}) with
              | Done (s', w') => w' = v ∪ {[id]} ∧ J s'
              | Throws _ _ => False
              | OutOfFuel => True
              end) as Hstep.
    { intros r t Hr [HJ1 HJ2].
      pose proof (IH r t (v ∪ {[id]}) (lookup_slot_ref t r (match_refs_is_ref _ r Hr))) as Hc.
      pose proof (evaluateCell_raw run fuel r (t, v ∪ {[id]})) as Hr'.
      destruct (evaluateCell run fuel r (t, v ∪ {[id]})) as [[t' w']|? ?|]; [| |done].
      - destruct Hc as [-> Hc]; [eapply shaped_weaken; [|exact HJ1]; apply union_subseteq_l|].
        split; [done|]. split; [done|]. rewrite (Hr' t' id eq_refl). exact HJ2.
      - apply Hc. eapply shaped_weaken; [|exact HJ1]. apply union_subseteq_l. }
    specialize (H Hstep (slice1 (trim (raw cell))) _ HJ0).
    destruct (substitute _ _ _ _) as [[expr [s1 v1]]|m st|]; [|done|done].
    destruct H as (-> & [H1 H2] & H3). rewrite add_remove_visited by done.
    split; [done|].
    destruct (s1 !! id) as [c1|] eqn:E1; [|done]. injection H2 as H2.
    pose proof (G_formula (raw c1) expr) as HG. rewrite H2 in HG.
    specialize (HG F H3). unfold result_of in HG.
    destruct (valid_expr expr); [destruct (run expr)|]; simpl in HG;
      (eapply shaped_store; [exact E1|by rewrite H2|exact H1]). }
  rewrite add_remove_visited by done. split; [done|].
  eapply shaped_store; [exact Hid| |exact Hs]. by apply G_literal.
Qed.

Lemma setCell_shaped efuel fuel id text s s' :
  shaped G (s, ∅) -> setCell run efuel fuel id text s = Done s' -> shaped G (s', ∅).
Proof.
  intros Hs. unfold setCell, lookup_slot.
  destruct (s !! id) as [cell|] eqn:Hid;
    [|destruct (bool_decide _); [done|by intros [= <-]]].
  assert (is_Some (detach id text cell s !! id)) as [c0 Hc0].
  { rewrite (detach_lookup _ _ _ _ _ Hid), Hid. done. }
  assert (shaped G (detach id text cell s, ∅ ∪ {[id]})) as H0.
  { intros k c Hk Hv. simpl in *.
    rewrite (detach_lookup _ _ _ _ _ Hid) in Hk.
    destruct (s !! k) as [c'|] eqn:E; [|done]. injection Hk as <-.
    rewrite decide_False by (clear -Hv; set_solver).
    pose proof (Hs k c' E (not_elem_of_empty _)) as HG.
    by destruct (decide (k ∈ dependencies cell)). }
  pose proof (evaluateCell_shaped efuel id (detach id text cell s) ∅
                (lookup_slot_cell _ _ _ Hc0) H0) as He.
  destruct (evaluateCell run efuel id _) as [[s1 v1]|m [s1 v1]|]; [|done|done].
  destruct He as [_ He].
  assert (∀ dep t, shaped G (t, ∅) ->
            after (evaluateCell run efuel dep (t, ∅)) (λ st, shaped G (st.1, ∅))) as Hstep.
  { intros dep t Ht. destruct (lookup_slot t dep) eqn:Hd.
    - pose proof (evaluateCell_shaped efuel dep t ∅) as H. rewrite Hd in H.
      specialize (H ltac:(done) (shaped_weaken t ∅ (∅ ∪ {[dep]}) (empty_subseteq _) Ht)).
      destruct (evaluateCell run efuel dep (t, ∅)) as [[]|? []|]; simpl; try done. by destruct H.
    - destruct efuel; simpl; [done|]. rewrite Hd. by destruct (decide _).
    - destruct efuel; simpl; [done|]. by rewrite Hd. }
  pose proof (proj1 (updateDependents_inv run (λ t, shaped G (t, ∅)) efuel Hstep fuel)
                id (s1, ∅) He) as Hu.
  destruct (updateDependents run efuel fuel id (s1, ∅)) as [[s2 v2]|m [s2 v2]|]; try done.
  by intros [= <-].
Qed.

Lemma reachable_shaped s :
  reachable run s -> ∀ k c, s !! k = Some c -> G (raw c) (value c) (error c).
Proof.
  intros H. cut (shaped G (s, ∅)).
  { intros Hs k c Hk. apply (Hs k c Hk). apply not_elem_of_empty. }
  induction H as [cols rows|s efuel fuel id text s' _ IH Hset].
  - intros k c ->%Spreadsheet_lookup _. apply (G_literal ""). reflexivity.
  - by eapply setCell_shaped.
Qed.
End Shape.

(** X1: in every table that completed [setCell] calls lead to, a cell with
    an error message shows ['#ERR'] and holds a formula, and the message is
    the one of line 94 or one that the engine threw for a text that passed
    the test of line 94. *)
Theorem error_only_on_failed_formula run s k c m :
  reachable run s -> s !! k = Some c -> error c = Some m ->
  value c = VStr "#ERR" ∧ is_formula (raw c) = true
  ∧ (m = "Invalid formula" ∨ ∃ x, valid_expr x = true ∧ run x = Abrupt m).
Proof.
  intros Hr Hk. revert m.
  apply (reachable_shaped run
    (λ text v e, ∀ m, e = Some m ->
       v = VStr "#ERR" ∧ is_formula text = true
       ∧ (m = "Invalid formula" ∨ ∃ x, valid_expr x = true ∧ run x = Abrupt m)))
    with (s := s) (k := k); [done| |done|done].
  intros text expr Hf _ m. unfold result_of.
  destruct (valid_expr expr) eqn:Hv; [destruct (run expr) eqn:He|]; simpl; intros [= <-];
    (split; [done|split; [done|eauto]]).
Qed.

Lemma error_only_on_failed_formula_witness :
  ∃ c, state_after [("A1", "=1+"); ("B1", "=A1+5")] !! "A1" = Some c
       ∧ value c = VStr "#ERR" ∧ is_formula (raw c) = true
       ∧ ("SyntaxError" = "Invalid formula"
          ∨ ∃ x, valid_expr x = true ∧ reference_engine x = Abrupt "SyntaxError").
Proof.
  assert (is_Some (state_after [("A1", "=1+"); ("B1", "=A1+5")] !! "A1")) as [c Hc].
  { apply is_Some_computed. vm_compute. reflexivity. }
  assert (error <$> state_after [("A1", "=1+"); ("B1", "=A1+5")] !! "A1"
          = Some (Some "SyntaxError")) as He by (vm_compute; reflexivity).
  rewrite Hc in He. injection He as He.
  exists c. split; [exact Hc|].
  exact (error_only_on_failed_formula reference_engine _ "A1" c "SyntaxError"
           (state_after_reachable _) Hc He).
Defined.

(** X2: the marks of lines 55 and 56 do not survive a call of [setCell]:
    in a reachable table a cell has the error ['Circular reference'] only
    if the engine threw that message, and shows ['#CIRC'] only if that is
    its own literal text or the engine returned that string. *)
Theorem circular_marks_do_not_survive run s k c :
  reachable run s -> s !! k = Some c ->
  (error c = Some "Circular reference" ->
     ∃ x, valid_expr x = true ∧ run x = Abrupt "Circular reference")
  ∧ (value c = VStr "#CIRC" ->
       (is_formula (raw c) = false ∧ trim (raw c) = "#CIRC")
       ∨ ∃ x, valid_expr x = true ∧ run x = Normal (VStr "#CIRC")).
Proof.
  intros Hr Hk.
  apply (reachable_shaped run
    (λ text v e,
       (e = Some "Circular reference" ->
          ∃ x, valid_expr x = true ∧ run x = Abrupt "Circular reference")
       ∧ (v = VStr "#CIRC" ->
            (is_formula text = false ∧ trim text = "#CIRC")
            ∨ ∃ x, valid_expr x = true ∧ run x = Normal (VStr "#CIRC"))))
    with (s := s) (k := k); [| |done|done].
  - intros text Hf. split; [done|]. intros Hl. left. split; [done|].
    unfold literal in Hl. destruct (decide (trim text = "")); [done|].
    destruct (negb _); [done|]. congruence.
  - intros text expr Hf _. unfold result_of.
    destruct (valid_expr expr) eqn:Hv; [destruct (run expr) eqn:He|]; simpl;
      (split; [intros [= E]|intros [= E]]); subst; eauto.
Qed.

Lemma circular_marks_do_not_survive_witness :
  ∃ c, state_after [("A1", "=B1+1"); ("B1", "=C1*2"); ("C1", "=A1+B1")] !! "C1" = Some c
       ∧ (error c = Some "Circular reference" ->
            ∃ x, valid_expr x = true ∧ reference_engine x = Abrupt "Circular reference")
       ∧ (value c = VStr "#CIRC" ->
            (is_formula (raw c) = false ∧ trim (raw c) = "#CIRC")
            ∨ ∃ x, valid_expr x = true ∧ reference_engine x = Normal (VStr "#CIRC")).
Proof.
  assert (is_Some (state_after [("A1", "=B1+1"); ("B1", "=C1*2"); ("C1", "=A1+B1")] !! "C1"))
    as [c Hc].
  { apply is_Some_computed. vm_compute. reflexivity. }
  exists c. split; [exact Hc|].
  exact (circular_marks_do_not_survive reference_engine _ "C1" c (state_after_reachable _) Hc).
Defined.

Lemma isNaN_ERR : JSNumber.isNaN "#ERR" = true.
Proof. vm_compute. reflexivity. Qed.

Lemma ref_value_text (s : sheet) k c t :
  s !! k = Some c -> value c = VStr t -> t = "" ∨ JSNumber.isNaN t = true ->
  ref_value s k = VNum PrimFloat.zero.
Proof.
  intros Hk Hv Ht. unfold ref_value, getCell.
  rewrite (proj2 (lookup_slot_Own s k c) Hk), Hv.
  destruct Ht as [->|Ht]; [done|].
  destruct t; [done|]. by rewrite Ht.
Qed.

(** X3: an error does not spread: in every reachable table a formula that
    refers to a cell with an error reads 0 for it; and when the engine
    returns no strings, a formula reads 0 for every cell that shows a
    string. *)
Theorem error_cells_read_as_zero run s k c :
  reachable run s -> s !! k = Some c ->
  (error c ≠ None -> ref_value s k = VNum PrimFloat.zero)
  ∧ ((∀ x t, run x ≠ Normal (VStr t)) ->
       ∀ t, value c = VStr t -> ref_value s k = VNum PrimFloat.zero).
Proof.
  intros Hr Hk. split.
  - intros He. destruct (error c) as [m|] eqn:Em; [|done].
    assert (value c = VStr "#ERR") as Hv.
    { clear He. revert m Em.
      apply (reachable_shaped run (λ text v e, ∀ m, e = Some m -> v = VStr "#ERR"))
        with (s := s) (k := k); [done| |done|done].
      intros text expr _ _ m. unfold result_of.
      destruct (valid_expr expr); [destruct (run expr)|]; simpl; by intros [= <-]. }
    eapply ref_value_text; [done|exact Hv|]. right. apply isNaN_ERR.
  - intros Hrun t Hv. eapply ref_value_text; [done|exact Hv|].
    revert t Hv.
    apply (reachable_shaped run
      (λ text v e, ∀ t, v = VStr t -> t = "" ∨ JSNumber.isNaN t = true))
      with (s := s) (k := k); [| |done|done].
    + intros text _ t. unfold literal. destruct (decide (trim text = "")) as [E|E].
      * intros [= <-]. by left.
      * destruct (JSNumber.isNaN (trim text)) eqn:N; simpl; [|done].
        intros [= <-]. by right.
    + intros text expr _ _ t. unfold result_of.
      destruct (valid_expr expr); [destruct (run expr) as [v|m] eqn:E|]; simpl.
      * intros ->. by destruct (Hrun expr t).
      * intros [= <-]. right. apply isNaN_ERR.
      * intros [= <-]. right. apply isNaN_ERR.
Qed.

Lemma error_cells_read_as_zero_witness :
  ∃ c, state_after [("A1", "=1+"); ("B1", "=A1+5")] !! "A1" = Some c
       ∧ error c ≠ None
       ∧ ref_value (state_after [("A1", "=1+"); ("B1", "=A1+5")]) "A1" = VNum PrimFloat.zero
       ∧ getCell (state_after [("A1", "=1+"); ("B1", "=A1+5")]) "B1" = VNum 5.
Proof.
  assert (is_Some (state_after [("A1", "=1+"); ("B1", "=A1+5")] !! "A1")) as [c Hc].
  { apply is_Some_computed. vm_compute. reflexivity. }
  assert (error <$> state_after [("A1", "=1+"); ("B1", "=A1+5")] !! "A1"
          = Some (Some "SyntaxError")) as He by (vm_compute; reflexivity).
  rewrite Hc in He. injection He as He.
  assert (error c ≠ None) as Hne by (rewrite He; discriminate).
  exists c. split; [exact Hc|]. split; [exact Hne|]. split.
  - exact (proj1 (error_cells_read_as_zero reference_engine _ "A1" c
                    (state_after_reachable _) Hc) Hne).
  - vm_compute. reflexivity.
Defined.

(** ** What [setCell] writes *)

Lemma setCell_raw run efuel fuel id text s cell s' k :
  s !! id = Some cell -> setCell run efuel fuel id text s = Done s' ->
  raw <$> s' !! k = if decide (k = id) then Some text else raw <$> s !! k.
Proof.
  intros Hid. unfold setCell. rewrite (proj2 (lookup_slot_Own s id cell) Hid).
  assert (raw <$> detach id text cell s !! k
          = if decide (k = id) then Some text else raw <$> s !! k) as H0.
  { rewrite (detach_lookup _ _ _ _ _ Hid).
    destruct (decide (k = id)) as [->|Hk].
    - rewrite Hid. simpl. by destruct (decide (id ∈ dependencies cell)).
    - destruct (s !! k) as [c|]; [|done]. simpl.
      by destruct (decide (k ∈ dependencies cell)). }
  pose proof (evaluateCell_raw run efuel id (detach id text cell s, ∅)) as He.
  destruct (evaluateCell run efuel id _) as [[s1 v1]|m [s1 v1]|]; try done.
  specialize (He s1 k eq_refl). simpl in He. rewrite H0 in He.
  set (Q := λ t : sheet, raw <$> t !! k = if decide (k = id) then Some text else raw <$> s !! k).
  assert (∀ dep t, Q t -> after (evaluateCell run efuel dep (t, ∅)) (λ st, Q st.1)) as Hstep.
  { intros dep t Ht. pose proof (evaluateCell_raw run efuel dep (t, ∅)) as H.
    destruct (evaluateCell run efuel dep (t, ∅)) as [[t' w]|m [t' w]|]; simpl; [| |done];
      unfold Q; by rewrite (H t' k eq_refl). }
  pose proof (proj1 (updateDependents_inv run Q efuel Hstep fuel) id (s1, ∅) He) as Hu.
  destruct (updateDependents run efuel fuel id (s1, ∅)) as [[s2 v2]|m [s2 v2]|]; try done.
  by intros [= <-].
Qed.

(** X4: on a cell of a reachable table, [setCell] returns for every text,
    also when the references form cycles; it adds and removes no cell,
    stores the text as given in the cell, and leaves the raw text of every
    other cell as it was. *)
Theorem setCell_writes_one_text run s id cell text efuel fuel :
  reachable run s -> s !! id = Some cell ->
  size (dom s) < efuel -> (fuel_for (size (dom s)) <= fuel)%nat ->
  ∃ s', setCell run efuel fuel id text s = Done s'
        ∧ dom s' = dom s
        ∧ raw <$> s' !! id = Some text
        ∧ ∀ k, k ≠ id -> raw <$> s' !! k = raw <$> s !! k.
Proof.
  intros Hr Hid He Hf.
  destruct (setCell_total run efuel fuel id text s) as (s' & Hs' & Hd & _); auto.
  { by apply reachable_dependents_ok in Hr. }
  { by eapply lookup_slot_cell. }
  exists s'. split; [done|]. split; [done|]. split.
  - rewrite (setCell_raw run efuel fuel id text s cell s' id Hid Hs'). by rewrite decide_True.
  - intros k Hk.
    rewrite (setCell_raw run efuel fuel id text s cell s' k Hid Hs'). by rewrite decide_False.
Qed.

Lemma setCell_writes_one_text_witness :
  ∃ s', setCell reference_engine efuel5 fuel5 "A1" "  =B1 + A1 " grid5 = Done s'
        ∧ dom s' = dom grid5
        ∧ raw <$> s' !! "A1" = Some "  =B1 + A1 "
        ∧ ∀ k, k ≠ "A1" -> raw <$> s' !! k = raw <$> grid5 !! k.
Proof.
  apply (setCell_writes_one_text reference_engine grid5 "A1" new_Cell "  =B1 + A1 "
           efuel5 fuel5).
  - apply reachable_new.
  - reflexivity.
  - vm_compute. lia.
  - vm_compute. lia.
Defined.

Lemma evaluateCell_plain run fuel id (s : sheet) (v : gset string) c :
  s !! id = Some c -> id ∉ v -> is_formula (raw c) = false ->
  evaluateCell run (S fuel) id (s, v) = Done (store id (literal (trim (raw c))) None s, v).
Proof.
  intros Hid Hv Hf. simpl. rewrite (proj2 (lookup_slot_Own s id c) Hid), decide_False by done.
  unfold is_formula in Hf. rewrite Hf. simpl. by rewrite add_remove_visited.
Qed.

Lemma updateDependents_leaf run efuel fuel id (s : sheet) (v : gset string) c :
  s !! id = Some c -> dependents c = [] -> id ∉ v ->
  updateDependents run efuel (S (S fuel)) id (s, v) = Done (s, v ∪ {[id]}).
Proof.
  intros Hid Hd Hv. simpl. rewrite decide_False by done.
  rewrite (proj2 (lookup_slot_Own s id c) Hid), Hid. simpl. by rewrite Hd.
Qed.

(** X5: a text that is no formula, set in a cell that no cell depends on,
    changes nothing else: every other cell keeps its raw text, its value
    and its error. *)
Theorem literal_in_free_cell_is_local run (s : sheet) id cell text efuel fuel :
  s !! id = Some cell -> dependents cell = [] -> is_formula text = false ->
  ∃ s', setCell run (S efuel) (S (S fuel)) id text s = Done s'
        ∧ shown s' id = (literal (trim text), Some None)
        ∧ ∀ k, k ≠ id ->
            (λ c, (raw c, value c, error c)) <$> s' !! k
            = (λ c, (raw c, value c, error c)) <$> s !! k.
Proof.
  intros Hid Hdeps Hf. unfold setCell. rewrite (proj2 (lookup_slot_Own s id cell) Hid).
  pose proof (detach_lookup id text cell s id Hid) as H0. rewrite Hid in H0.
  destruct (detach id text cell s !! id) as [c0|] eqn:E0; [|done].
  assert (raw c0 = text ∧ dependents c0 = []) as [Hraw Hdep0].
  { injection H0 as ->. rewrite decide_True by done.
    destruct (decide (id ∈ dependencies cell)); simpl; [|done]. by rewrite Hdeps. }
  clear H0.
  rewrite (evaluateCell_plain run efuel id _ ∅ c0 E0) by (apply not_elem_of_empty || by rewrite Hraw).
  assert (store id (literal (trim (raw c0))) None (detach id text cell s) !! id
          = Some (set_error None (set_value (literal (trim (raw c0))) c0))) as H1.
  { rewrite store_lookup, E0. simpl. by rewrite decide_True. }
  rewrite (updateDependents_leaf run (S efuel) fuel id _ ∅ _ H1) by (done || apply not_elem_of_empty).
  eexists. split; [done|]. split.
  - unfold shown, getCell. rewrite (proj2 (lookup_slot_Own _ id _) H1), H1. simpl.
    by rewrite Hraw.
  - intros k Hk. rewrite store_lookup, (detach_lookup _ _ _ _ _ Hid).
    destruct (s !! k) as [c|]; [|done]. simpl. rewrite !decide_False by done.
    by destruct (decide (k ∈ dependencies cell)).
Qed.

Lemma literal_in_free_cell_is_local_witness :
  ∃ s', setCell reference_engine 1 2 "C3" " 7.5 " grid5 = Done s'
        ∧ shown s' "C3" = (literal (trim " 7.5 "), Some None)
        ∧ ∀ k, k ≠ "C3" ->
            (λ c, (raw c, value c, error c)) <$> s' !! k
            = (λ c, (raw c, value c, error c)) <$> grid5 !! k.
Proof.
  apply (literal_in_free_cell_is_local reference_engine grid5 "C3" new_Cell " 7.5 " 0 0).
  - reflexivity.
  - reflexivity.
  - reflexivity.
Defined.

(** ** Numbers that print with an exponent *)

(** X6: when the loop of lines 84 to 91, run for a formula cell, finds for
    a reference a number whose text has an exponent (as 1e21 and 1e-7 have),
    the evaluation of the cell returns and the cell shows ['#ERR'] with the
    message ['Invalid formula']: the letter [e] fails the test of line 94. *)
Theorem exponent_dependency_rejected run fuel (s : sheet) (v : gset string)
    (id text : string) (pre : list string) (ref : string) (post : list string) x :
  raw <$> s !! id = Some text -> id ∉ v -> is_formula text = true ->
  match_refs (trim text) = (pre ++ ref :: post)%list -> ref ∉ pre ->
  read_value run fuel id text s v pre ref = Some (VNum x) ->
  In_string "e" (JSNumber.to_string x) ->
  (size (dom s ∖ v) <= fuel)%nat ->
  ∃ s', evaluateCell run (S fuel) id (s, v) = Done (s', v)
        ∧ shown s' id = (VStr "#ERR", Some (Some "Invalid formula")).
Proof.
  intros Hraw Hv Hf Hrefs Hpre Hread Hx Hfuel.
  destruct (s !! id) as [cell|] eqn:Hid; [|done]. injection Hraw as Hraw.
  assert (∀ r, r ∈ match_refs (trim text) -> is_ref r) as Hisref
    by (intros r; apply match_refs_is_ref).
  assert (is_ref ref) as Href by (apply Hisref; rewrite Hrefs; set_solver).
  simpl. rewrite (proj2 (lookup_slot_Own s id cell) Hid), decide_False by done.
  rewrite Hraw. unfold is_formula in Hf. rewrite Hf. simpl.
  unfold read_value in Hread. rewrite Hrefs in *. rewrite substitute_app.
  set (s0 := foldl (add_edge id) s (pre ++ ref :: post)%list) in *.
  pose proof (substitute_dom run fuel pre (slice1 (trim text)) (s0, v ∪ {[id]})) as Hd1.
  pose proof (substitute_outcome (evaluateCell run fuel) pre (v ∪ {[id]})
    (λ r t Hr, evaluateCell_outcome run fuel r t _
       (lookup_slot_ref t r (Hisref r ltac:(set_solver))))
    (slice1 (trim text)) s0) as Hv1.
  pose proof (substitute_keeps_occurrence (evaluateCell run fuel) ref pre Href) as Ho1.
  specialize (Ho1 (λ r Hr, conj (Hisref r ltac:(set_solver)) (λ E, Hpre (eq_ind _ (λ z, z ∈ pre) Hr _ E)))).
  specialize (Ho1 (slice1 (trim text)) (s0, v ∪ {[id]})).
  destruct (substitute (evaluateCell run fuel) pre (slice1 (trim text)) (s0, v ∪ {[id]}))
    as [[e1 [s1 v1]]|m st1|]; [|done|done].
  simpl in Hd1, Hv1. subst v1. simpl.
  pose proof (evaluateCell_dom run fuel ref (s1, v ∪ {[id]})) as Hd2.
  pose proof (evaluateCell_outcome run fuel ref s1 (v ∪ {[id]}) (lookup_slot_ref _ _ Href)) as Hv2.
  destruct (evaluateCell run fuel ref (s1, v ∪ {[id]})) as [[s2 v2]|m st2|]; [|done|done].
  injection Hread as Hread. subst v2. specialize (Hd2 s2 eq_refl). simpl in Hd2.
  assert (ref_value s2 ref = VNum x) as -> by (unfold ref_value; by rewrite Hread).
  pose (c := "e"%char).
  assert (is_expr_char c = false) as Hce by reflexivity.
  assert (is_col_letter c = false) as Hcl by reflexivity.
  assert (In_string c (JSNumber.to_string x)) as Hc by exact Hx.
  set (e2 := replaceAll ref _ e1).
  assert (In_string c e2) as He2.
  { apply replaceAll_inserts.
    - destruct Href as (a & b & -> & _). done.
    - unfold to_text.
      change (In_string c (String "(" (JSNumber.to_string x ++ ")"))).
      right. rewrite In_string_app. by left.
    - apply Ho1. apply formula_body_occurs; [done|]. rewrite Hrefs. set_solver. }
  assert (dom s0 = dom s) as Hd0 by apply dom_foldl_add_edge.
  assert (id ∈ dom s) as Hidd by (by apply elem_of_dom_2 in Hid).
  destruct (substitute_total (evaluateCell run fuel) post (dom s) (v ∪ {[id]}))
    with (expr := e2) (s := s2) as (e3 & s3 & E3 & Hd3).
  { intros r t Hr Ht. destruct (evaluateCell_total run fuel r t (v ∪ {[id]})) as (t' & ? & ?).
    - apply lookup_slot_ref, Hisref. set_solver.
    - rewrite Ht. pose proof (size_unvisited_add (dom s) v id Hidd Hv). lia.
    - exists t'. split; [done|congruence]. }
  { congruence. }
  rewrite E3. rewrite add_remove_visited by done.
  pose proof (substitute_keeps_char (evaluateCell run fuel) c post) as Hk.
  specialize (Hk (λ r Hr Hin, ltac:(
    destruct (is_ref_chars r c (Hisref r ltac:(set_solver)) Hin); congruence))).
  specialize (Hk e2 (s2, v ∪ {[id]}) He2). rewrite E3 in Hk.
  rewrite (invalid_char e3 c Hk Hce).
  eexists. split; [done|].
  assert (is_Some (s3 !! id)) as [c3 Hc3] by (apply elem_of_dom; by rewrite Hd3).
  unfold shown, getCell.
  rewrite (proj2 (lookup_slot_Own _ id _)
             (eq_trans (store_lookup id _ _ s3 id) (f_equal _ Hc3))).
  rewrite store_lookup, Hc3. simpl. by rewrite decide_True.
Qed.

Lemma exponent_dependency_rejected_witness :
  ∃ s', evaluateCell reference_engine efuel5 "B1"
          (state_after [("A1", "1e21"); ("B1", "=A1/2")], ∅) = Done (s', ∅)
        ∧ shown s' "B1" = (VStr "#ERR", Some (Some "Invalid formula")).
Proof.
  apply (exponent_dependency_rejected reference_engine 29 _ ∅ "B1" "=A1/2" [] "A1" []
           (JSNumber.Number "1e21")).
  - vm_compute. reflexivity.
  - apply not_elem_of_empty.
  - reflexivity.
  - reflexivity.
  - apply not_elem_of_nil.
  - vm_compute. reflexivity.
  - vm_compute. tauto.
  - vm_compute. lia.
Defined.

(** ** The constructor *)

Lemma digits_go_value f :
  ∀ z acc, (0 <= z < 2 ^ Z.of_nat f)%Z ->
    decimal_value (JSNumber.digits_go f z acc)
    = (z * 10 ^ Z.of_nat (String.length acc) + decimal_value acc)%Z.
Proof.
  induction f as [|f IH]; intros z acc Hz.
  - simpl in *. assert (z = 0)%Z as -> by lia. lia.
  - cbn [JSNumber.digits_go].
    assert (0 <= z mod 10 < 10)%Z as Hm by (apply Z.mod_pos_bound; lia).
    assert (Z.of_N (code (ascii_of_N (Z.to_N (48 + z mod 10)))) - 48 = z mod 10)%Z as Hd.
    { unfold code. rewrite N_ascii_embedding by lia. lia. }
    destruct (z <? 10)%Z eqn:E.
    + apply Z.ltb_lt in E. cbn [decimal_value]. rewrite Hd, Z.mod_small by lia. done.
    + apply Z.ltb_ge in E. rewrite IH.
      * cbn [decimal_value String.length]. rewrite Hd, Nat2Z.inj_succ, Z.pow_succ_r by lia.
        pose proof (Z.div_mod z 10 ltac:(lia)) as Hz'.
        set (q := (z / 10)%Z) in *. set (r := (z mod 10)%Z) in *.
        set (p := (10 ^ Z.of_nat (String.length acc))%Z). clearbody q r p. rewrite Hz'. ring.
      * rewrite Nat2Z.inj_succ, Z.pow_succ_r in Hz by lia. split.
        -- apply Z.div_pos; lia.
        -- apply Z.div_lt_upper_bound; lia.
Qed.

Lemma digits_value z : (0 < z)%Z -> decimal_value (JSNumber.digits z) = z.
Proof.
  intros Hz. unfold JSNumber.digits. rewrite digits_go_value.
  - simpl. lia.
  - pose proof (Z.log2_spec z Hz) as [_ H]. pose proof (Z.log2_nonneg z).
    rewrite Nat2Z.inj_succ, Z2Nat.id by lia. lia.
Qed.

Lemma cell_id_inj i j r q :
  i < 191 -> j < 191 -> 0 < r -> 0 < q -> cell_id i r = cell_id j q -> i = j ∧ r = q.
Proof.
  intros Hi Hj Hr Hq [= H1 H2]. split.
  - apply (f_equal nat_of_ascii) in H1. rewrite !nat_ascii_embedding in H1 by lia. lia.
  - apply (f_equal decimal_value) in H2. rewrite !digits_value in H2 by lia. lia.
Qed.

Lemma cell_ids_elem cols rows id :
  id ∈ cell_ids cols rows <-> ∃ i r, i < cols ∧ 1 <= r <= rows ∧ id = cell_id i r.
Proof.
  unfold cell_ids, colNames. rewrite list_elem_of_bind. split.
  - intros (c & Hid & Hc). apply list_elem_of_fmap in Hc as (i & -> & Hi).
    apply list_elem_of_bind in Hid as (r & Hid & Hr).
    apply list_elem_of_singleton in Hid as ->.
    apply elem_of_seq in Hi, Hr. exists i, r. split; [lia|]. split; [lia|done].
  - intros (i & r & Hi & Hr & ->). exists (String (ascii_of_nat (65 + i)) EmptyString). split.
    + apply list_elem_of_bind. exists r. split; [by apply list_elem_of_singleton|].
      apply elem_of_seq. lia.
    + apply list_elem_of_fmap. exists i. split; [done|]. apply elem_of_seq. lia.
Qed.

Lemma length_bind_const {A B : Type} (f : A -> list B) (n : nat) (l : list A) :
  (∀ x, length (f x) = n) -> length (l ≫= f) = length l * n.
Proof.
  intros Hf. induction l as [|x l IH]; csimpl; [done|].
  by rewrite length_app, Hf, IH.
Qed.

Lemma cell_ids_length cols rows : length (cell_ids cols rows) = cols * rows.
Proof.
  unfold cell_ids, colNames. rewrite (length_bind_const _ rows).
  - by rewrite length_fmap, length_seq.
  - intros c. rewrite (length_bind_const _ 1); [|done]. rewrite length_seq. lia.
Qed.

Lemma cell_ids_NoDup cols rows : cols <= 191 -> NoDup (cell_ids cols rows).
Proof.
  intros Hc. unfold cell_ids, colNames. apply NoDup_bind.
  - intros c1 c2 y (i & -> & Hi%elem_of_seq)%list_elem_of_fmap
      (j & -> & Hj%elem_of_seq)%list_elem_of_fmap
      (r & ->%list_elem_of_singleton & Hr%elem_of_seq)%list_elem_of_bind
      (q & Hy%list_elem_of_singleton & Hq%elem_of_seq)%list_elem_of_bind.
    destruct (cell_id_inj i j r q) as [-> _]; [lia..|exact Hy|done].
  - intros c (i & -> & Hi%elem_of_seq)%list_elem_of_fmap. apply NoDup_bind.
    + intros r q y Hr%elem_of_seq Hq%elem_of_seq ->%list_elem_of_singleton
        Hy%list_elem_of_singleton.
      destruct (cell_id_inj i i r q) as [_ ->]; [lia..|exact Hy|done].
    + intros. apply NoDup_singleton.
    + apply NoDup_seq.
  - apply NoDup_fmap_2_strong; [|apply NoDup_seq].
    intros i j Hi%elem_of_seq Hj%elem_of_seq [= H].
    apply (f_equal nat_of_ascii) in H. rewrite !nat_ascii_embedding in H by lia. lia.
Qed.

Lemma fresh_cells_keys (l : list string) : ((λ k, (k, new_Cell)) <$> l).*1 = l.
Proof. induction l as [|k l IH]; csimpl; [done|]. by rewrite IH. Qed.

Lemma Spreadsheet_is_Some cols rows id :
  is_Some (Spreadsheet cols rows !! id) <-> id ∈ cell_ids cols rows.
Proof.
  unfold Spreadsheet.
  by rewrite <- elem_of_dom, dom_list_to_map_L, elem_of_list_to_set, fresh_cells_keys.
Qed.

(** X7: [new Spreadsheet(cols, rows)] with at most 191 columns holds
    [cols * rows] cells: one for each column letter, from [A] on, and each
    row number from 1 to [rows], and no other; every cell is fresh, so that
    [getCell] gives the empty string for it. *)
Theorem Spreadsheet_constructed cols rows :
  cols <= 191 ->
  size (Spreadsheet cols rows) = cols * rows
  ∧ (∀ i r, i < cols -> 1 <= r <= rows ->
       Spreadsheet cols rows !! cell_id i r = Some new_Cell
       ∧ getCell (Spreadsheet cols rows) (cell_id i r) = VStr "")
  ∧ (∀ id c, Spreadsheet cols rows !! id = Some c ->
       c = new_Cell ∧ ∃ i r, i < cols ∧ 1 <= r <= rows ∧ id = cell_id i r).
Proof.
  intros Hc. split; [|split].
  - unfold Spreadsheet. rewrite map_size_list_to_map.
    + by rewrite length_fmap, cell_ids_length.
    + rewrite fresh_cells_keys. by apply cell_ids_NoDup.
  - intros i r Hi Hr.
    assert (is_Some (Spreadsheet cols rows !! cell_id i r)) as [c Hcell].
    { apply Spreadsheet_is_Some, cell_ids_elem. eauto. }
    pose proof (Spreadsheet_lookup _ _ _ _ Hcell) as ->. split; [done|].
    unfold getCell. by rewrite (proj2 (lookup_slot_Own _ _ _) Hcell).
  - intros id c Hcell. split; [by eapply Spreadsheet_lookup|].
    apply cell_ids_elem, Spreadsheet_is_Some. by exists c.
Qed.

Lemma Spreadsheet_constructed_witness :
  size (Spreadsheet 5 5) = 25
  ∧ (∀ i r, i < 5 -> 1 <= r <= 5 ->
       Spreadsheet 5 5 !! cell_id i r = Some new_Cell
       ∧ getCell (Spreadsheet 5 5) (cell_id i r) = VStr "")
  ∧ (∀ id c, Spreadsheet 5 5 !! id = Some c ->
       c = new_Cell ∧ ∃ i r, i < 5 ∧ 1 <= r <= 5 ∧ id = cell_id i r).
Proof. apply (Spreadsheet_constructed 5 5). lia. Defined.

(** ** One evaluation *)

(** X8: on every table, [_evaluateCell] called on a cell, or on a name
    that the table does not have, returns (no exception leaves it) when it
    has fuel for the cells outside [visited]; [visited] is then what it was,
    the table has the same cells, and every raw text is as it was. *)
Theorem evaluateCell_contained run fuel id (s : sheet) (v : gset string) :
  lookup_slot s id ≠ Inherited -> size (dom s ∖ v) < fuel ->
  ∃ s', evaluateCell run fuel id (s, v) = Done (s', v)
        ∧ dom s' = dom s
        ∧ ∀ k, raw <$> s' !! k = raw <$> s !! k.
Proof.
  intros Hslot Hfuel.
  destruct (evaluateCell_total run fuel id s v Hslot Hfuel) as (s' & E & Hd).
  exists s'. split; [done|]. split; [done|]. intros k.
  apply (evaluateCell_raw run fuel id (s, v) s' k). by rewrite E.
Qed.

Lemma evaluateCell_contained_witness :
  ∃ s', evaluateCell reference_engine efuel5 "A1"
          (state_after [("A1", "=B1+1"); ("B1", "=A1+x")], {["C1"]}) = Done (s', {["C1"]})
        ∧ dom s' = dom (state_after [("A1", "=B1+1"); ("B1", "=A1+x")])
        ∧ ∀ k, raw <$> s' !! k = raw <$> state_after [("A1", "=B1+1"); ("B1", "=A1+x")] !! k.
Proof.
  apply (evaluateCell_contained reference_engine efuel5 "A1").
  - apply lookup_slot_ref. exists "A"%char, "1"%char. done.
  - vm_compute. lia.
Defined.

(** ** The reverse edges and the formula texts *)

(** X9: in every reachable table, the dependents of a cell [b] are the
    cells of the table whose formula text holds a reference to [b]: these are
    the cells that a change of [b] re-evaluates first. *)
Theorem dependents_are_referrers run s b cb a :
  reachable run s -> s !! b = Some cb ->
  (a ∈ dependents cb <-> ∃ ca, s !! a = Some ca ∧ b ∈ formula_refs (raw ca)).
Proof.
  intros Hr Hb. split.
  - intros Ha. destruct (reachable_dependents_ok run s Hr b cb Hb) as [_ Hin].
    destruct (Hin a Ha) as [ca Hca]. exists ca. split; [done|].
    apply (reachable_deps_sound run s Hr a ca b Hca).
    by apply (reachable_mutual run s Hr a b ca cb Hca Hb).
  - intros (ca & Hca & Href).
    destruct (reachable_linked run s Hr a ca b Hca) as [_ H]; [done|done|]. by apply H.
Qed.

Lemma dependents_are_referrers_witness :
  ∃ cb, state_after [("A1", "=B1+1"); ("C1", "=B1*B1"); ("A1", "7")] !! "B1" = Some cb
        ∧ ("C1" ∈ dependents cb
           <-> ∃ ca, state_after [("A1", "=B1+1"); ("C1", "=B1*B1"); ("A1", "7")] !! "C1"
                       = Some ca ∧ "B1" ∈ formula_refs (raw ca)).
Proof.
  assert (is_Some (state_after [("A1", "=B1+1"); ("C1", "=B1*B1"); ("A1", "7")] !! "B1"))
    as [cb Hcb].
  { apply is_Some_computed. vm_compute. reflexivity. }
  exists cb. split; [exact Hcb|].
  exact (dependents_are_referrers reference_engine _ "B1" cb "C1"
           (state_after_reachable _) Hcb).
Defined.

(** ** The display *)

Lemma paint_twice v e f input : paint v e f (paint v e f input) = paint v e f input.
Proof. unfold paint. destruct f, e as [[|a m]|]; done. Qed.

Lemma updateAll_stuck {A : Type} (f : string -> A -> outcome A) l m d :
  foldl (λ o k, match o with Done d => f k d | other => other end) (Throws m d) l
  = Throws m d.
Proof. induction l as [|k l IH]; simpl; [done|apply IH]. Qed.

Lemma updateUI_elements s k d :
  match updateUI s k d with
  | Done d' =>
      activeElement d' = activeElement d
      ∧ (is_Some (elements d !! k) -> is_Some (cell_fields s k))
      ∧ ∀ j, elements d' !! j
             = if decide (j = k) then repaint s (activeElement d) k <$> elements d !! j
               else elements d !! j
  | Throws _ d' => d' = d ∧ is_Some (elements d !! k) ∧ cell_fields s k = None
  | OutOfFuel => False
  end.
Proof.
  unfold updateUI. destruct (elements d !! k) as [input|] eqn:E.
  - destruct (cell_fields s k) as [[v e]|] eqn:F; [|by eauto].
    simpl. split; [done|]. split; [by eauto|]. intros j.
    destruct (decide (j = k)) as [->|Hj].
    + rewrite lookup_insert_eq, E. simpl. unfold repaint. by rewrite F.
    + by rewrite lookup_insert_ne.
  - split; [done|]. split; [by intros []|]. intros j.
    destruct (decide (j = k)) as [->|Hj]; [by rewrite E|done].
Qed.

Lemma updateAll_elements s l :
  ∀ d,
    match foldl (λ o k, match o with Done d => updateUI s k d | other => other end)
            (Done d) l with
    | Done d' =>
        activeElement d' = activeElement d
        ∧ (∀ k, k ∈ l -> is_Some (elements d !! k) -> is_Some (cell_fields s k))
        ∧ ∀ j, elements d' !! j
               = if decide (j ∈ l) then repaint s (activeElement d) j <$> elements d !! j
                 else elements d !! j
    | Throws _ _ => ∃ k, k ∈ l ∧ is_Some (elements d !! k) ∧ cell_fields s k = None
    | OutOfFuel => False
    end.
Proof.
  induction l as [|k l IH]; intros d; simpl.
  { split; [done|]. split; [by intros k ?%elem_of_nil|]. intros j.
    by destruct (decide (j ∈ [])) as [?%elem_of_nil|]. }
  pose proof (updateUI_elements s k d) as H1.
  destruct (updateUI s k d) as [d1|m d1|]; [| |done].
  2:{ rewrite updateAll_stuck. destruct H1 as (_ & ? & ?). exists k. split; [by left|done]. }
  destruct H1 as (Ha & Hk & H1). specialize (IH d1).
  assert (∀ j, is_Some (elements d1 !! j) <-> is_Some (elements d !! j)) as Hsome.
  { intros j. rewrite H1. destruct (decide (j = k)); [|done]. by rewrite fmap_is_Some. }
  destruct (foldl _ _ l) as [d2|m d2|]; [| |done].
  - destruct IH as (Ha2 & Hl & H2). split; [congruence|]. split.
    + intros j [->|Hj]%elem_of_cons; [done|]. rewrite <- Hsome. by apply Hl.
    + intros j. rewrite H2, Ha, H1.
      destruct (decide (j = k)) as [->|Hj].
      * rewrite (decide_True (P := k ∈ k :: l)) by left.
        destruct (decide (k ∈ l)) as [Hkl|Hkl]; [|done].
        destruct (elements d !! k) as [input|]; [|done]. simpl. f_equal.
        unfold repaint. destruct (cell_fields s k) as [[v e]|]; [|done]. apply paint_twice.
      * destruct (decide (j ∈ l)) as [Hl'|Hl'].
        -- rewrite decide_True; [done|by right].
        -- rewrite decide_False; [done|]. intros [?|?]%elem_of_cons; done.
  - destruct IH as (j & Hj & Hs & Hf). exists j. split; [by right|]. by rewrite <- Hsome.
Qed.

Lemma repaint_Own (s : sheet) active k c input :
  s !! k = Some c ->
  repaint s active k input = paint (value c) (error c) (bool_decide (active = Some k)) input.
Proof.
  intros Hk. unfold repaint, cell_fields. by rewrite (proj2 (lookup_slot_Own s k c) Hk).
Qed.

Lemma updateAllUI_dom (s : sheet) (d d' : Document) :
  updateAllUI s d = Done d' -> ∀ k, is_Some (elements d' !! k) <-> is_Some (elements d !! k).
Proof.
  unfold updateAllUI. generalize (cell_ids COLS ROWS). intros ids Hd k.
  pose proof (updateAll_elements s ids d) as H. rewrite Hd in H.
  destruct H as (_ & _ & H). rewrite H.
  destruct (decide (k ∈ ids)); [|done]. by rewrite fmap_is_Some.
Qed.

Lemma updateAllUI_cells (s : sheet) (d : Document) :
  (∀ k, k ∈ cell_ids COLS ROWS -> is_Some (s !! k)) ->
  ∃ d', updateAllUI s d = Done d'
        ∧ activeElement d' = activeElement d
        ∧ (∀ k, k ∉ cell_ids COLS ROWS -> elements d' !! k = elements d !! k)
        ∧ ∀ k c, k ∈ cell_ids COLS ROWS -> s !! k = Some c ->
            ∀ input, elements d !! k = Some input ->
              ∃ input', elements d' !! k = Some input'
                ∧ input_title input' = (if truthy (error c) then default "" (error c) else "")
                ∧ input_background input' = (if truthy (error c) then "#ffe6e6" else "")
                ∧ input_value input'
                  = if bool_decide (activeElement d = Some k) then input_value input
                    else display (value c) (error c).
Proof.
  unfold updateAllUI. generalize (cell_ids COLS ROWS). intros ids Hall.
  pose proof (updateAll_elements s ids d) as H.
  destruct (foldl _ _ _) as [d'|m d'|]; [| |done].
  2:{ destruct H as (k & Hk & _ & Hf). destruct (Hall k Hk) as [c Hc].
      unfold cell_fields in Hf. by rewrite (proj2 (lookup_slot_Own s k c) Hc) in Hf. }
  destruct H as (Ha & _ & H). exists d'. split; [done|]. split; [done|]. split.
  - intros k Hk. by rewrite H, decide_False.
  - intros k c Hk Hc input Hin. rewrite H, decide_True, Hin by done. simpl.
    eexists. split; [done|]. rewrite (repaint_Own s _ k c input Hc). unfold paint.
    destruct (bool_decide (activeElement d = Some k)), (error c) as [[|a m]|]; done.
Qed.

(** X10: when the table has every cell of the 5 by 5 grid, [updateAllUI]
    returns; it leaves the focus and every element that is not the input of
    a cell as they were; the input of a cell then has the error message as
    its title and the red background exactly when the cell has an error
    that is not empty, and otherwise no title and no background; and it
    shows the text of the value of the cell (nothing for [undefined]),
    unless it has the focus: then its text is as it was. *)
Theorem updateAllUI_shows_table (s : sheet) (d : Document) :
  (∀ k, k ∈ cell_ids COLS ROWS -> is_Some (s !! k)) ->
  ∃ d', updateAllUI s d = Done d'
        ∧ activeElement d' = activeElement d
        ∧ (∀ k, k ∉ cell_ids COLS ROWS -> elements d' !! k = elements d !! k)
        ∧ ∀ k c, k ∈ cell_ids COLS ROWS -> s !! k = Some c ->
            ∀ input, elements d !! k = Some input ->
              ∃ input', elements d' !! k = Some input'
                ∧ input_title input' = (if truthy (error c) then default "" (error c) else "")
                ∧ input_background input' = (if truthy (error c) then "#ffe6e6" else "")
                ∧ input_value input'
                  = if bool_decide (activeElement d = Some k) then input_value input
                    else display (value c) (error c).
Proof. apply updateAllUI_cells. Qed.

Lemma setCells_dom run calls : ∀ s s', setCells run calls s = Done s' -> dom s' = dom s.
Proof.
  unfold setCells. induction calls as [|[id text] calls IH] using rev_ind; intros s s'.
  - simpl. by intros [= <-].
  - rewrite foldl_app. simpl.
    destruct (foldl _ (Done s) calls) as [s1| |] eqn:E; [|done|done].
    intros H. apply setCell_dom in H. rewrite H. by apply IH.
Qed.

Lemma state_after_cells calls k : k ∈ cell_ids COLS ROWS -> is_Some (state_after calls !! k).
Proof.
  intros Hk. apply elem_of_dom.
  assert (dom (state_after calls) = dom grid5) as ->.
  { unfold state_after. destruct (setCells reference_engine calls grid5) as [s| |] eqn:E; [|done..].
    by apply setCells_dom in E. }
  apply elem_of_dom. by apply Spreadsheet_is_Some.
Qed.

Lemma updateAllUI_shows_table_witness :
  ∃ d', updateAllUI (state_after [("A1", "=2*"); ("B1", "=A1+5")])
          (mkDocument {[ "A1" := mkInput "=2*" "" ""; "B1" := mkInput "=A1+5" "" "";
                         "note" := mkInput "n" "t" "b" ]} (Some "B1")) = Done d'
        ∧ elements d' !! "A1" = Some (mkInput "#ERR" "SyntaxError" "#ffe6e6")
        ∧ elements d' !! "B1" = Some (mkInput "=A1+5" "" "")
        ∧ elements d' !! "note" = Some (mkInput "n" "t" "b").
Proof.
  destruct (updateAllUI_shows_table (state_after [("A1", "=2*"); ("B1", "=A1+5")])
              (mkDocument {[ "A1" := mkInput "=2*" "" ""; "B1" := mkInput "=A1+5" "" "";
                             "note" := mkInput "n" "t" "b" ]} (Some "B1"))
              (state_after_cells _))
    as (d' & Hd & _).
  exists d'. split; [exact Hd|].
  assert (match updateAllUI (state_after [("A1", "=2*"); ("B1", "=A1+5")])
              (mkDocument {[ "A1" := mkInput "=2*" "" ""; "B1" := mkInput "=A1+5" "" "";
                             "note" := mkInput "n" "t" "b" ]} (Some "B1")) with
          | Done d => Some (elements d !! "A1", elements d !! "B1", elements d !! "note")
          | _ => None
          end
          = Some (Some (mkInput "#ERR" "SyntaxError" "#ffe6e6"),
                  Some (mkInput "=A1+5" "" ""), Some (mkInput "n" "t" "b"))) as E.
  { vm_compute. reflexivity. }
  rewrite Hd in E. injection E as E1 E2 E3.
  split; [exact E1|]. split; [exact E2|exact E3].
Defined.

(** X11: [updateAllUI] called again changes nothing: when it returns, the
    document is one that it maps to itself. *)
Theorem updateAllUI_idempotent (s : sheet) (d d' : Document) :
  updateAllUI s d = Done d' -> updateAllUI s d' = Done d'.
Proof.
  unfold updateAllUI. generalize (cell_ids COLS ROWS). intros ids Hd.
  pose proof (updateAll_elements s ids d) as H. rewrite Hd in H.
  destruct H as (Ha & Hok & H).
  pose proof (updateAll_elements s ids d') as H'.
  destruct (foldl _ (Done d') _) as [d2|m d2|]; [| |done].
  - destruct H' as (Ha' & _ & H'). f_equal.
    destruct d2 as [el2 ac2], d' as [el' ac']. simpl in *. f_equal; [|done].
    apply map_eq. intros j. rewrite H', H.
    destruct (decide (j ∈ ids)) as [Hj|Hj]; [|done].
    destruct (elements d !! j) as [input|]; [|done]. simpl. f_equal.
    rewrite Ha. unfold repaint. destruct (cell_fields s j) as [[v e]|]; [|done].
    apply paint_twice.
  - destruct H' as (k & Hk & Hs & Hf). exfalso.
    rewrite H, decide_True, fmap_is_Some in Hs by done.
    destruct (Hok k Hk Hs) as [x Hx]. congruence.
Qed.


Lemma updateAllUI_idempotent_witness :
  updateAllUI grid5 (mkDocument {[ "C2" := mkInput "x" "y" "z" ]} None)
  = Done (mkDocument {[ "C2" := mkInput "" "" "" ]} None)
  ∧ updateAllUI grid5 (mkDocument {[ "C2" := mkInput "" "" "" ]} None)
    = Done (mkDocument {[ "C2" := mkInput "" "" "" ]} None).
Proof.
  assert (updateAllUI grid5 (mkDocument {[ "C2" := mkInput "x" "y" "z" ]} None)
          = Done (mkDocument {[ "C2" := mkInput "" "" "" ]} None)) as H
    by (vm_compute; reflexivity).
  split; [exact H|]. exact (updateAllUI_idempotent _ _ _ H).
Defined.

Lemma grid5_cells (s : sheet) k :
  dom s = dom grid5 -> (k ∈ cell_ids COLS ROWS <-> is_Some (s !! k)).
Proof.
  intros Hd. rewrite <- elem_of_dom, Hd, elem_of_dom.
  symmetry. apply Spreadsheet_is_Some.
Qed.

(** X12: [window.setCell] on the page of the source, with a name that is
    not inherited: in every state that [setCell] calls lead to from the 5 by
    5 grid, the call returns, the table is the one that [setCell] leaves, and
    every input of a cell that does not have the focus then shows the value
    of its cell in that table. *)
Theorem window_setCell_repaints run (s : sheet) (d : Document) id text :
  reachable run s -> dom s = dom grid5 -> id ∉ inherited_names ->
  ∃ s' d', window_setCell run efuel5 fuel5 id text (s, d) = Done (s', d')
           ∧ setCell run efuel5 fuel5 id text s = Done s'
           ∧ ∀ k c input', s' !! k = Some c -> elements d' !! k = Some input' ->
               activeElement d ≠ Some k ->
               input_value input' = display (value c) (error c).
Proof.
  intros Hr Hd Hid.
  assert (size (dom s) = 25) as Hsize by (rewrite Hd; vm_compute; reflexivity).
  destruct (setCell_total run efuel5 fuel5 id text s) as (s' & Hs' & Hd' & _).
  { by apply reachable_dependents_ok in Hr. }
  { unfold lookup_slot. destruct (s !! id); [done|]. by rewrite bool_decide_eq_false_2. }
  { rewrite Hsize. vm_compute. lia. }
  { rewrite Hsize. vm_compute. lia. }
  assert (dom s' = dom grid5) as Hg by congruence.
  destruct (updateAllUI_cells s' d) as (d' & Hd2 & _ & _ & Hshow).
  { intros k Hk. by apply (grid5_cells s' k Hg). }
  exists s', d'. unfold window_setCell. cbn [fst snd]. rewrite Hs', Hd2.
  split; [done|]. split; [done|].
  intros k c input' Hk Hin Hfocus.
  assert (k ∈ cell_ids COLS ROWS) as Hids by (apply (grid5_cells s' k Hg); by exists c).
  destruct (elements d !! k) as [input|] eqn:E.
  - destruct (Hshow k c Hids Hk input E) as (i' & Hi' & _ & _ & Hv).
    rewrite Hin in Hi'. injection Hi' as <-. by rewrite bool_decide_eq_false_2 in Hv.
  - pose proof (updateAllUI_dom s' d d' Hd2 k) as H. rewrite E, Hin in H.
    destruct H as [H _]. by destruct H.
Qed.

Lemma window_setCell_repaints_witness :
  ∃ s' d', window_setCell reference_engine efuel5 fuel5 "A1" "=1/4"
             (grid5, mkDocument {[ "A1" := mkInput "" "" "" ]} None) = Done (s', d')
           ∧ setCell reference_engine efuel5 fuel5 "A1" "=1/4" grid5 = Done s'
           ∧ ∀ k c input', s' !! k = Some c -> elements d' !! k = Some input' ->
               None ≠ Some k -> input_value input' = display (value c) (error c).
Proof.
  apply (window_setCell_repaints reference_engine grid5
           (mkDocument {[ "A1" := mkInput "" "" "" ]} None) "A1" "=1/4").
  - apply reachable_new.
  - reflexivity.
  - vm_compute. intros H. repeat (apply elem_of_cons in H as [H|H]; [discriminate|]).
    by apply elem_of_nil in H.
Defined.

(** ** Cells that depend on no reference cycle *)

Lemma ranked_on_frames U rank s t : same_frames s t -> ranked_on U rank s -> ranked_on U rank t.
Proof.
  intros Hf H id cell r HU Hid Hr.
  destruct (same_frames_lookup t s id cell (same_frames_sym _ _ Hf) Hid) as (c & Hc & E & _).
  apply (H id c r HU Hc). by rewrite E.
Qed.

Lemma settled_store_outside run s W x v e :
  settled run s W -> x ∉ W ->
  settled run (store x v e s) W ∧ ∀ k, k ∈ W -> vals <$> store x v e s !! k = vals <$> s !! k.
Proof.
  intros Hs Hx.
  assert (∀ k, k ∈ W -> vals <$> store x v e s !! k = vals <$> s !! k) as Hkeep.
  { intros k Hk. apply store_vals_other. congruence. }
  split; [|done]. intros c Hc. destruct (Hs c Hc) as [Hcons Hcl].
  assert (∀ cc r, store x v e s !! c = Some cc -> r ∈ formula_refs (raw cc) -> r ∈ W) as Hcl'.
  { intros cc r Hcc Hr. pose proof (store_raw x v e s c) as Hraw.
    rewrite Hcc in Hraw. simpl in Hraw.
    destruct (s !! c) as [c0|] eqn:Hc0; [|done]. injection Hraw as Hraw. rewrite Hraw in Hr.
    by apply (Hcl c0 r). }
  split; [|done]. unfold consistent.
  rewrite (own_result_ext run (store x v e s) s c).
  - rewrite Hkeep by done. exact Hcons.
  - apply store_raw.
  - intros cc r Hcc Hr. apply Hkeep. by eapply Hcl'.
Qed.

Lemma substitute_settles_on run U rank ev body w (inU : Prop) :
  settles_on run U rank ev ->
  ∀ (refs seen : list string) expr s W,
    linked s -> ranked_on U rank s -> settled run s W -> W ⊆ U ->
    (inU -> (∀ r, r ∈ seen -> r ∈ W) ∧ expr = substituted s seen body
            ∧ ∀ r, r ∈ refs -> r ∈ U) ->
    (∀ r u, r ∈ refs -> u ∈ w -> u ∈ U -> r ∈ U ∧ rank r < rank u) ->
    ∀ expr' s' w', substitute ev refs expr (s, w) = Done (expr', (s', w')) ->
      w' = w ∧ same_frames s s'
      ∧ ∃ W', W ⊆ W' ∧ W' ⊆ U ∧ settled run s' W'
              ∧ (∀ k, k ∈ W -> vals <$> s' !! k = vals <$> s !! k)
              ∧ (inU -> (∀ r, r ∈ (seen ++ refs)%list -> r ∈ W')
                        ∧ expr' = substituted s' (seen ++ refs)%list body).
Proof.
  intros Hev. induction refs as [|r refs IH];
    intros seen expr s W Hl Hrk Hs HWU Hin Hrank expr' s' w' H; simpl in H.
  - injection H as <- <- <-. split; [done|]. split; [done|]. exists W.
    rewrite app_nil_r. split; [done|]. split; [done|]. split; [done|]. split; [done|].
    intros HU. destruct (Hin HU) as (? & ? & _). done.
  - destruct (ev r (s, w)) as [[s1 w1]|m st1|] eqn:E; [|done|done].
    destruct (Hev r s w W Hl Hrk Hs HWU (λ u Hu, Hrank r u (list_elem_of_here _ _) Hu) s1 w1 E)
      as (-> & Hf1 & W1 & Hsub1 & HW1U & Hr1 & Hs1 & Hk1).
    destruct (IH (seen ++ [r])%list
                (replaceAll r ("(" ++ to_text (ref_value s1 r) ++ ")") expr) s1 W1)
      with (expr' := expr') (s' := s') (w' := w')
      as (-> & Hf2 & W2 & Hsub2 & HW2U & Hs2 & Hk2 & He2).
    + by eapply linked_except_frames.
    + by eapply ranked_on_frames.
    + done.
    + done.
    + intros HU. destruct (Hin HU) as (Hseen & Hexpr & Hrefs). split; [|split].
      * intros r' [Hr'|Hr']%elem_of_app; [auto|].
        apply list_elem_of_singleton in Hr' as ->. apply Hr1, Hrefs. by left.
      * rewrite substituted_snoc, Hexpr. f_equal.
        apply substituted_ext. intros r' Hr'. symmetry. apply Hk1. auto.
      * intros r' Hr'. apply Hrefs. by right.
    + intros r' u Hr' Hu. apply Hrank; [by right|done].
    + done.
    + split; [done|]. split; [by eapply same_frames_trans|]. exists W2.
      split; [by etrans|]. split; [done|]. split; [done|]. split.
      * intros k Hk. rewrite Hk2 by auto. by apply Hk1.
      * intros HU. destruct (He2 HU) as [Hr2 He2'].
        rewrite <- app_assoc in Hr2, He2'. simpl in Hr2, He2'. done.
Qed.

Lemma evaluateCell_settles_on run U rank fuel : settles_on run U rank (evaluateCell run fuel).
Proof.
  induction fuel as [|fuel IH]; intros x s v W Hl Hrk Hs HWU Hv s' v' H; [done|].
  simpl in H. destruct (lookup_slot s x) as [cell| |] eqn:Hslot.
  - apply lookup_slot_Own in Hslot.
    destruct (decide (x ∈ v)) as [Hxv|Hxv].
    { injection H as <- <-. split; [done|]. split; [apply same_frames_store|].
      assert (x ∉ U) as HxU by (intros HU; destruct (Hv x Hxv HU); lia).
      destruct (settled_store_outside run s W x (VStr "#CIRC") (Some "Circular reference") Hs)
        as [H1 H2]; [by intros ?%HWU|].
      exists W. split; [done|]. split; [done|]. split; [done|]. done. }
    assert (∀ v0 e0 t W1, same_frames s t -> settled run t W1 -> W ⊆ W1 -> W1 ⊆ U ->
              (∀ k, k ∈ W -> vals <$> t !! k = vals <$> s !! k) ->
              (x ∈ U -> (∀ r, r ∈ formula_refs (raw cell) -> r ∈ W1)
                        ∧ own_result run t x = Some (v0, e0)) ->
              (v ∪ {[x]}) ∖ {[x]} = v ∧ same_frames s (store x v0 e0 t)
              ∧ ∃ W', W ⊆ W' ∧ W' ⊆ U ∧ (x ∈ U -> x ∈ W') ∧ settled run (store x v0 e0 t) W'
                      ∧ ∀ k, k ∈ W -> vals <$> store x v0 e0 t !! k = vals <$> s !! k) as Hfin.
    { intros v0 e0 t W1 Hf1 Hs1 Hsub1 HW1U Hk1 Hown.
      split; [by apply add_remove_visited|].
      split; [eapply same_frames_trans; [exact Hf1|apply same_frames_store]|].
      destruct (same_frames_lookup s t x cell Hf1 Hslot) as (c1 & Hc1 & Hraw1 & _).
      destruct (decide (x ∈ U)) as [HU|HU].
      - destruct (Hown HU) as [Hcl Hres].
        destruct (settle_store run t W1 x c1 v0 e0 Hs1 Hc1) as [H1 H2].
        { intros r. rewrite Hraw1. apply Hcl. }
        { done. }
        exists (W1 ∪ {[x]}). split; [clear -Hsub1; set_solver|].
        split; [clear -HW1U HU; set_solver|].
        split; [clear; set_solver|]. split; [done|].
        intros k Hk. rewrite H2 by auto. by apply Hk1.
      - destruct (settled_store_outside run t W1 x v0 e0 Hs1) as [H1 H2]; [by intros ?%HW1U|].
        exists W1. split; [done|]. split; [done|]. split; [done|]. split; [done|].
        intros k Hk. rewrite H2 by auto. by apply Hk1. }
    destruct (startsWith "=" (trim (raw cell))) eqn:F; simpl in H.
    2:{ injection H as <- <-.
        assert (formula_refs (raw cell) = []) as Hrefs.
        { unfold formula_refs, is_formula. by rewrite F. }
        apply (Hfin _ _ s W); auto using same_frames_refl.
        intros _. split.
        - intros r. rewrite Hrefs. by rewrite elem_of_nil.
        - unfold own_result. by rewrite Hslot, F. }
    assert (formula_refs (raw cell) = match_refs (trim (raw cell))) as Hrefs.
    { unfold formula_refs, is_formula. by rewrite F. }
    rewrite (foldl_add_edge_fix x cell _ s Hl Hslot) in H by (intros r; by rewrite Hrefs).
    pose proof (substitute_outcome (evaluateCell run fuel) (match_refs (trim (raw cell)))
      (v ∪ {[x]})
      (λ r t Hr, evaluateCell_outcome run fuel r t _
         (lookup_slot_ref t r (match_refs_is_ref _ r Hr)))
      (slice1 (trim (raw cell))) s) as Hout.
    destruct (substitute (evaluateCell run fuel) (match_refs (trim (raw cell)))
                (slice1 (trim (raw cell))) (s, v ∪ {[x]}))
      as [[expr [s1 v1]]|m st1|] eqn:E; [|done|done].
    destruct (substitute_settles_on run U rank (evaluateCell run fuel) (slice1 (trim (raw cell)))
                (v ∪ {[x]}) (x ∈ U) IH (match_refs (trim (raw cell))) []
                (slice1 (trim (raw cell))) s W Hl Hrk Hs HWU)
      with (expr' := expr) (s' := s1) (w' := v1)
      as (-> & Hf1 & W1 & Hsub1 & HW1U & Hs1 & Hk1 & He1).
    { intros HU. split; [intros r; by rewrite elem_of_nil|]. split; [done|].
      intros r Hr. rewrite <- Hrefs in Hr. by destruct (Hrk x cell r HU Hslot Hr). }
    { intros r u Hr [Hu|Hu]%elem_of_union HuU.
      - destruct (Hv u Hu HuU) as [HxU Hlt]. rewrite <- Hrefs in Hr.
        destruct (Hrk x cell r HxU Hslot Hr). split; [done|lia].
      - apply elem_of_singleton in Hu as ->. rewrite <- Hrefs in Hr.
        apply (Hrk x cell r HuU Hslot Hr). }
    { done. }
    destruct (same_frames_lookup s s1 x cell Hf1 Hslot) as (c1 & Hc1 & Hraw1 & _).
    pose proof (own_result_formula run s1 x c1 Hc1) as Hown.
    rewrite Hraw1 in Hown. specialize (Hown F). simpl in Hown.
    injection H as <- <-.
    assert (x ∈ U -> expr = substituted s1 (match_refs (trim (raw cell))) (slice1 (trim (raw cell))))
      as Hexpr by (intros HU; by destruct (He1 HU)).
    assert (x ∈ U -> ∀ r, r ∈ formula_refs (raw cell) -> r ∈ W1) as Hcl.
    { intros HU r. rewrite Hrefs. destruct (He1 HU) as [Hr1 _]. apply Hr1. }
    destruct (valid_expr expr) eqn:Hvalid; [destruct (run expr) eqn:Hrun|];
      (apply (Hfin _ _ s1 W1); [done..|]; intros HU; split; [by apply Hcl|];
       rewrite Hown, <- (Hexpr HU), Hvalid, ?Hrun; done).
  - destruct (decide (x ∈ v)) as [Hxv|Hxv]; [|done].
    injection H as <- <-. split; [done|]. split; [done|].
    exists W. split; [done|]. split; [done|]. split; [|done].
    intros HU. destruct (Hv x Hxv HU). lia.
  - injection H as <- <-. split; [done|]. split; [done|].
    destruct (decide (x ∈ U)) as [HU|HU].
    + exists (W ∪ {[x]}). split; [clear; set_solver|]. split; [clear -HWU HU; set_solver|].
      split; [clear; set_solver|].
      split; [|done]. apply settled_absent; [done|].
      unfold lookup_slot in Hslot. destruct (s !! x); [done|done].
    + exists W. done.
Qed.

Lemma swept_on_frames U s t V V' W id :
  same_frames s t -> swept_on U t V V' W id -> swept_on U s V V' W id.
Proof.
  intros Hf H a Ha Hna. destruct (H a Ha Hna) as ([ct Hct] & HW & Hcl).
  destruct (same_frames_lookup t s a ct (same_frames_sym _ _ Hf) Hct) as (cs & Hcs & _ & _ & Ed).
  split; [by exists cs|]. split; [done|].
  intros ca b Hca Hb. apply (Hcl ct b Hct). assert (ca = cs) as -> by congruence.
  by rewrite <- Ed.
Qed.

Lemma updateDependents_settles_on run U rank efuel fuel :
  (∀ id s V W, linked s -> ranked_on U rank s -> settled run s W -> W ⊆ U ->
     ∀ s' V', updateDependents run efuel fuel id (s, V) = Done (s', V') ->
       same_frames s s' ∧ V ⊆ V' ∧ id ∈ V'
       ∧ ∃ W', W ⊆ W' ∧ W' ⊆ U ∧ settled run s' W' ∧ swept_on U s V V' W' (Some id))
  ∧ (∀ id i s V W, linked s -> ranked_on U rank s -> settled run s W -> W ⊆ U ->
     ∀ s' V', upd_loop run efuel fuel id i (s, V) = Done (s', V') ->
       same_frames s s' ∧ V ⊆ V'
       ∧ ∃ W', W ⊆ W' ∧ W' ⊆ U ∧ settled run s' W' ∧ swept_on U s V V' W' None
               ∧ ∀ ca j b, s !! id = Some ca -> (i <= j)%nat ->
                   dependents ca !! j = Some b -> b ∈ V').
Proof.
  induction fuel as [|fuel [IHu IHl]]; [split; intros; simpl in *; done|].
  split.
  - intros id s V W H0 H1 H2 H3 s' V' H. simpl in H.
    destruct (decide (id ∈ V)) as [Hin|Hin].
    { injection H as <- <-. split; [done|]. split; [done|]. split; [done|].
      exists W. split; [done|]. split; [done|]. split; [done|]. intros a Ha Hna. done. }
    destruct (lookup_slot s id) as [cell| |] eqn:Hslot; [|done|done].
    apply lookup_slot_Own in Hslot.
    destruct (IHl id 0 s (V ∪ {[id]}) W H0 H1 H2 H3 s' V' H)
      as (Hf & Hsub & W' & HW & HWU & Hs' & Hsw & Hall).
    split; [done|]. split; [clear -Hsub; set_solver|]. split; [clear -Hsub; set_solver|].
    exists W'. split; [done|]. split; [done|]. split; [done|].
    intros a Ha Hna. destruct (decide (a = id)) as [->|Hne].
    + split; [by exists cell|]. split; [done|].
      intros ca b Hca Hb. assert (ca = cell) as -> by congruence.
      apply list_elem_of_lookup in Hb as [j Hj].
      apply (Hall cell j b Hslot); [lia|done].
    + destruct (Hsw a Ha) as (? & HaW & ?); [clear -Hna Hne; set_solver|].
      split; [done|]. split; [|done]. intros _. by apply HaW.
  - intros id i s V W H0 H1 H2 H3 s' V' H. simpl in H.
    destruct (s !! id ≫= (λ c, dependents c !! i)) as [dep|] eqn:Hdep.
    2:{ injection H as <- <-. split; [done|]. split; [done|].
        exists W. split; [done|]. split; [done|]. split; [done|].
        split; [by intros a Ha Hna|].
        intros ca j b Hca Hij Hj. rewrite Hca in Hdep. simpl in Hdep.
        apply lookup_ge_None in Hdep. apply lookup_lt_Some in Hj. lia. }
    destruct (evaluateCell run efuel dep (s, ∅)) as [[s1 v1]|m [s1 v1]|] eqn:E1; [|done|done].
    destruct (evaluateCell_settles_on run U rank efuel dep s ∅ W H0 H1 H2 H3
                (λ u Hu, False_ind _ (not_elem_of_empty u Hu)) s1 v1 E1)
      as (_ & Hf1 & W1 & HW1 & HW1U & Hd1 & Hs1 & _).
    destruct (updateDependents run efuel fuel dep (s1, V)) as [[s2 V1]|m [s2 V1]|] eqn:E2;
      [|done|done].
    destruct (IHu dep s1 V W1 (linked_except_frames _ _ _ Hf1 H0)
                (ranked_on_frames _ _ _ _ Hf1 H1) Hs1 HW1U s2 V1 E2)
      as (Hf2 & HV1 & Hdv & W2 & HW2 & HW2U & Hs2 & Hsw2).
    pose proof (same_frames_trans _ _ _ Hf1 Hf2) as Hf12.
    destruct (IHl id (S i) s2 V1 W2 (linked_except_frames _ _ _ Hf12 H0)
                (ranked_on_frames _ _ _ _ Hf12 H1) Hs2 HW2U s' V' H)
      as (Hf3 & HV' & W3 & HW3 & HW3U & Hs3 & Hsw3 & Hall).
    split; [by eapply same_frames_trans|]. split; [by etrans|].
    exists W3. split; [clear -HW1 HW2 HW3; set_solver|]. split; [done|]. split; [done|]. split.
    + intros a Ha Hna. destruct (decide (a ∈ V1)) as [Ha1|Ha1].
      * destruct (swept_on_frames U s s1 V V1 W2 (Some dep) Hf1 Hsw2 a Ha1 Hna)
          as (Hsome & HaW & Hcl).
        split; [done|]. split.
        -- intros _ HaU. destruct (decide (a = dep)) as [->|Hne]; [by apply HW3, HW2, Hd1|].
           apply HW3, HaW; [congruence|done].
        -- intros ca b Hca Hb. apply HV'. by apply (Hcl ca b).
      * apply (swept_on_frames U s s2 V1 V' W3 None Hf12 Hsw3 a Ha Ha1).
    + intros ca j b Hca Hij Hj. destruct (decide (j = i)) as [->|Hne].
      * rewrite Hca in Hdep. simpl in Hdep. assert (b = dep) as -> by congruence.
        by apply HV'.
      * destruct (same_frames_lookup s s2 id ca Hf12 Hca) as (c2 & Hc2 & _ & _ & Ed).
        apply (Hall c2 j b Hc2); [lia|by rewrite Ed].
Qed.

Lemma prepared_shown id text cell (s : sheet) k :
  s !! id = Some cell -> k ≠ id ->
  (λ c, (raw c, value c, error c)) <$> link id (detach id text cell s) !! k
  = (λ c, (raw c, value c, error c)) <$> s !! k.
Proof.
  intros Hid Hk. unfold link.
  assert ((λ c, (raw c, value c, error c)) <$> detach id text cell s !! k
          = (λ c, (raw c, value c, error c)) <$> s !! k) as Hd.
  { rewrite (detach_lookup _ _ _ _ _ Hid). destruct (s !! k) as [c|]; [|done]. simpl.
    rewrite decide_False by done. by destruct (decide (k ∈ dependencies cell)). }
  destruct (detach id text cell s !! id); [|done]. by rewrite foldl_add_edge_shown.
Qed.

Lemma shown_raw_vals (s t : sheet) k :
  (λ c, (raw c, value c, error c)) <$> s !! k = (λ c, (raw c, value c, error c)) <$> t !! k ->
  raw <$> s !! k = raw <$> t !! k ∧ vals <$> s !! k = vals <$> t !! k.
Proof.
  destruct (s !! k) as [c|], (t !! k) as [c'|]; simpl; try done.
  intros [= H1 H2 H3]. unfold vals. by rewrite H1, H2, H3.
Qed.

Lemma setCell_grounded run efuel fuel id text s s' :
  linked s ->
  (∀ U rank, ranked_on U rank s -> ∀ c, c ∈ U -> consistent run s c) ->
  setCell run efuel fuel id text s = Done s' ->
  ∀ U rank, ranked_on U rank s' -> ∀ c, c ∈ U -> consistent run s' c.
Proof.
  intros Hl Hinv H U rank Hrk.
  destruct (s !! id) as [cell|] eqn:Hid.
  2:{ unfold setCell, lookup_slot in H. rewrite Hid in H.
      destruct (bool_decide _); [done|]. injection H as <-. exact (Hinv U rank Hrk). }
  pose proof (setCell_frames run efuel fuel id text s cell s' Hl Hid H) as Hf.
  pose proof (linked_except_detach s id text cell Hid Hl) as Hd.
  pose proof (link_linked id _ Hd) as HL.
  pose proof (λ k, prepared_shown id text cell s k Hid) as Hsame.
  set (L := link id (detach id text cell s)) in *.
  assert (ranked_on U rank L) as HrL
    by (eapply ranked_on_frames; [apply same_frames_sym, Hf|done]).
  unfold setCell in H. rewrite (proj2 (lookup_slot_Own s id cell) Hid) in H.
  rewrite (evaluateCell_link run efuel id _ ∅ Hd (not_elem_of_empty _)) in H. fold L in H.
  destruct (evaluateCell run efuel id (L, ∅)) as [[s1 v1]|m [s1 v1]|] eqn:E1; [|done|done].
  destruct (updateDependents run efuel fuel id (s1, ∅)) as [[s2 V']|m [s2 V']|] eqn:E2;
    [|done|done].
  injection H as ->.
  pose proof (evaluateCell_frames run efuel id (L, ∅) s1 HL) as Hf1.
  rewrite E1 in Hf1. specialize (Hf1 eq_refl). simpl in Hf1.
  pose proof (linked_except_frames _ _ _ Hf1 HL) as Hl1.
  pose proof (ranked_on_frames _ _ _ _ Hf1 HrL) as Hr1.
  (* the cells that propagation visits *)
  destruct (proj1 (updateDependents_settles_on run U rank efuel fuel) id s1 ∅ ∅
              Hl1 Hr1 (settled_empty run s1) (empty_subseteq _) s' V' E2)
    as (_ & _ & HidV & Wc & _ & _ & _ & Hcl).
  (* the cells of [U] that it does not visit were settled before the call *)
  assert (∀ c r cL, c ∈ U -> c ∉ V' -> L !! c = Some cL -> r ∈ formula_refs (raw cL) ->
            r ∈ U ∧ (r ∉ V') ∧ rank r < rank c) as Hout.
  { intros c r cL HcU HcV HcL Hr. destruct (HrL c cL r HcU HcL Hr) as [HrU Hlt].
    split; [done|]. split; [|done]. intros HrV.
    destruct (Hcl r HrV (not_elem_of_empty _)) as ([cr Hcr] & _ & Hdeps).
    destruct (same_frames_lookup L s1 c cL Hf1 HcL) as (c1 & Hc1 & Hraw1 & _).
    destruct (Hl1 c c1 r Hc1) as [_ Hback]; [done|by rewrite Hraw1|].
    apply HcV. apply (Hdeps cr c Hcr). by apply Hback. }
  assert (id ∈ V') as HidV' by done.
  assert (settled run L (U ∖ V')) as Hs0.
  { intros c [HcU HcV]%elem_of_difference.
    assert (c ≠ id) as Hne by congruence.
    destruct (shown_raw_vals L s c (Hsame c Hne)) as [Hraw Hvals].
    split.
    - unfold consistent. rewrite Hvals.
      rewrite (own_result_ext run L s c Hraw).
      + apply (Hinv (U ∖ V') rank); [|by apply elem_of_difference].
        intros c' cell' r [Hc'U Hc'V]%elem_of_difference Hc' Hr.
        assert (c' ≠ id) as Hne' by congruence.
        destruct (shown_raw_vals L s c' (Hsame c' Hne')) as [Hraw' _].
        rewrite Hc' in Hraw'. destruct (L !! c') as [cL|] eqn:HcL; [|done].
        injection Hraw' as Hraw'. rewrite <- Hraw' in Hr.
        destruct (Hout c' r cL Hc'U Hc'V HcL Hr) as (? & ? & ?).
        split; [by apply elem_of_difference|done].
      + intros cL r HcL Hr. destruct (Hout c r cL HcU HcV HcL Hr) as (_ & HrV & _).
        assert (r ≠ id) as Hrne by congruence.
        by destruct (shown_raw_vals L s r (Hsame r Hrne)).
    - intros cL r HcL Hr. destruct (Hout c r cL HcU HcV HcL Hr) as (? & ? & _).
      by apply elem_of_difference. }
  destruct (evaluateCell_settles_on run U rank efuel id L ∅ (U ∖ V') HL HrL Hs0
              (subseteq_difference_l U V' U (reflexivity U))
              (λ u Hu, False_ind _ (not_elem_of_empty u Hu)) s1 v1 E1)
    as (_ & _ & W1 & HW1 & HW1U & Hid1 & Hs1 & _).
  destruct (proj1 (updateDependents_settles_on run U rank efuel fuel) id s1 ∅ W1
              Hl1 Hr1 Hs1 HW1U s' V' E2)
    as (_ & _ & _ & W' & HW' & _ & Hs' & Hsw).
  intros c HcU. apply (Hs' c).
  destruct (decide (c ∈ V')) as [HcV|HcV]; [|by apply HW', HW1, elem_of_difference].
  destruct (decide (c = id)) as [->|Hne]; [by apply HW', Hid1|].
  destruct (Hsw c HcV (not_elem_of_empty _)) as (_ & HcW & _). apply HcW; [congruence|done].
Qed.

Lemma consistent_new run cols rows c : consistent run (Spreadsheet cols rows) c.
Proof.
  unfold consistent, own_result.
  destruct (Spreadsheet cols rows !! c) as [cell|] eqn:E; [|done].
  apply Spreadsheet_lookup in E as ->. done.
Qed.

Lemma reachable_grounded run s :
  reachable run s -> ∀ U rank, ranked_on U rank s -> ∀ c, c ∈ U -> consistent run s c.
Proof.
  induction 1 as [cols rows|s efuel fuel id text s' Hr IH Hset].
  - intros U rank _ c _. apply consistent_new.
  - eapply setCell_grounded; [by eapply reachable_linked|exact IH|exact Hset].
Qed.

Lemma names_elem (s : sheet) k :
  k ∈ names s <-> ∃ id cell, s !! id = Some cell ∧ (k = id ∨ k ∈ formula_refs (raw cell)).
Proof.
  unfold names. rewrite elem_of_list_to_set, list_elem_of_bind. split.
  - intros ([id cell] & Hk & Hin). apply elem_of_map_to_list in Hin.
    exists id, cell. split; [done|]. by apply elem_of_cons in Hk.
  - intros (id & cell & Hid & Hk). exists (id, cell). split.
    + by apply elem_of_cons.
    + by apply elem_of_map_to_list.
Qed.

Lemma acyclic_consistent run s : reachable run s -> acyclic s -> ∀ c, consistent run s c.
Proof.
  intros Hr [rank Hrk] c.
  destruct (s !! c) as [cell|] eqn:Hc.
  - apply (reachable_grounded run s Hr (names s) rank).
    + intros id cl r _ Hid Href. split; [|by apply (Hrk id cl r)].
      apply names_elem. exists id, cl. auto.
    + apply names_elem. exists c, cell. auto.
  - unfold consistent, own_result. by rewrite Hc.
Qed.

(** X13: in every reachable table, a cell whose chains of references all
    end, so that it neither lies on a reference cycle nor depends on a cell
    that does, holds the value and the error that its raw text stands for
    over the values that its references now hold, whatever cycles the table
    has elsewhere or had earlier; in a reachable table without a reference
    cycle, every cell does.  The cells are given as a set [U] that holds the
    references of its cells and in which a rank falls along every
    reference. *)
Theorem grounded_cells_are_current run s :
  reachable run s ->
  (∀ U rank c, ranked_on U rank s -> c ∈ U -> consistent run s c)
  ∧ (acyclic s -> ∀ c, consistent run s c).
Proof.
  intros Hr. split.
  - intros U rank c HU Hc. by apply (reachable_grounded run s Hr U rank).
  - by apply acyclic_consistent.
Qed.

Lemma ranked_on_b_spec U rank s : ranked_on_b U rank s = true -> ranked_on U rank s.
Proof.
  unfold ranked_on_b. rewrite forallb_forall. intros H id cell r HU Hid Hr.
  specialize (H (id, cell)). simpl in H.
  rewrite bool_decide_eq_true_2 in H by done. simpl in H.
  rewrite forallb_forall in H.
  assert (bool_decide (r ∈ U) && (rank r <? rank id)%nat = true) as Hb.
  { apply H; [|by apply list_elem_of_In]. apply list_elem_of_In, elem_of_map_to_list. done. }
  apply andb_true_iff in Hb as [H1 H2].
  split; [by apply bool_decide_eq_true in H1|by apply Nat.ltb_lt].
Qed.

Lemma grounded_cells_are_current_witness :
  consistent reference_engine
    (state_after [("A1", "=B1+1"); ("B1", "=A1+1"); ("C1", "5"); ("D1", "=C1*2"); ("C1", "6")])
    "D1".
Proof.
  apply (proj1 (grounded_cells_are_current reference_engine _ (state_after_reachable _))
           {[ "C1"; "D1" ]} (λ r : string, if String.eqb r "D1" then 1%nat else 0%nat)).
  - apply ranked_on_b_spec. vm_compute. reflexivity.
  - set_solver.
Defined.

(** ** The values of a table without reference cycles *)

Lemma ranked_same_texts rank (s t : sheet) :
  (∀ k, raw <$> t !! k = raw <$> s !! k) -> ranked rank s -> ranked rank t.
Proof.
  intros Hraw H id cell r Hid Hr. specialize (Hraw id). rewrite Hid in Hraw.
  destruct (s !! id) as [cs|] eqn:Hs; [|done]. injection Hraw as Hraw.
  apply (H id cs r Hs). by rewrite <- Hraw.
Qed.

Lemma values_from_texts run (s t : sheet) :
  reachable run s -> reachable run t -> acyclic s ->
  (∀ k, raw <$> t !! k = raw <$> s !! k) ->
  ∀ k, vals <$> t !! k = vals <$> s !! k.
Proof.
  intros Hs Ht [rank Hrk] Hraw.
  pose proof (ranked_same_texts rank s t Hraw Hrk) as Hrkt.
  pose proof (acyclic_consistent run s Hs (ex_intro _ rank Hrk)) as Hcs.
  pose proof (acyclic_consistent run t Ht (ex_intro _ rank Hrkt)) as Hct.
  intros k. remember (rank k) as n eqn:Hn. revert k Hn.
  induction (lt_wf n) as [n _ IH]. intros k ->.
  rewrite (Hct k), (Hcs k). apply own_result_ext; [apply Hraw|].
  intros cell r Hcell Hr. apply (IH (rank r)); [|done].
  by apply (Hrkt k cell r).
Qed.

(** X14: the values of a table without reference cycles depend on its raw
    texts only, not on the calls that led to them: two reachable tables with
    the same raw text in every cell, one of them without a reference cycle,
    show the same value and the same error in every cell. *)
Theorem values_depend_on_texts_only run (s t : sheet) :
  reachable run s -> reachable run t -> acyclic s ->
  raw <$> t = raw <$> s ->
  ∀ k, shown t k = shown s k.
Proof.
  intros Hs Ht Ha Hraw k. apply shown_vals. apply (values_from_texts run s t); try done.
  intros j. by rewrite <- !lookup_fmap, Hraw.
Qed.

Lemma values_depend_on_texts_only_witness :
  shown (state_after [("B1", "=A1*3"); ("A1", "4")]) "A1"
  = shown (state_after [("A1", "4"); ("B1", "=A1*3")]) "A1"
  ∧ shown (state_after [("B1", "=A1*3"); ("A1", "4")]) "B1"
    = shown (state_after [("A1", "4"); ("B1", "=A1*3")]) "B1".
Proof.
  assert (∀ k, shown (state_after [("B1", "=A1*3"); ("A1", "4")]) k
               = shown (state_after [("A1", "4"); ("B1", "=A1*3")]) k) as H.
  { apply (values_depend_on_texts_only reference_engine).
    - apply state_after_reachable.
    - apply state_after_reachable.
    - exists (λ r : string, if String.eqb r "B1" then 1%nat else 0%nat).
      apply ranked_b_spec. vm_compute. reflexivity.
    - vm_compute. reflexivity. }
  split; apply H.
Defined.

Lemma setCell_raw_any run efuel fuel id text (s s' : sheet) k :
  setCell run efuel fuel id text s = Done s' ->
  raw <$> s' !! k
  = if decide (k = id) then (λ _, text) <$> (raw <$> s !! k) else raw <$> s !! k.
Proof.
  intros H. destruct (s !! id) as [cell|] eqn:Hid.
  - rewrite (setCell_raw run efuel fuel id text s cell s' k Hid H).
    destruct (decide (k = id)) as [->|]; [by rewrite Hid|done].
  - unfold setCell, lookup_slot in H. rewrite Hid in H.
    destruct (bool_decide _); [done|]. injection H as <-.
    destruct (decide (k = id)) as [->|]; [by rewrite Hid|done].
Qed.

(** X15: calls of [setCell] on two different cells commute on tables
    without reference cycles: from a reachable table both orders return,
    and when the table that one order leaves has no reference cycle, the
    two tables show the same value and the same error in every cell. *)
Theorem setCell_calls_commute run s a ta b tb efuel fuel :
  reachable run s -> a ≠ b -> a ∉ inherited_names -> b ∉ inherited_names ->
  size (dom s) < efuel -> (fuel_for (size (dom s)) <= fuel)%nat ->
  ∃ s1 s2 t1 t2,
    setCell run efuel fuel a ta s = Done s1 ∧ setCell run efuel fuel b tb s1 = Done s2
    ∧ setCell run efuel fuel b tb s = Done t1 ∧ setCell run efuel fuel a ta t1 = Done t2
    ∧ (acyclic s2 -> ∀ k, shown t2 k = shown s2 k).
Proof.
  intros Hr Hab Ha Hb He Hf.
  assert (∀ (u : sheet) x, x ∉ inherited_names -> lookup_slot u x ≠ Inherited) as Hslot.
  { intros u x Hx. unfold lookup_slot. destruct (u !! x); [done|].
    by rewrite bool_decide_eq_false_2. }
  pose proof (reachable_dependents_ok run s Hr) as Hok.
  destruct (setCell_total run efuel fuel a ta s) as (s1 & E1 & Hd1 & Hok1); auto.
  destruct (setCell_total run efuel fuel b tb s1) as (s2 & E2 & Hd2 & _); auto;
    [by rewrite Hd1..|].
  destruct (setCell_total run efuel fuel b tb s) as (t1 & F1 & Hd1' & Hok1'); auto.
  destruct (setCell_total run efuel fuel a ta t1) as (t2 & F2 & Hd2' & _); auto;
    [by rewrite Hd1'..|].
  exists s1, s2, t1, t2. split; [done|]. split; [done|]. split; [done|]. split; [done|].
  intros Hacyc.
  intros k. apply shown_vals. revert k. apply (values_from_texts run s2 t2).
  - do 2 (eapply reachable_set; [|eassumption]). done.
  - do 2 (eapply reachable_set; [|eassumption]). done.
  - done.
  - intros k.
    rewrite (setCell_raw_any run efuel fuel a ta t1 t2 k F2),
      (setCell_raw_any run efuel fuel b tb s t1 k F1),
      (setCell_raw_any run efuel fuel b tb s1 s2 k E2),
      (setCell_raw_any run efuel fuel a ta s s1 k E1).
    destruct (decide (k = a)) as [Hka|Hka], (decide (k = b)) as [Hkb|Hkb]; [congruence|done..].
Qed.

Lemma setCell_calls_commute_witness :
  ∃ s1 s2 t1 t2,
    setCell reference_engine efuel5 fuel5 "A1" "=B1+1" grid5 = Done s1
    ∧ setCell reference_engine efuel5 fuel5 "B1" "2" s1 = Done s2
    ∧ setCell reference_engine efuel5 fuel5 "B1" "2" grid5 = Done t1
    ∧ setCell reference_engine efuel5 fuel5 "A1" "=B1+1" t1 = Done t2
    ∧ (acyclic s2 -> ∀ k, shown t2 k = shown s2 k).
Proof.
  apply (setCell_calls_commute reference_engine grid5 "A1" "=B1+1" "B1" "2" efuel5 fuel5).
  - apply reachable_new.
  - discriminate.
  - apply is_ref_not_inherited. exists "A"%char, "1"%char. done.
  - apply is_ref_not_inherited. exists "B"%char, "1"%char. done.
  - vm_compute. lia.
  - vm_compute. lia.
Defined.

(** ** Texts that fail the test of line 94, on cells that depend on no cycle *)

Lemma substituted_keeps_occurrence (s : sheet) ref refs :
  is_ref ref -> (∀ r, r ∈ refs -> is_ref r ∧ r ≠ ref) ->
  ∀ e, occurs ref e -> occurs ref (substituted s refs e).
Proof.
  intros Href. unfold substituted. induction refs as [|r refs IH]; intros Hrefs e He; simpl; [done|].
  apply IH; [intros r' Hr'; apply Hrefs; by right|].
  destruct (Hrefs r (list_elem_of_here _ _)) as [Hr Hne].
  by apply replaceAll_keeps_occurrence.
Qed.

Lemma substituted_keeps_char (s : sheet) c refs :
  (∀ r, r ∈ refs -> ¬ In_string c r) ->
  ∀ e, In_string c e -> In_string c (substituted s refs e).
Proof.
  unfold substituted. induction refs as [|r refs IH]; intros Hrefs e He; simpl; [done|].
  apply IH; [intros r' Hr'; apply Hrefs; by right|].
  apply replaceAll_keeps_char; [|done]. apply Hrefs. by left.
Qed.

(** The text of a value that holds a character outside the class, and
    outside the letters of the references, makes the substituted text fail
    the test. *)
Lemma substituted_invalid (s : sheet) refs body ref c :
  (∀ r, r ∈ refs -> is_ref r) -> ref ∈ refs -> occurs ref body ->
  In_string c (to_text (ref_value s ref)) ->
  is_expr_char c = false -> is_col_letter c = false ->
  valid_expr (substituted s refs body) = false.
Proof.
  intros Hrefs Hin Hocc Hc Hce Hcl.
  apply list_elem_of_split_l in Hin as (pre & post & -> & Hpre).
  assert (is_ref ref) as Href by (apply Hrefs, elem_of_app; right; by left).
  apply (invalid_char _ c); [|done].
  unfold substituted. rewrite foldl_app. simpl.
  apply (substituted_keeps_char s c post).
  { intros r Hr Hcr.
    destruct (is_ref_chars r c) as [H|H]; [|done|congruence|congruence].
    apply Hrefs, elem_of_app. right. by right. }
  apply replaceAll_inserts.
  - destruct Href as (a & b & -> & _). done.
  - change (In_string c (String "(" (to_text (ref_value s ref) ++ ")"))).
    right. rewrite In_string_app. by left.
  - apply (substituted_keeps_occurrence s ref pre Href); [|done].
    intros r Hr. split; [apply Hrefs, elem_of_app; by left|].
    intros ->. done.
Qed.

Lemma consistent_formula run (s : sheet) id cell :
  consistent run s id -> s !! id = Some cell -> is_formula (raw cell) = true ->
  valid_expr (substituted s (match_refs (trim (raw cell))) (slice1 (trim (raw cell)))) = false ->
  shown s id = (VStr "#ERR", Some (Some "Invalid formula")).
Proof.
  intros Hc Hid Hf Hv. unfold consistent in Hc.
  rewrite (own_result_formula run s id cell Hid Hf) in Hc. simpl in Hc.
  rewrite Hv, Hid in Hc. injection Hc as Hval Herr.
  unfold shown, getCell. rewrite (proj2 (lookup_slot_Own s id cell) Hid), Hid. simpl.
  by rewrite Hval, Herr.
Qed.

Lemma ranked_on_settled run s U rank :
  reachable run s -> ranked_on U rank s -> settled run s U.
Proof.
  intros Hr HU c Hc. split; [by apply (reachable_grounded run s Hr U rank)|].
  intros cell r Hcell Href. by destruct (HU c cell r Hc Hcell Href).
Qed.



(** C10 (as amended): in every reachable table, a formula cell that
    neither lies on a reference cycle nor depends on one (it is in a set
    [U] that holds the references of its cells and in which a rank falls
    along every reference), and that refers to a cell whose value is an
    infinite number or NaN, shows ['#ERR'] with the message
    ['Invalid formula']; and evaluating the cell again returns and leaves it
    so. *)
Theorem nonfinite_dependency_rejected run s U rank id cell ref x fuel :
  reachable run s -> ranked_on U rank s -> id ∈ U ->
  s !! id = Some cell -> is_formula (raw cell) = true ->
  ref ∈ match_refs (trim (raw cell)) ->
  getCell s ref = VNum x -> PrimFloat.is_finite x = false ->
  shown s id = (VStr "#ERR", Some (Some "Invalid formula"))
  ∧ (size (dom s) < fuel ->
       ∃ s', evaluateCell run fuel id (s, ∅) = Done (s', ∅)
             ∧ getCell s' ref = VNum x
             ∧ shown s' id = (VStr "#ERR", Some (Some "Invalid formula"))).
Proof.
  intros Hr HU HidU Hid Hf Href Hx Hfin.
  assert (shown s id = (VStr "#ERR", Some (Some "Invalid formula"))) as Hshown.
  { apply (consistent_formula run s id cell); [|done|done|].
    - by apply (reachable_grounded run s Hr U rank).
    - destruct (to_string_nonfinite x Hfin) as (c & Hc & Hce & Hcl).
      apply (substituted_invalid s _ _ ref c); try done.
      + intros r. apply match_refs_is_ref.
      + by apply formula_body_occurs.
      + unfold ref_value. by rewrite Hx. }
  split; [done|]. intros Hfuel.
  destruct (evaluateCell_total run fuel id s ∅) as (s' & Hs' & _).
  { by eapply lookup_slot_cell. }
  { by rewrite difference_empty_L. }
  exists s'. split; [done|].
  destruct (evaluateCell_settles_on run U rank fuel id s ∅ U (reachable_linked run s Hr) HU
              (ranked_on_settled run s U rank Hr HU) (reflexivity U)
              (λ u Hu, False_ind _ (not_elem_of_empty u Hu)) s' ∅ Hs')
    as (_ & _ & W' & _ & _ & _ & _ & Hkeep).
  assert (ref ∈ U) as HrefU.
  { apply (HU id cell ref HidU Hid). unfold formula_refs. by rewrite Hf. }
  split.
  - rewrite (getCell_vals s' s ref); [done|]. by apply Hkeep.
  - rewrite (shown_vals s' s id); [done|]. by apply Hkeep.
Qed.

Lemma nonfinite_dependency_rejected_witness :
  shown (state_after [("C1", "=A1+B1"); ("B1", "=A1+1"); ("A1", "=1/0")]) "C1"
  = (VStr "#ERR", Some (Some "Invalid formula"))
  ∧ ∃ s', evaluateCell reference_engine efuel5 "C1"
            (state_after [("C1", "=A1+B1"); ("B1", "=A1+1"); ("A1", "=1/0")], ∅) = Done (s', ∅)
          ∧ getCell s' "A1" = VNum PrimFloat.infinity
          ∧ shown s' "C1" = (VStr "#ERR", Some (Some "Invalid formula")).
Proof.
  assert (is_Some (state_after [("C1", "=A1+B1"); ("B1", "=A1+1"); ("A1", "=1/0")] !! "C1"))
    as [cell Hcell].
  { apply is_Some_computed. vm_compute. reflexivity. }
  assert (raw <$> state_after [("C1", "=A1+B1"); ("B1", "=A1+1"); ("A1", "=1/0")] !! "C1"
          = Some "=A1+B1") as Hraw by (vm_compute; reflexivity).
  rewrite Hcell in Hraw. injection Hraw as Hraw.
  destruct (nonfinite_dependency_rejected reference_engine
              (state_after [("C1", "=A1+B1"); ("B1", "=A1+1"); ("A1", "=1/0")])
              {[ "A1"; "B1"; "C1" ]}
              (λ r : string,
                 if String.eqb r "C1" then 2%nat else if String.eqb r "B1" then 1%nat else 0%nat)
              "C1" cell "A1" PrimFloat.infinity efuel5) as [H1 H2].
  - apply state_after_reachable.
  - apply ranked_on_b_spec. vm_compute. reflexivity.
  - set_solver.
  - exact Hcell.
  - by rewrite Hraw.
  - rewrite Hraw. vm_compute. left.
  - vm_compute. reflexivity.
  - reflexivity.
  - split; [exact H1|]. apply H2. vm_compute. lia.
Defined.

(** C10 (the claim as stated fails): after [A1 = "=D1+2"] and then
    [D1 = "=1/(A1-2)"], the cell [D1] holds the number Infinity and the
    formula of [A1] refers to [D1]; but [A1] shows 2 and no error, and
    evaluating [A1] again returns with 1.5 in [A1]: inside the reference
    cycle the evaluation of [A1] first evaluates [D1] again, which then
    reads 0 for [A1] and is no longer infinite. *)
Lemma nonfinite_dependency_in_cycle :
  ∃ s s', setCells reference_engine [("A1", "=D1+2"); ("D1", "=1/(A1-2)")] grid5 = Done s
          ∧ raw <$> s !! "A1" = Some "=D1+2"
          ∧ getCell s "D1" = VNum PrimFloat.infinity
          ∧ PrimFloat.is_finite PrimFloat.infinity = false
          ∧ shown s "A1" = (VNum 2, Some None)
          ∧ evaluateCell reference_engine efuel5 "A1" (s, ∅) = Done (s', ∅)
          ∧ shown s' "A1" = (VNum 1.5, Some None).
Proof.
  assert (match setCells reference_engine [("A1", "=D1+2"); ("D1", "=1/(A1-2)")] grid5 with
          | Done s =>
              match evaluateCell reference_engine efuel5 "A1" (s, ∅) with
              | Done (s', v') =>
                  Some (raw <$> s !! "A1", getCell s "D1", shown s "A1",
                        bool_decide (v' = ∅), shown s' "A1")
              | _ => None
              end
          | _ => None
          end = Some (Some "=D1+2", VNum PrimFloat.infinity, (VNum 2, Some None), true,
                      (VNum 1.5, Some None))) as H
    by (vm_compute; reflexivity).
  apply outcome_bind_inv in H as (s & Hs & H).
  destruct (evaluateCell reference_engine efuel5 "A1" (s, ∅)) as [[s' v']| |] eqn:E;
    [|done|done].
  injection H as Hraw Hd Hv He Hb Hv' He'. apply bool_decide_eq_true in Hb. subst v'.
  exists s, s'. split; [exact Hs|]. split; [exact Hraw|]. split; [exact Hd|].
  split; [reflexivity|]. unfold shown. rewrite He, Hv, He', Hv'.
  split; [reflexivity|]. split; [exact E|reflexivity].
Qed.
